(** * WOPAV: the competitive-ranking engine

    A shallow embedding of the scoring utilities ([scoring_systems.py]) and
    of the majority placement engine of the dashboard ([Main_Dashboard.py]),
    with the properties of the specification stated and proved on it.

    Conventions of the embedding:
    - a Python [float] is a finite number, an exact rational ([Qc], whose
      Leibniz equality is Python's [==] on finite values). The rounding of
      float arithmetic is not modelled, and neither is a sum, difference or
      product that leaves the range of a double (Python's [inf]). Where
      Python raises on the range, so does the embedding: the conversion of
      an [int] to a [float] is the interpreter's, with its rounding and its
      [OverflowError], and so is the [OverflowError] of [**];
    - a Python [dict] keyed by strings is a [gmap string _]; where the source
      only sorts or counts the items, their iteration order is immaterial;
    - an exception is an outcome of its own: every function that can raise
      returns in [outcome], and loops that are not structural carry fuel. *)

From Stdlib Require Import QArith Qcanon.
From stdpp Require Import numbers sorting pretty strings gmap list.

Close Scope Qc_scope.
Close Scope Q_scope.

(** ** Outcomes of Python code *)

Inductive pyexn :=
  | KeyError
  | ValueError
  | IndexError
  | ZeroDivisionError
  | OverflowError
  | StatisticsError.

Inductive outcome (A : Type) :=
  | Ok (a : A)
  | Raise (e : pyexn)
  | OutOfFuel.
Arguments Ok {A} a.
Arguments Raise {A} e.
Arguments OutOfFuel {A}.

#[global] Instance outcome_ret : MRet outcome := λ A a, Ok a.
#[global] Instance outcome_bind : MBind outcome := λ A B f m,
  match m with
  | Ok a => f a
  | Raise e => Raise e
  | OutOfFuel => OutOfFuel
  end.

#[global] Instance outcome_fmap : FMap outcome := λ A B f m,
  match m with
  | Ok a => Ok (f a)
  | Raise e => Raise e
  | OutOfFuel => OutOfFuel
  end.

#[global] Instance pyexn_eq_dec : EqDecision pyexn.
Proof. solve_decision. Defined.

Definition of_option {A} (e : pyexn) (o : option A) : outcome A :=
  match o with
  | Some a => Ok a
  | None => Raise e
  end.

(** [l[i]] on a list. *)
Definition py_index {A} (l : list A) (i : nat) : outcome A :=
  of_option IndexError (l !! i).

(** ** Sorting

    [sorted(l, key=...)] and [l.sort(key=...)] are stable: an element is
    placed before the later elements that compare equal to it. *)

Section py_sorted.
Context {A : Type} (R : relation A) `{!RelDecision R}.

Fixpoint sorted_insert (x : A) (l : list A) : list A :=
  match l with
  | [] => [x]
  | y :: l' => if decide (R x y) then x :: l else y :: sorted_insert x l'
  end.

Fixpoint py_sorted (l : list A) : list A :=
  match l with
  | [] => []
  | x :: l' => sorted_insert x (py_sorted l')
  end.
End py_sorted.

(** ** Arithmetic on scores *)

(** [sum]: the additions from the left, in the order of the list. *)
Definition py_sum (l : list Qc) : Qc := foldl Qcplus 0%Qc l.

Definition py_truediv (x y : Qc) : outcome Qc :=
  if decide (y = 0%Qc) then Raise ZeroDivisionError else Ok (x / y)%Qc.

Definition py_abs (x : Qc) : Qc :=
  if decide (x < 0)%Qc then (- x)%Qc else x.

(** The largest double is [2^1024 - 2^971]; a magnitude half an ulp above
    it, from [2^1024 - 2^970] on, rounds to no finite double. *)
Definition DBL_OVERFLOW : Qc := Qc_of_Z (2 ^ 1024 - 2 ^ 970).

(** [x ** n] on a float, for a whole exponent [n > 0]: [OverflowError] when
    the power is beyond the range of a double. *)
Definition py_pow (x : Qc) (n : nat) : outcome Qc :=
  let y := (x ^ n)%Qc in
  if decide (DBL_OVERFLOW ≤ py_abs y)%Qc then Raise OverflowError else Ok y.

Definition Qc_of_nat (n : nat) : Qc := Qc_of_Z (Z.of_nat n).

(** * scoring_systems.py *)

Module Scoring.

(** A raw score token, as [_parse_score] receives it from the decoded JSON:
    [None], a number, a string (a sequence of code points), or any other
    object, which only matters through its [str()]. *)
Inductive pyvalue :=
  | PyNone
  | PyInt (n : Z)
  | PyFloat (x : Qc)
  | PyStr (s : list N)
  | PyObj (str : list N).

(** [float(n)] for an [int]: the nearest double, ties to even; an [int] whose
    rounding does not fit a double raises [OverflowError]. *)
Definition float_of_int (n : Z) : outcome Qc :=
  let a := Z.abs n in
  let bits := (if decide (a = 0) then 0 else Z.log2 a + 1)%Z in
  if decide (bits ≤ 53)%Z then Ok (Qc_of_Z n)
  else
    let sh := (bits - 53)%Z in
    let q := Z.shiftr a sh in
    let r := (a - Z.shiftl q sh)%Z in
    let half := Z.shiftl 1 (sh - 1) in
    let q' := if decide (half < r ∨ (r = half ∧ Z.odd q = true))%Z
              then (q + 1)%Z else q in
    let v := Z.shiftl q' sh in
    if decide (2 ^ 1024 ≤ v)%Z then Raise OverflowError
    else Ok (Qc_of_Z (Z.sgn n * v)).

(** [str.isspace] on one code point. *)
Definition py_isspace (c : N) : bool :=
  ((9 <=? c) && (c <=? 13) || (28 <=? c) && (c <=? 32) ||
   (c =? 133) || (c =? 160) || (c =? 5760) ||
   (8192 <=? c) && (c <=? 8202) || (c =? 8232) || (c =? 8233) ||
   (c =? 8239) || (c =? 8287) || (c =? 12288))%N.

Fixpoint lstrip (s : list N) : list N :=
  match s with
  | c :: s' => if py_isspace c then lstrip s' else s
  | [] => []
  end.

(** [s.strip()] *)
Definition strip (s : list N) : list N := reverse (lstrip (reverse (lstrip s))).

(** [s.replace(c, "")] and [s.replace(c, d)] for one-character patterns *)
Definition remove_char (c : N) (s : list N) : list N :=
  filter (λ x, x ≠ c) s.
Definition replace_char (c d : N) (s : list N) : list N :=
  (λ x, if decide (x = c) then d else x) <$> s.

Definition SPACE : N := 32.
Definition NBSP : N := 160.
Definition COMMA : N := 44.
Definition DOT : N := 46.

Section parse.
(** [float(text)] on a string is the interpreter's: [None] stands for its
    [ValueError]. *)
Variable py_float : list N → option Qc.

Definition parse_text (s : list N) : outcome (option Qc) :=
  let text := strip s in
  if decide (text = []) then Ok None
  else
    let text := replace_char COMMA DOT (remove_char NBSP (remove_char SPACE text)) in
    match py_float text with
    | Some x => Ok (Some x)
    | None => Ok None
    end.

Definition _parse_score (value : pyvalue) : outcome (option Qc) :=
  match value with
  | PyNone => Ok None
  | PyInt n => x ← float_of_int n; Ok (Some x)
  | PyFloat x => Ok (Some x)
  | PyStr s => parse_text s
  | PyObj s => parse_text s
  end.
End parse.

(** [statistics.median] *)
Definition median (data : list Qc) : outcome Qc :=
  let data := py_sorted Qcle data in
  let n := length data in
  if decide (n = 0) then Raise StatisticsError
  else if decide (n mod 2 = 1) then py_index data (n / 2)
  else
    let i := n / 2 in
    lo ← py_index data (i - 1);
    hi ← py_index data i;
    py_truediv (lo + hi)%Qc 2%Qc.

(** The [for value in numeric_scores] loop, on the two accumulators. *)
Fixpoint weigh (med : Qc) (numeric_scores weights weighted_values : list Qc)
    : outcome (list Qc * list Qc) :=
  match numeric_scores with
  | [] => Ok (weights, weighted_values)
  | value :: rest =>
      let diff := py_abs (value - med)%Qc in
      square ← py_pow diff 2;
      weight ← py_truediv 1%Qc (1 + square)%Qc;
      weigh med rest (weights ++ [weight]) (weighted_values ++ [(value * weight)%Qc])
  end.

Definition numeric (scores : list (option Qc)) : list Qc := omap id scores.

Definition _scaled_median_from_scores (scores : list (option Qc))
    : outcome (option Qc) :=
  let numeric_scores := numeric scores in
  if decide (numeric_scores = []) then Ok None
  else
    med ← median numeric_scores;
    '(weights, weighted_values) ← weigh med numeric_scores [] [];
    let total_weight := py_sum weights in
    if decide (total_weight = 0%Qc) then Ok None
    else Some <$> py_truediv (py_sum weighted_values) total_weight.

Definition _simple_average (scores : list (option Qc)) : outcome (option Qc) :=
  let numeric_scores := numeric scores in
  if decide (numeric_scores = []) then Ok None
  else Some <$> py_truediv (py_sum numeric_scores) (Qc_of_nat (length numeric_scores)).

(** The aggregate in the words of the specification: the weight of a score
    [v] against the median [m], and the weighted average of the scores. *)
Definition spec_weight (m v : Qc) : Qc := (1 / (1 + (v - m) ^ 2))%Qc.

Definition spec_weighted_average (m : Qc) (l : list Qc) : Qc :=
  (py_sum ((λ v, v * spec_weight m v)%Qc <$> l) / py_sum (spec_weight m <$> l))%Qc.

(** Whole-number scores, for the examples. *)
Definition scores_of_ints (l : list nat) : list (option Qc) :=
  (λ n, Some (Qc_of_nat n)) <$> l.

(** The scores [[1e200, 0.0, 0.0]]. *)
Definition huge_scores : list (option Qc) :=
  [Some (Qc_of_Z (10 ^ 200)); Some 0%Qc; Some 0%Qc].

End Scoring.

(** * Main_Dashboard.py *)

(** ** Small Python idioms *)

(** [d[k]] on a dict *)
Definition dict_get {V} (d : gmap string V) (k : string) : outcome V :=
  of_option KeyError (d !! k).

(** [l.remove(x)]: the first occurrence goes; [None] stands for the
    [ValueError] of an absent [x]. *)
Fixpoint remove_first (x : string) (l : list string) : option (list string) :=
  match l with
  | [] => None
  | y :: l' => if decide (x = y) then Some l' else (y ::.) <$> remove_first x l'
  end.

(** [if x in l: l.remove(x)] *)
Definition discard (l : list string) (x : string) : list string :=
  default l (remove_first x l).

(** [max(values)] *)
Definition py_max (values : list nat) : outcome nat :=
  if decide (values = []) then Raise ValueError else Ok (max_list values).

(** A left fold whose body can raise. *)
Fixpoint foldlM {A B} (f : A → B → outcome A) (a : A) (l : list B) : outcome A :=
  match l with
  | [] => Ok a
  | b :: l' => a' ← f a b; foldlM f a' l'
  end.

(** A rank that [ranking.get(c, float('inf'))] yields: [None] is infinity. *)
Definition rank_lt (r1 r2 : option nat) : bool :=
  match r1, r2 with
  | Some x, Some y => bool_decide (x < y)
  | Some _, None => true
  | None, _ => false
  end.

Definition rank_le_nat (r : option nat) (threshold : nat) : bool :=
  match r with
  | Some x => bool_decide (x ≤ threshold)
  | None => false
  end.

Module Dashboard.

(** ** Data frames

    A data frame is the list of its rows. A row carries the start number that
    the scrapers store (a string, or [None]) and its other columns by name. *)

Inductive cell :=
  | CNone
  | CStr (s : string)
  | CInt (n : Z)
  | CNum (x : Qc)
  | CScores (l : list (option Qc)).

Record row := Row {
  start_number : option string;
  columns : gmap string cell
}.

Record judge := Judge {
  letter : string;
  name : string
}.

(** [str(row["start_number"])] *)
Definition str_start_number (r : row) : string :=
  default "None" (start_number r).

Definition categories : list string := ["BBW"; "BBM"; "LF"; "DF"; "MI"].

Definition col_judge_scores (cat : string) : string := cat +:+ "_judge_scores".

(** [row.get(col, [])] when it is a list *)
Definition scores_list (r : row) (col : string) : option (list (option Qc)) :=
  match columns r !! col with
  | Some (CScores l) => Some l
  | _ => None
  end.

(** ** combine_rounds_for_majority, on the two prepared data frames *)

Definition row_map (df : list row) : gmap string row :=
  foldl (λ m r, <[str_start_number r := r]> m) ∅ df.

Definition combine_slot (val_a val_b : option Qc) : option Qc :=
  match val_a, val_b with
  | None, None => None
  | _, _ =>
      let total := 0%Qc in
      let total := match val_a with Some a => (total + a)%Qc | None => total end in
      let total := match val_b with Some b => (total + b)%Qc | None => total end in
      Some total
  end.

Definition combine_scores (scores_a scores_b : list (option Qc)) : list (option Qc) :=
  let max_len := length scores_a `max` length scores_b in
  (λ idx, combine_slot (mjoin (scores_a !! idx)) (mjoin (scores_b !! idx)))
    <$> seq 0 max_len.

Definition combine_row (base_row other_row : row) : row :=
  foldl (λ combined cat,
           let col_scores := col_judge_scores cat in
           let scores_a := default [] (scores_list base_row col_scores) in
           let scores_b := default [] (scores_list other_row col_scores) in
           {| start_number := start_number combined;
              columns := <[col_scores := CScores (combine_scores scores_a scores_b)]>
                           (columns combined) |})
        base_row categories.

Definition combine_rounds_for_majority (df_current df_other : list row) : list row :=
  if decide (df_current = []) then df_other
  else if decide (df_other = []) then df_current
  else
    let current_map := row_map df_current in
    let other_map := row_map df_other in
    let all_start_numbers :=
      py_sorted String.le (elements (dom current_map ∪ dom other_map)) in
    all_start_numbers ≫= λ start_number,
      match current_map !! start_number, other_map !! start_number with
      | None, Some other_row => [other_row]
      | Some base_row, None => [base_row]
      | Some base_row, Some other_row => [combine_row base_row other_row]
      | None, None => [] (* no such key: it comes from one of the two maps *)
      end.

(** ** build_judge_rankings_for_subset *)

(** [len([s for s in scores if s is not None])] *)
Definition count_present (scores : list (option Qc)) : nat :=
  length (filter (λ s, s ≠ None) scores).

(** [col in df_subset.columns] *)
Definition has_column (df : list row) (col : string) : bool :=
  bool_decide (Exists (λ r, is_Some (columns r !! col)) df).

Definition scan_column (df : list row) (col : string) (num_judges : nat) : nat :=
  foldl (λ num_judges r,
           match scores_list r col with
           | Some scores =>
               let count := count_present scores in
               if decide (num_judges < count) then count else num_judges
           | None => num_judges
           end)
        num_judges df.

Fixpoint discover_num_judges (df : list row) (cats : list string) (num_judges : nat) : nat :=
  match cats with
  | [] => num_judges
  | cat :: cats' =>
      let col := col_judge_scores cat in
      if has_column df col then
        let num_judges := scan_column df col num_judges in
        if decide (num_judges ≠ 0) then num_judges
        else discover_num_judges df cats' num_judges
      else discover_num_judges df cats' num_judges
  end.

(** The sort key [j.get("letter", "")] *)
Definition letter_le (j1 j2 : judge) : Prop := String.le (letter j1) (letter j2).

#[global] Instance letter_le_dec : RelDecision letter_le.
Proof. intros j1 j2. unfold letter_le. apply _. Defined.

(** The judge count in the words of the specification: the largest number of
    available scores in one list of a column, and its maximum over the five
    categories. *)
Definition column_max (df : list row) (col : string) : nat :=
  max_list (count_present <$> omap (λ r, scores_list r col) df).

Definition spec_num_judges (df : list row) : nat :=
  max_list ((λ cat, column_max df (col_judge_scores cat)) <$> categories).

(** The first category, in the order of [categories], that has an available
    score decides; 0 when none has. *)
Definition first_scored_max (df : list row) : nat :=
  default 0 (head (filter (λ n, n ≠ 0)
                     ((λ cat, column_max df (col_judge_scores cat)) <$> categories))).

Definition judge_n (idx : nat) : string := "Judge " +:+ pretty (idx + 1).

Section judge_names.
(** [full_name.strip().split()[0]]: the first word of a name, [None] for the
    [IndexError] of a name without one. *)
Variable first_word : string → option string.

Definition judge_name (sorted_judges : list judge) (idx : nat) : outcome string :=
  match sorted_judges !! idx with
  | Some judge =>
      if decide (name judge ≠ "") then of_option IndexError (first_word (name judge))
      else if decide (letter judge ≠ "") then Ok (letter judge)
      else Ok (judge_n idx)
  | None => Ok (judge_n idx)
  end.

Definition judge_names_for (judges_list : list judge) (num_judges : nat)
    : outcome (list string) :=
  if decide (judges_list ≠ []) then
    let sorted_judges := py_sorted letter_le judges_list in
    foldlM (λ judge_names idx,
              first_name ← judge_name sorted_judges idx;
              Ok (judge_names ++ [first_name]))
           [] (seq 0 num_judges)
  else Ok (judge_n <$> seq 0 num_judges).
End judge_names.

(** The total of one judge for one row, over the five categories. *)
Definition judge_total (r : row) (judge_idx : nat) : Qc :=
  foldl (λ total_score cat,
           match scores_list r (col_judge_scores cat) with
           | Some scores =>
               match scores !! judge_idx with
               | Some (Some score) => (total_score + score)%Qc
               | _ => total_score
               end
           | None => total_score
           end)
        0%Qc categories.

(** The sort key [(-x[1], x[0])], compared as a tuple. *)
Definition totals_le (x y : string * Qc) : Prop :=
  (- x.2 < - y.2)%Qc ∨ ((- x.2)%Qc = (- y.2)%Qc ∧ String.le x.1 y.1).

#[global] Instance totals_le_dec : RelDecision totals_le.
Proof. intros x y. unfold totals_le. apply _. Defined.

(** The ranking loop over the sorted totals: [prev] holds [prev_score] and
    [prev_rank], which the source sets together. *)
Fixpoint assign_ranks (totals : list (string * Qc)) (position : nat)
    (prev : option (Qc * nat)) (ranking : gmap string nat) : gmap string nat :=
  match totals with
  | [] => ranking
  | (start_number, score) :: rest =>
      match prev with
      | Some (prev_score, prev_rank) =>
          if decide (score = prev_score)
          then assign_ranks rest (S position) prev (<[start_number := prev_rank]> ranking)
          else assign_ranks rest (S position) (Some (score, position))
                 (<[start_number := position]> ranking)
      | None =>
          assign_ranks rest (S position) (Some (score, position))
            (<[start_number := position]> ranking)
      end
  end.

(** The competitors with a strictly higher total, and the lists in
    descending order of total. *)
Definition count_greater (s : Qc) (l : list (string * Qc)) : nat :=
  length (filter (λ x, s < x.2)%Qc l).

Definition desc (l : list (string * Qc)) : Prop :=
  StronglySorted (λ x y, y.2 ≤ x.2)%Qc l.

Definition judge_totals (df : list row) (judge_idx : nat) : list (string * Qc) :=
  (λ r, (str_start_number r, judge_total r judge_idx)) <$> df.

Definition judge_ranking (df : list row) (judge_idx : nat) : gmap string nat :=
  let totals := py_sorted totals_le (judge_totals df judge_idx) in
  assign_ranks totals 1 None ∅.

Definition build_judge_rankings_for_subset (first_word : string → option string)
    (df_subset : list row) (judges_list : list judge)
    : outcome (list (gmap string nat) * list string) :=
  if decide (df_subset = []) then Ok ([], [])
  else
    let num_judges := discover_num_judges df_subset categories 0 in
    if decide (num_judges = 0) then Ok ([], [])
    else
      judge_names ← judge_names_for first_word judges_list num_judges;
      Ok (judge_ranking df_subset <$> seq 0 num_judges, judge_names).

(** ** resolve_ties *)

(** The rationale strings, by the f-string that renders them and its
    arguments: [f"Head-to-head {w}-{l}"], [f"Head-to-head tie ({a}-{b})"],
    ["; ".join(f"vs {b}: {wa}-{wb}" ...)], [f"Majority ≤ {t} ({c}/{n} judges)"]
    and [f"Fallback by average rank ({avg:.2f})"]. *)
Inductive note :=
  | HeadToHead (wins_own wins_other : nat)
  | HeadToHeadTie (wins_a wins_b : nat)
  | Pairwise (vs : list (string * nat * nat))
  | Majority (threshold count num_judges : nat)
  | FallbackAverage (avg : Qc).

Definition head_to_head (judge_rankings : list (gmap string nat)) (a b : string)
    : nat * nat :=
  foldl (λ wins ranking,
           let rank_a := ranking !! a in
           let rank_b := ranking !! b in
           if rank_lt rank_a rank_b then (S wins.1, wins.2)
           else if rank_lt rank_b rank_a then (wins.1, S wins.2)
           else wins)
        (0, 0) judge_rankings.

(** [pairwise_scores] and [pairwise_notes] *)
Record scorecard := Scorecard {
  pairwise_scores : gmap string nat;
  pairwise_notes : gmap string (list (string * nat * nat))
}.

Definition init_scorecard (candidates : list string) : scorecard :=
  {| pairwise_scores := foldl (λ m c, <[c := 0]> m) ∅ candidates;
     pairwise_notes := foldl (λ m c, <[c := []]> m) ∅ candidates |}.

(** The body of the double loop, for [a = candidates[i]], [b = candidates[j]]. *)
Definition pairwise_compare (judge_rankings : list (gmap string nat)) (a : string)
    (card : scorecard) (b : string) : outcome scorecard :=
  let scores := pairwise_scores card in
  let notes := pairwise_notes card in
  let wins := head_to_head judge_rankings a b in
  let wins_a := wins.1 in
  let wins_b := wins.2 in
  scores ←
    (if decide (wins_b < wins_a) then
       s ← dict_get scores a; Ok (<[a := s + 1]> scores)
     else if decide (wins_a < wins_b) then
       s ← dict_get scores b; Ok (<[b := s + 1]> scores)
     else Ok scores);
  notes_a ← dict_get notes a;
  let notes := <[a := notes_a ++ [(b, wins_a, wins_b)]]> notes in
  notes_b ← dict_get notes b;
  let notes := <[b := notes_b ++ [(a, wins_b, wins_a)]]> notes in
  Ok {| pairwise_scores := scores; pairwise_notes := notes |}.

Fixpoint pairwise_loop (judge_rankings : list (gmap string nat))
    (candidates : list string) (card : scorecard) : outcome scorecard :=
  match candidates with
  | [] => Ok card
  | a :: rest =>
      card ← foldlM (pairwise_compare judge_rankings a) card rest;
      pairwise_loop judge_rankings rest card
  end.

(** [for c in cs: tie_info[c] = "; ".join(pairwise_notes[c])] *)
Definition record_notes (card : scorecard) (cs : list string)
    (info : gmap string note) : outcome (gmap string note) :=
  foldlM (λ info c,
            notes ← dict_get (pairwise_notes card) c;
            Ok (<[c := Pairwise notes]> info))
         info cs.

(** [for c in cs: tie_info.setdefault(c, "; ".join(pairwise_notes[c]))] *)
Definition default_notes (card : scorecard) (cs : list string)
    (info : gmap string note) : outcome (gmap string note) :=
  foldlM (λ info c,
            notes ← dict_get (pairwise_notes card) c;
            Ok (match info !! c with
                | Some _ => info
                | None => <[c := Pairwise notes]> info
                end))
         info cs.

(** [{c: pairwise_scores[c] for c in remaining}] *)
Definition current_scores_of (card : scorecard) (remaining : list string)
    : outcome (gmap string nat) :=
  foldlM (λ m c, s ← dict_get (pairwise_scores card) c; Ok (<[c := s]> m))
         ∅ remaining.

(** [[c for c in remaining if current_scores[c] == max_score]] *)
Definition current_top_of (current_scores : gmap string nat) (max_score : nat)
    (remaining : list string) : outcome (list string) :=
  foldlM (λ top c,
            s ← dict_get current_scores c;
            Ok (if decide (s = max_score) then top ++ [c] else top))
         [] remaining.

Definition groups_info : Type := list (list string) * gmap string note.

(** The [while remaining] loop; [rec] is the recursive call of
    [resolve_ties]. *)
Fixpoint resolve_loop (rec : list string → outcome groups_info) (card : scorecard)
    (fuel : nat) (remaining : list string) (result_groups : list (list string))
    (info : gmap string note) : outcome groups_info :=
  if decide (remaining = []) then Ok (result_groups, info)
  else
    match fuel with
    | 0 => OutOfFuel
    | S fuel =>
        current_scores ← current_scores_of card remaining;
        max_score ← py_max (snd <$> map_to_list current_scores);
        current_top ← current_top_of current_scores max_score remaining;
        if decide (length current_top = length remaining) then
          info ← record_notes card remaining info;
          Ok (result_groups ++ [remaining], info)
        else if decide (length current_top = 1) then
          winner ← py_index current_top 0;
          notes ← dict_get (pairwise_notes card) winner;
          let info := <[winner := Pairwise notes]> info in
          remaining ← of_option ValueError (remove_first winner remaining);
          resolve_loop rec card fuel remaining (result_groups ++ [[winner]]) info
        else
          '(sub_groups, sub_info) ← rec current_top;
          let remaining := foldl discard remaining (concat sub_groups) in
          resolve_loop rec card fuel remaining (result_groups ++ sub_groups)
            (sub_info ∪ info)
    end.

(** The branch of more than two candidates. *)
Definition resolve_many (rec : list string → outcome groups_info)
    (candidates : list string) (judge_rankings : list (gmap string nat))
    : outcome groups_info :=
  card ← pairwise_loop judge_rankings candidates (init_scorecard candidates);
  max_score ← py_max (snd <$> map_to_list (pairwise_scores card));
  let top_candidates :=
    filter (λ item, item.2 = max_score) (map_to_list (pairwise_scores card)) in
  if decide (length top_candidates = length candidates) then
    info ← record_notes card candidates ∅;
    Ok ([candidates], info)
  else
    '(result_groups, info) ←
      resolve_loop rec card (length candidates) candidates [] ∅;
    info ← default_notes card candidates info;
    Ok (result_groups, info).

Fixpoint resolve_ties_rec (fuel : nat) (candidates : list string)
    (judge_rankings : list (gmap string nat)) : outcome groups_info :=
  match fuel with
  | 0 => OutOfFuel
  | S fuel =>
      if decide (length candidates ≤ 1) then Ok ([candidates], ∅)
      else
        match candidates with
        | [a; b] =>
            let wins := head_to_head judge_rankings a b in
            let wins_a := wins.1 in
            let wins_b := wins.2 in
            if decide (wins_b < wins_a) then
              Ok ([[a]; [b]],
                  <[b := HeadToHead wins_b wins_a]> (<[a := HeadToHead wins_a wins_b]> ∅))
            else if decide (wins_a < wins_b) then
              Ok ([[b]; [a]],
                  <[b := HeadToHead wins_b wins_a]> (<[a := HeadToHead wins_a wins_b]> ∅))
            else
              Ok ([candidates],
                  <[a := HeadToHeadTie wins_a wins_b]>
                    (<[b := HeadToHeadTie wins_a wins_b]> ∅))
        | _ =>
            resolve_many (λ top, resolve_ties_rec fuel top judge_rankings)
              candidates judge_rankings
        end
  end.

(** The recursion is on a strictly shorter list, so the length of the
    candidates bounds its depth. *)
Definition resolve_ties (candidates : list string)
    (judge_rankings : list (gmap string nat)) (judge_names : list string)
    : outcome groups_info :=
  resolve_ties_rec (S (length candidates)) candidates judge_rankings.

(** The scorecard has an entry for exactly the ids of [X]. *)
Definition covers (X : gset string) (card : scorecard) : Prop :=
  dom (pairwise_scores card) = X ∧ dom (pairwise_notes card) = X.

(** The outcome of the resolver is a split of the candidates into groups,
    none of them empty. *)
Definition partitions (candidates : list string) (r : outcome groups_info) : Prop :=
  ∃ groups info, r = Ok (groups, info) ∧ concat groups ≡ₚ candidates ∧
    (candidates ≠ [] → Forall (λ g, g ≠ []) groups).

(** Every head-to-head comparison among the candidates is an exact split. *)
Definition all_split (jr : list (gmap string nat)) (candidates : list string) : Prop :=
  ∀ a b, a ∈ candidates → b ∈ candidates →
    (head_to_head jr a b).1 = (head_to_head jr a b).2.

(** ** determine_majority_placements *)

Record placement := Placement {
  place : nat;
  couples : list string;
  summary : option note;
  tie_info : gmap string (option note)
}.

(** The mutable variables of the placement loop. *)
Record engine := Engine {
  placement_records : list placement;
  unplaced : list string;
  next_place : nat
}.

(** [sum(1 for ranking in judge_rankings if ranking.get(c, inf) <= threshold)] *)
Definition count_within (judge_rankings : list (gmap string nat))
    (start_number : string) (threshold : nat) : nat :=
  length (filter (λ ranking, rank_le_nat (ranking !! start_number) threshold = true)
            judge_rankings).

(** [count > num_judges / 2], a true division *)
Definition is_majority (count num_judges : nat) : Prop :=
  (Qc_of_nat num_judges / 2 < Qc_of_nat count)%Qc.

#[global] Instance is_majority_dec count num_judges : Decision (is_majority count num_judges).
Proof. unfold is_majority. apply _. Defined.

Definition candidate_counts_at (judge_rankings : list (gmap string nat))
    (num_judges : nat) (unplaced : list string) (threshold : nat) : gmap string nat :=
  foldl (λ candidate_counts start_number,
           let count := count_within judge_rankings start_number threshold in
           if decide (is_majority count num_judges)
           then <[start_number := count]> candidate_counts
           else candidate_counts)
        ∅ unplaced.

(** The sort key [(-x[1], x[0])] of the candidates. *)
Definition counts_le (x y : string * nat) : Prop :=
  (- Z.of_nat x.2 < - Z.of_nat y.2)%Z ∨
  ((- Z.of_nat x.2)%Z = (- Z.of_nat y.2)%Z ∧ String.le x.1 y.1).

#[global] Instance counts_le_dec : RelDecision counts_le.
Proof. intros x y. unfold counts_le. apply _. Defined.

(** The inner [while] that collects the candidates of the same count: the
    collected ids and the rest of the list. *)
Fixpoint take_same_count (count_value : nat) (l : list (string * nat))
    : list string * list (string * nat) :=
  match l with
  | (start_number, count) :: l' =>
      if decide (count = count_value) then
        let '(same, rest) := take_same_count count_value l' in
        (start_number :: same, rest)
      else ([], l)
  | [] => ([], [])
  end.

(** The body of [for group in resolved_groups]. *)
Definition place_group (summary_map : gmap string note) (info : gmap string note)
    (st : engine) (group : list string) : outcome engine :=
  first ← py_index group 0;
  let record :=
    {| place := next_place st;
       couples := group;
       summary := summary_map !! first;
       tie_info := if decide (info ≠ ∅)
                   then foldl (λ m c, <[c := info !! c]> m) ∅ group
                   else ∅ |} in
  Ok {| placement_records := placement_records st ++ [record];
        unplaced := foldl discard (unplaced st) group;
        next_place := next_place st + length group |}.

(** What the outer [while] does with the candidates of one count: resolve
    the tie, then place the resolved groups in order. *)
Definition place_tie_group (judge_rankings : list (gmap string nat))
    (judge_names : list string) (summary_map : gmap string note)
    (st : engine) (same_count_candidates : list string) : outcome engine :=
  '(resolved_groups, info) ←
    resolve_ties same_count_candidates judge_rankings judge_names;
  foldlM (place_group summary_map info) st resolved_groups.

(** The [while idx < len(sorted_candidates)] loop. *)
Fixpoint place_candidates (fuel : nat) (judge_rankings : list (gmap string nat))
    (judge_names : list string) (summary_map : gmap string note)
    (sorted_candidates : list (string * nat)) (st : engine) : outcome engine :=
  match sorted_candidates with
  | [] => Ok st
  | (first, count_value) :: rest =>
      match fuel with
      | 0 => OutOfFuel
      | S fuel =>
          let '(more, rest) := take_same_count count_value rest in
          let same_count_candidates := first :: more in
          st ← place_tie_group judge_rankings judge_names summary_map st
                 same_count_candidates;
          place_candidates fuel judge_rankings judge_names summary_map rest st
      end
  end.

Definition place_majority (judge_rankings : list (gmap string nat))
    (judge_names : list string) (threshold : nat)
    (candidate_counts : gmap string nat) (st : engine) : outcome engine :=
  let num_judges := length judge_names in
  let summary_map := (λ count, Majority threshold count num_judges) <$> candidate_counts in
  let sorted_candidates := py_sorted counts_le (map_to_list candidate_counts) in
  place_candidates (length sorted_candidates) judge_rankings judge_names summary_map
    sorted_candidates st.

(** The [for threshold in range(1, total_couples + 1)] loop; the flag is
    [majority_found]. *)
Fixpoint threshold_loop (judge_rankings : list (gmap string nat))
    (judge_names : list string) (thresholds : list nat) (st : engine)
    : outcome (bool * engine) :=
  match thresholds with
  | [] => Ok (false, st)
  | threshold :: thresholds =>
      let candidate_counts :=
        candidate_counts_at judge_rankings (length judge_names) (unplaced st) threshold in
      if decide (candidate_counts ≠ ∅) then
        st ← place_majority judge_rankings judge_names threshold candidate_counts st;
        Ok (true, st)
      else threshold_loop judge_rankings judge_names thresholds st
  end.

(** The sort key [(x[1], x[0])] of the fallback. *)
Definition avg_le (x y : string * Qc) : Prop :=
  (x.2 < y.2)%Qc ∨ (x.2 = y.2 ∧ String.le x.1 y.1).

#[global] Instance avg_le_dec : RelDecision avg_le.
Proof. intros x y. unfold avg_le. apply _. Defined.

Definition average_rank (judge_rankings : list (gmap string nat)) (n_rows : nat)
    (num_judges : nat) (start_number : string) : outcome Qc :=
  let total_rank :=
    sum_list ((λ ranking : gmap string nat, default (n_rows + 1) (ranking !! start_number))
                <$> judge_rankings) in
  py_truediv (Qc_of_nat total_rank) (Qc_of_nat num_judges).

Definition place_fallback (st : engine) (item : string * Qc) : outcome engine :=
  let start_number := item.1 in
  let avg := item.2 in
  let record :=
    {| place := next_place st;
       couples := [start_number];
       summary := Some (FallbackAverage avg);
       tie_info := {[ start_number := Some (FallbackAverage avg) ]} |} in
  unplaced' ← of_option ValueError (remove_first start_number (unplaced st));
  Ok {| placement_records := placement_records st ++ [record];
        unplaced := unplaced';
        next_place := next_place st + 1 |}.

Definition fallback (judge_rankings : list (gmap string nat)) (n_rows : nat)
    (num_judges : nat) (st : engine) : outcome engine :=
  avg_ranks ←
    foldlM (λ avg_ranks start_number,
              avg ← average_rank judge_rankings n_rows num_judges start_number;
              Ok (avg_ranks ++ [(start_number, avg)]))
           [] (unplaced st);
  foldlM place_fallback st (py_sorted avg_le avg_ranks).

(** The [while unplaced] loop. *)
Fixpoint placement_loop (fuel : nat) (judge_rankings : list (gmap string nat))
    (judge_names : list string) (n_rows total_couples : nat) (st : engine)
    : outcome (list placement) :=
  if decide (unplaced st = []) then Ok (placement_records st)
  else
    match fuel with
    | 0 => OutOfFuel
    | S fuel =>
        found ← threshold_loop judge_rankings judge_names (seq 1 total_couples) st;
        let majority_found : bool := found.1 in
        let st := found.2 in
        st ← (if majority_found then Ok st
              else fallback judge_rankings n_rows (length judge_names) st);
        placement_loop fuel judge_rankings judge_names n_rows total_couples st
    end.

(** The state of a run at its start. *)
Definition start_engine (df : list row) : engine :=
  {| placement_records := []; unplaced := str_start_number <$> df; next_place := 1 |}.

(** Every pass of the loop places a competitor, so the number of competitors
    bounds the passes. *)
Definition determine_majority_placements (df_subset : list row)
    (judge_rankings : list (gmap string nat)) (judge_names : list string)
    : outcome (list placement) :=
  let st := start_engine df_subset in
  let total_couples := length (unplaced st) in
  placement_loop (length (unplaced st)) judge_rankings judge_names (length df_subset)
    total_couples st.

(** The place label that [compute_majority_system_results] shows for a
    record. *)
Definition place_label (record : placement) : string :=
  if decide (1 < length (couples record))
  then pretty (place record) +:+ " (tie)"
  else pretty (place record).

(** ** Notions for the properties of a run *)

(** The ids of a list of records, in order. *)
Definition placed_ids (recs : list placement) : list string :=
  concat (couples <$> recs).

(** The records start at place [n] and each starts where the previous one
    ends. *)
Fixpoint place_chain (n : nat) (recs : list placement) : Prop :=
  match recs with
  | [] => True
  | r :: rs => place r = n ∧ place_chain (n + length (couples r)) rs
  end.

(** The engine went from [st] to [st'] by placing the ids [placed]. *)
Definition advances (st st' : engine) (placed : list string) : Prop :=
  ∃ new,
    placement_records st' = placement_records st ++ new ∧
    placed_ids new ≡ₚ placed ∧
    unplaced st' ++ placed ≡ₚ unplaced st ∧
    place_chain (next_place st) new ∧
    next_place st' = next_place st + length placed.

(** The groups that the loop over the sorted candidates forms, each with its
    count. *)
Fixpoint count_groups (fuel : nat) (sorted_candidates : list (string * nat))
    : list (nat * list string) :=
  match sorted_candidates with
  | [] => []
  | (first, count_value) :: rest =>
      match fuel with
      | 0 => []
      | S fuel =>
          let '(more, rest) := take_same_count count_value rest in
          (count_value, first :: more) :: count_groups fuel rest
      end
  end.

(** The mean ordinal rank of a competitor; a judge without a rank for it
    counts as one more than the number of rows. *)
Definition mean_rank (jr : list (gmap string nat)) (n_rows num_judges : nat)
    (start_number : string) : Qc :=
  let total_rank :=
    sum_list ((λ ranking : gmap string nat, default (n_rows + 1) (ranking !! start_number))
                <$> jr) in
  (Qc_of_nat total_rank / Qc_of_nat num_judges)%Qc.

(** The record of the fallback for one competitor and its mean. *)
Definition fallback_record (p : nat) (item : string * Qc) : placement :=
  {| place := p;
     couples := [item.1];
     summary := Some (FallbackAverage item.2);
     tie_info := {[ item.1 := Some (FallbackAverage item.2) ]} |}.

Definition fallback_records (p : nat) (items : list (string * Qc)) : list placement :=
  imap (λ i, fallback_record (p + i)) items.

(** ** Frames for the examples *)

Definition int_scores (l : list nat) : list (option Qc) :=
  (λ n, Some (Qc_of_nat n)) <$> l.

(** A row with its start number and the given score lists by category. *)
Definition scored_row (start : string) (scores : list (string * list (option Qc))) : row :=
  {| start_number := Some start;
     columns := foldl (λ m item, <[col_judge_scores item.1 := CScores item.2]> m)
                      {[ "competitor_names" := CStr ("Couple " +:+ start) ]} scores |}.

(** One couple whose first category holds one score and whose second holds
    two. *)
Definition uneven_frame : list row :=
  [scored_row "7" [("BBW", int_scores [4]); ("BBM", int_scores [4; 5])]].

(** Four couples under three judges, with ties in every ranking. *)
Definition tied_frame : list row :=
  [scored_row "10" [("BBW", int_scores [5; 3; 4])];
   scored_row "2" [("BBW", int_scores [3; 5; 4])];
   scored_row "3" [("BBW", int_scores [1; 1; 4])];
   scored_row "4" [("BBW", int_scores [1; 1; 1])]].

(** Two rounds of the couples 7 and 9; couple 12 danced the first only. *)
Definition slow_round : list row :=
  [scored_row "7" [("BBW", int_scores [4; 5]); ("MI", int_scores [10; 12])];
   scored_row "9" [("BBW", int_scores [5; 3]); ("MI", int_scores [11; 9])];
   scored_row "12" [("BBW", int_scores [2; 2])]].

Definition fast_round : list row :=
  [scored_row "9" [("BBW", [None; Some (Qc_of_nat 6)]); ("MI", int_scores [8; 8; 7])];
   scored_row "7" [("BBW", int_scores [3; 3]); ("LF", int_scores [6; 6])]].

(** Two couples that two judges rank in opposite orders. *)
Definition split_frame : list row :=
  [scored_row "A" [("BBW", int_scores [5; 3])];
   scored_row "B" [("BBW", int_scores [3; 5])]].

(** Two mirrored rankings of three couples: every pair is split 1-1. *)
Definition mirrored_rankings : list (gmap string nat) :=
  [ {[ "A" := 1; "B" := 2; "C" := 3 ]}; {[ "A" := 3; "B" := 2; "C" := 1 ]} ].

(** [full_name.strip().split()[0]] on names with plain spaces *)
Definition first_word_ascii (s : string) : option string := head (String.words s).

End Dashboard.

(** * scoring_systems.py: the other aggregates and the totals of a couple *)

Module Aggregates.
Import Scoring.

Definition CATEGORY_CODES : list string := ["BBW"; "BBM"; "LF"; "DF"; "MI"].

(** [l[1:-1]] *)
Definition slice_inner {A} (l : list A) : list A := take (length l - 2) (drop 1 l).

Definition _trimmed_average (scores : list (option Qc)) : outcome (option Qc) :=
  let numeric_scores := py_sorted Qcle (numeric scores) in
  if decide (length numeric_scores ≤ 2) then _simple_average (Some <$> numeric_scores)
  else
    let trimmed := slice_inner numeric_scores in
    if decide (trimmed = []) then _simple_average (Some <$> numeric_scores)
    else Some <$> py_truediv (py_sum trimmed) (Qc_of_nat (length trimmed)).

Section totals.
Variable py_float : list N → option Qc.

(** [[_parse_score(score) for score in judge_scores]] *)
Definition parse_scores (judge_scores : list pyvalue) : outcome (list (option Qc)) :=
  foldlM (λ numeric_scores score,
            x ← _parse_score py_float score;
            Ok (numeric_scores ++ [x]))
         [] judge_scores.

(** The three score functions share their body and differ in the aggregate
    of a category only. [categories] maps a category code to its
    [judge_scores]: a code without an entry stands for a missing category,
    for one that is not a dict and for one without [judge_scores], which all
    yield the empty list. [per_category] is the dict in its insertion
    order. *)

(** The body of [for code in CATEGORY_CODES]. *)
Definition score_category (aggregate : list (option Qc) → outcome (option Qc))
    (categories : gmap string (list pyvalue))
    (per_category : list (string * option Qc)) (code : string)
    : outcome (list (string * option Qc)) :=
  let judge_scores := default [] (categories !! code) in
  numeric_scores ← parse_scores judge_scores;
  value ← aggregate numeric_scores;
  Ok (per_category ++ [(code, value)]).

Definition category_scores (aggregate : list (option Qc) → outcome (option Qc))
    (categories : gmap string (list pyvalue))
    : outcome (list (string * option Qc) * option Qc) :=
  per_category ← foldlM (score_category aggregate categories) [] CATEGORY_CODES;
  let available_scores := omap snd per_category in
  let total_score :=
    if decide (available_scores = []) then None else Some (py_sum available_scores) in
  Ok (per_category, total_score).

Definition scaled_median := category_scores _scaled_median_from_scores.
Definition simple_average_score := category_scores _simple_average.
Definition trimmed_average_score := category_scores _trimmed_average.
End totals.

End Aggregates.

(** * Main_Dashboard.py: the table of the majority system *)

Module Results.
Import Dashboard.

(** A cell of the table: a string, a cell of the input frame, a rank, or the
    notes, which the source joins with [" | "]. *)
Inductive result_cell :=
  | RStr (s : string)
  | RCell (c : cell)
  | RRank (rank : nat)
  | RNotes (notes : list note).

(** The truth value of a rationale string: of the strings that the engine
    renders only the join of no pairwise note is empty. *)
Definition note_truthy (n : note) : bool :=
  match n with
  | Pairwise [] => false
  | _ => true
  end.

(** [df_subset[df_subset["start_number"] == start_number].iloc[0]]: the
    stored start number is compared with the id string. *)
Definition first_row_with (df_subset : list row) (sn : string) : outcome row :=
  py_index (filter (λ r, start_number r = Some sn) df_subset) 0.

(** [row.get(col, default)] on a row of the frame: the default is for a
    column that the frame does not have; a cell that this row leaves empty
    is [CNone]. *)
Definition row_get (df_subset : list row) (r : row) (col : string) (default_value : cell)
    : cell :=
  if has_column df_subset col then default CNone (columns r !! col) else default_value.

(** [for idx, ranking in enumerate(judge_rankings)] *)
Definition rank_columns (judge_rankings : list (gmap string nat))
    (judge_names : list string) (sn : string) (row_data : gmap string result_cell)
    : outcome (gmap string result_cell) :=
  foldlM (λ row_data (item : nat * gmap string nat),
            let idx := item.1 in
            let ranking := item.2 in
            col_name ← py_index judge_names idx;
            let rank_value := ranking !! sn in
            Ok (<[col_name := match rank_value with
                              | None => RStr ""
                              | Some rank => RRank rank
                              end]> row_data))
         row_data (imap pair judge_rankings).

Definition result_notes (summary : option note) (tie_info : gmap string (option note))
    (sn : string) : list note :=
  let notes := [] in
  let notes :=
    match summary with
    | Some s => if note_truthy s then notes ++ [s] else notes
    | None => notes
    end in
  let tie_note := mjoin (tie_info !! sn) in
  match tie_note with
  | Some n => if note_truthy n then notes ++ [n] else notes
  | None => notes
  end.

(** The body of [for start_number in couples]. *)
Definition result_row (df_subset : list row) (judge_rankings : list (gmap string nat))
    (judge_names : list string) (record : placement)
    (rows : list (gmap string result_cell)) (sn : string)
    : outcome (list (gmap string result_cell)) :=
  r ← first_row_with df_subset sn;
  let row_data : gmap string result_cell :=
    <["Couple" := RCell (row_get df_subset r "competitor_names" (CStr "Unknown"))]>
      (<["Start #" := RStr sn]> (<["Place" := RStr (place_label record)]> ∅)) in
  row_data ← rank_columns judge_rankings judge_names sn row_data;
  let notes := result_notes (summary record) (tie_info record) sn in
  let row_data := <["Notes" := RNotes notes]> row_data in
  Ok (rows ++ [row_data]).

(** The body of [for record in placement_records]. *)
Definition result_rows (df_subset : list row) (judge_rankings : list (gmap string nat))
    (judge_names : list string) (rows : list (gmap string result_cell))
    (record : placement) : outcome (list (gmap string result_cell)) :=
  foldlM (result_row df_subset judge_rankings judge_names record) rows (couples record).

(** The table is its columns in order and its rows by column name. *)
Definition compute_majority_system_results (first_word : string → option string)
    (df_subset : list row) (judges_list : list judge)
    : outcome (option (list string * list (gmap string result_cell))) :=
  if decide (df_subset = []) then Ok None
  else
    built ← build_judge_rankings_for_subset first_word df_subset judges_list;
    let judge_rankings := built.1 in
    let judge_names := built.2 in
    if decide (judge_rankings = [] ∨ judge_names = []) then Ok None
    else
      placement_records ←
        determine_majority_placements df_subset judge_rankings judge_names;
      if decide (placement_records = []) then Ok None
      else
        rows ← foldlM (result_rows df_subset judge_rankings judge_names) []
                 placement_records;
        if decide (rows = []) then Ok None
        else
          let ordered_cols := ["Place"; "Start #"; "Couple"] ++ judge_names ++ ["Notes"] in
          Ok (Some (ordered_cols, rows)).

(** A frame whose couples have no score. *)
Definition unscored_frame : list row := [scored_row "5" []; scored_row "6" []].

(** A frame with a row that has no start number. *)
Definition unnumbered_frame : list row :=
  [scored_row "8" [("BBW", int_scores [5; 3])];
   {| start_number := None;
      columns := {[ col_judge_scores "BBW" := CScores (int_scores [3; 5]) ]} |}].

End Results.

(** * Main_Dashboard.py: the number parser of the dashboard *)

Module Numbers.
Import Scoring.

Section parse.
(** [float(text)] on a string, as for [_parse_score]. *)
Variable py_float : list N → option Qc.

(** [parse_european_number] on a value of the decoded JSON. Only a string
    has a [replace] method: for a number that is not zero the call raises
    [AttributeError], which the bare [except] turns into [None]; zero,
    [None] and the empty string are falsy. *)
Definition parse_european_number (num_str : pyvalue) : option Qc :=
  match num_str with
  | PyNone => None
  | PyInt n => None
  | PyFloat x => None
  | PyStr s =>
      if decide (s = []) then None
      else py_float (replace_char COMMA DOT s)
  | PyObj _ => None
  end.
End parse.

End Numbers.

(** * Notions for comparing two runs *)

Module Runs.
Import Dashboard.

(** Two outcomes of the same kind: the same exception, or results that are
    related. *)
Definition outcome_rel {A} (R : relation A) (m m' : outcome A) : Prop :=
  match m, m' with
  | Ok a, Ok a' => R a a'
  | Raise e, Raise e' => e = e'
  | OutOfFuel, OutOfFuel => True
  | _, _ => False
  end.

(** Two states of the engine that differ in the order of the unplaced ids
    only. *)
Definition engine_equiv (st st' : engine) : Prop :=
  placement_records st = placement_records st' ∧
  unplaced st ≡ₚ unplaced st' ∧
  next_place st = next_place st'.

(** [a] wins its head-to-head comparison with [b]: [wins_a > wins_b]. *)
Definition beats (judge_rankings : list (gmap string nat)) (a b : string) : Prop :=
  (head_to_head judge_rankings a b).2 < (head_to_head judge_rankings a b).1.

End Runs.

(** * Properties *)

(** ** Sorting *)

Section py_sorted_facts.
Context {A : Type} (R : relation A) `{!RelDecision R}.

Lemma sorted_insert_Permutation x l : sorted_insert R x l ≡ₚ x :: l.
Proof.
  induction l as [|y l IH]; simpl; [done|].
  case_decide; [done|]. rewrite IH. apply Permutation_swap.
Qed.

Lemma py_sorted_Permutation l : py_sorted R l ≡ₚ l.
Proof.
  induction l as [|x l IH]; simpl; [done|].
  by rewrite sorted_insert_Permutation, IH.
Qed.

Lemma py_sorted_length l : length (py_sorted R l) = length l.
Proof. by rewrite py_sorted_Permutation. Qed.

Lemma py_sorted_elem_of x l : x ∈ py_sorted R l ↔ x ∈ l.
Proof. by rewrite py_sorted_Permutation. Qed.

Lemma py_sorted_nil_inv l : py_sorted R l = [] → l = [].
Proof.
  intros H. apply Permutation_nil_r. by rewrite <-H, py_sorted_Permutation.
Qed.

Context `{!Total R} `{!Transitive R}.

Lemma sorted_insert_StronglySorted x l :
  StronglySorted R l → StronglySorted R (sorted_insert R x l).
Proof.
  induction 1 as [|y l Hl IH Hy]; simpl.
  { repeat constructor. }
  case_decide as Hxy.
  - constructor; [by constructor|].
    constructor; [done|]. eapply Forall_impl; [exact Hy|].
    intros z Hz. by trans y.
  - constructor; [done|].
    rewrite sorted_insert_Permutation. constructor; [|done].
    by destruct (total R x y).
Qed.

Lemma py_sorted_StronglySorted l : StronglySorted R (py_sorted R l).
Proof.
  induction l; simpl; [constructor|]. by apply sorted_insert_StronglySorted.
Qed.
End py_sorted_facts.

(** ** Arithmetic *)

Lemma py_abs_nonneg x : (0 ≤ py_abs x)%Qc.
Proof.
  unfold py_abs. case_decide as H.
  - apply Qclt_le_weak, Qcopp_le_compat in H.
    by replace (- 0)%Qc with 0%Qc in H by ring.
  - by apply Qcnot_lt_le.
Qed.

Lemma py_abs_square x : (py_abs x ^ 2 = x ^ 2)%Qc.
Proof. unfold py_abs. case_decide; simpl; ring. Qed.

(** ** The scaled median *)

Import Scoring.

Lemma one_plus_square_pos x : (0 < 1 + x ^ 2)%Qc.
Proof.
  apply Qcplus_pos_nonneg; [done|].
  rewrite <-py_abs_square. apply Qcpower_pos, py_abs_nonneg.
Qed.


Lemma py_sum_acc acc l : foldl Qcplus acc l = (acc + py_sum l)%Qc.
Proof.
  unfold py_sum. revert acc. induction l as [|x l IH]; intros acc; simpl.
  - ring.
  - rewrite IH, (IH (0 + x)%Qc). ring.
Qed.

Lemma py_sum_cons x l : py_sum (x :: l) = (x + py_sum l)%Qc.
Proof. unfold py_sum at 1. simpl. rewrite py_sum_acc. ring. Qed.




(** [x ** 2] returns the square or raises [OverflowError]. *)
Lemma py_pow_square_cases x :
  py_pow x 2 = Ok (x ^ 2)%Qc ∨ py_pow x 2 = Raise OverflowError.
Proof. unfold py_pow. cbn zeta. case_decide; eauto. Qed.


Lemma one_plus_square_nonzero x : (1 + x ^ 2)%Qc ≠ 0%Qc.
Proof.
  intros Hz. pose proof (one_plus_square_pos x) as Hp. rewrite Hz in Hp.
  by apply Qclt_not_eq in Hp.
Qed.

(** The loop over the scores returns the two lists or raises
    [OverflowError]. *)
Lemma weigh_cases med l ws wvs :
  (∃ r, weigh med l ws wvs = Ok r) ∨ weigh med l ws wvs = Raise OverflowError.
Proof.
  revert ws wvs. induction l as [|v l IH]; intros ws wvs; cbn [weigh]; [eauto|].
  cbn zeta. destruct (py_pow_square_cases (py_abs (v - med))) as [-> | ->]; [|by right].
  cbn [mbind outcome_bind]. unfold py_truediv.
  rewrite decide_False by apply one_plus_square_nonzero.
  cbn [mbind outcome_bind]. apply IH.
Qed.


Lemma median_total l : l ≠ [] → ∃ m, median l = Ok m.
Proof.
  intros Hl. unfold median.
  pose proof (py_sorted_length Qcle l) as Hlen.
  assert (length l ≠ 0) by (by destruct l).
  set (data := py_sorted Qcle l) in *.
  case_decide; [lia|].
  case_decide as Hodd.
  - destruct (lookup_lt_is_Some_2 data (length data / 2)) as [m Hm].
    { apply Nat.div_lt; lia. }
    exists m. unfold py_index. by rewrite Hm.
  - destruct (lookup_lt_is_Some_2 data (length data / 2 - 1)) as [lo Hlo].
    { pose proof (Nat.div_lt (length data) 2). lia. }
    destruct (lookup_lt_is_Some_2 data (length data / 2)) as [hi Hhi].
    { apply Nat.div_lt; lia. }
    unfold py_index. rewrite Hlo, Hhi. simpl.
    unfold py_truediv. case_decide as H2; [done|]. eauto.
Qed.

Lemma outcome_some_Qc_eq (x y : Qc) : (x == y)%Q → Ok (Some x) = Ok (Some y).
Proof. intros H. by rewrite (Qc_is_canon x y H). Qed.

(** The scaled median returns a value or raises [OverflowError]. *)
Lemma scaled_median_cases scores :
  (∃ a, _scaled_median_from_scores scores = Ok a) ∨
  _scaled_median_from_scores scores = Raise OverflowError.
Proof.
  unfold _scaled_median_from_scores. case_decide as Hne; [eauto|].
  destruct (median_total _ Hne) as [m ->]. cbn [mbind outcome_bind].
  destruct (weigh_cases m (numeric scores) [] []) as [[[ws wvs] ->] | ->]; [|by right].
  cbn [mbind outcome_bind]. case_decide; [eauto|].
  unfold py_truediv. rewrite decide_False by done. left. by eexists.
Qed.


(** C8. The scaled-median aggregate of [5,5,5,5,5] is 5, and for
    [1,2,3,4,100] it is strictly closer to the median 3 than the simple
    average is. It is not the weighted average of every list of available
    scores: on [1e200, 0, 0], whose median is 0 and whose weighted average
    [Σ(v·w) / Σw] is the number [1e200 / (2e400 + 3)], the square of the
    first distance to the median is beyond the range of a double, and
    [_scaled_median_from_scores] raises [OverflowError], where
    [_simple_average] returns a number. *)
Theorem scaled_median_square_overflow :
  (median (numeric huge_scores) = Ok 0%Qc ∧
   spec_weighted_average 0%Qc (numeric huge_scores) =
     (Qc_of_Z (10 ^ 200) / (2 * Qc_of_Z (10 ^ 200) ^ 2 + Qc_of_nat 3))%Qc ∧
   _scaled_median_from_scores huge_scores = Raise OverflowError ∧
   ∃ avg, _simple_average huge_scores = Ok (Some avg)) ∧
  _scaled_median_from_scores (scores_of_ints [5; 5; 5; 5; 5]) = Ok (Some (Qc_of_nat 5)) ∧
  (∃ agg avg,
     median (numeric (scores_of_ints [1; 2; 3; 4; 100])) = Ok (Qc_of_nat 3) ∧
     _scaled_median_from_scores (scores_of_ints [1; 2; 3; 4; 100]) = Ok (Some agg) ∧
     _simple_average (scores_of_ints [1; 2; 3; 4; 100]) = Ok (Some avg) ∧
     (py_abs (agg - Qc_of_nat 3) < py_abs (avg - Qc_of_nat 3))%Qc).
Proof.
  split; [|split].
  - split_and!.
    + by vm_compute.
    + apply Qc_is_canon. by vm_compute.
    + by vm_compute.
    + eexists. by vm_compute.
  - vm_compute. by apply outcome_some_Qc_eq.
  - exists (Q2Qc (58442 # 20703)), (Qc_of_nat 22). split_and!.
    + by vm_compute.
    + vm_compute. by apply outcome_some_Qc_eq.
    + vm_compute. by apply outcome_some_Qc_eq.
    + by vm_compute.
Qed.

(** ** The score normalizer *)

Lemma strip_blank s : Forall (λ c, py_isspace c = true) s → strip s = [].
Proof.
  intros H. unfold strip.
  assert (lstrip s = []) as ->.
  { induction H as [|c s Hc _ IH]; simpl; [done|]. by rewrite Hc. }
  done.
Qed.

(** A textual token never raises, and a blank or unparseable one is absent. *)
Lemma parse_text_total py_float s :
  ∃ r, parse_text py_float s = Ok r ∧
       (Forall (λ c, py_isspace c = true) s → r = None) ∧
       (py_float (replace_char COMMA DOT (remove_char NBSP (remove_char SPACE (strip s)))) = None
          → r = None).
Proof.
  unfold parse_text. case_decide as Hs.
  { exists None. done. }
  destruct (py_float _) as [x|] eqn:Hf.
  - exists (Some x). split; [done|]. split; [|done].
    intros Hb. by apply strip_blank in Hb.
  - by exists None.
Qed.

(** Every token but an [int] is normalized without an exception, and so is
    an [int] that a double holds exactly. *)
Lemma parse_score_other_tokens py_float value :
  (∀ n, value ≠ PyInt n) → ∃ r, _parse_score py_float value = Ok r.
Proof.
  intros Hint. destruct value as [|n|x|s|s]; simpl; eauto.
  - by destruct (Hint n).
  - destruct (parse_text_total py_float s) as (r & ? & _). eauto.
  - destruct (parse_text_total py_float s) as (r & ? & _). eauto.
Qed.

Lemma parse_score_small_int py_float n :
  (Z.abs n < 2 ^ 53)%Z → _parse_score py_float (PyInt n) = Ok (Some (Qc_of_Z n)).
Proof.
  intros Hn. simpl. unfold float_of_int. cbn zeta.
  destruct (decide (Z.abs n = 0%Z)) as [_|Hz]; [by rewrite decide_True by lia|].
  assert (Z.log2 (Z.abs n) < 53)%Z by (apply Z.log2_lt_pow2; lia).
  by rewrite decide_True by lia.
Qed.

(** C9. The normalizer does raise: an [int] token beyond the range of a
    double reaches [float(value)] outside the [try], whose [OverflowError]
    nothing catches; here on the token [10 ** 400]. *)
Theorem parse_score_int_overflow py_float :
  _parse_score py_float (PyInt (10 ^ 400)) = Raise OverflowError.
Proof. by vm_compute. Qed.

(** * The dashboard *)

Import Dashboard.

(** ** The judge count *)

Lemma scan_column_max df col n :
  scan_column df col n = n `max` column_max df col.
Proof.
  unfold scan_column, column_max. revert n.
  induction df as [|r df IH]; intros n; [by destruct n|].
  cbn [foldl omap list_omap]. rewrite IH.
  destruct (scores_list r col) as [scores|]; [|done].
  cbn [fmap list_fmap max_list]. unfold id. case_decide; lia.
Qed.

Lemma has_column_false df col : has_column df col = false → column_max df col = 0.
Proof.
  unfold has_column, column_max. intros H%bool_decide_eq_false.
  rewrite Exists_exists in H.
  assert (Forall (λ r, scores_list r col = None) df) as Hnone.
  { apply Forall_forall. intros r Hr. unfold scores_list.
    destruct (columns r !! col) as [c|] eqn:E; [|done].
    exfalso. apply H. exists r. by rewrite E. }
  clear H. induction Hnone as [|r df Hr _ IH]; [done|].
  cbn [omap list_omap]. by rewrite Hr.
Qed.

Lemma discover_num_judges_spec df cats :
  discover_num_judges df cats 0 =
    default 0 (head (filter (λ n, n ≠ 0)
                       ((λ cat, column_max df (col_judge_scores cat)) <$> cats))).
Proof.
  induction cats as [|cat cats IH]; [done|].
  cbn [discover_num_judges fmap list_fmap]. rewrite filter_cons.
  destruct (has_column df (col_judge_scores cat)) eqn:Hcol.
  - rewrite scan_column_max, Nat.max_0_l.
    destruct (decide (column_max df (col_judge_scores cat) = 0)) as [E|E].
    + rewrite E. by repeat case_decide.
    + by repeat case_decide.
  - apply has_column_false in Hcol. rewrite Hcol.
    by case_decide.
Qed.

(** C6, as amended. When no judges are enumerated, the judge count is the
    largest number of available scores in one competitor's list of the first
    category, in the order BBW, BBM, LF, DF, MI, that has an available score
    at all (0 when none has): the later categories are not looked at. *)
Theorem num_judges_first_scored_category first_word df :
  ∃ judge_rankings judge_names,
    build_judge_rankings_for_subset first_word df [] = Ok (judge_rankings, judge_names) ∧
    length judge_rankings = first_scored_max df ∧
    length judge_names = first_scored_max df.
Proof.
  unfold build_judge_rankings_for_subset, first_scored_max.
  rewrite <-discover_num_judges_spec.
  case_decide as Hdf.
  { subst df. by exists [], []. }
  case_decide as Hn.
  { rewrite Hn. by exists [], []. }
  unfold judge_names_for. case_decide; [done|]. cbn [mbind outcome_bind].
  eexists _, _. split; [done|].
  by rewrite !length_fmap, length_seq.
Qed.

(** C6, as stated, fails: a couple with one score in BBW and two in BBM gets
    one judge, while the maximum over the five categories is two. *)
Lemma num_judges_not_max_over_categories :
  ∃ judge_rankings judge_names,
    build_judge_rankings_for_subset first_word_ascii uneven_frame [] =
      Ok (judge_rankings, judge_names) ∧
    length judge_rankings = 1 ∧ length judge_names = 1 ∧
    spec_num_judges uneven_frame = 2 ∧
    length judge_names ≠ spec_num_judges uneven_frame.
Proof. eexists _, _. split; [by vm_compute|]. by vm_compute. Qed.

(** ** The round combiner *)

(** Closes a decidable goal on closed terms by evaluation. *)
Ltac by_compute := apply (bool_decide_eq_true_1 _); vm_compute; reflexivity.

Lemma row_map_snoc df r :
  row_map (df ++ [r]) = <[str_start_number r := r]> (row_map df).
Proof. unfold row_map. by rewrite foldl_app. Qed.

Lemma row_map_lookup_Some df k r :
  row_map df !! k = Some r → r ∈ df ∧ str_start_number r = k.
Proof.
  induction df as [|r' df IH] using rev_ind; [done|].
  rewrite row_map_snoc. destruct (decide (str_start_number r' = k)) as [<-|Hne].
  - rewrite lookup_insert_eq. intros [= <-]. split; [|done].
    apply elem_of_app. right. left.
  - rewrite lookup_insert_ne by done. intros [??]%IH. split; [|done].
    apply elem_of_app. by left.
Qed.

Lemma row_map_lookup_elem df r :
  NoDup (str_start_number <$> df) → r ∈ df →
  row_map df !! str_start_number r = Some r.
Proof.
  induction df as [|r' df IH] using rev_ind; [by intros _ ?%elem_of_nil|].
  rewrite fmap_app, row_map_snoc. intros [Hnd [Hdisj _]]%NoDup_app Hr.
  apply elem_of_app in Hr as [Hr|Hr%list_elem_of_singleton].
  - rewrite lookup_insert_ne; [by apply IH|].
    intros Heq. apply (Hdisj (str_start_number r)).
    + by apply list_elem_of_fmap_2.
    + rewrite <-Heq. left.
  - subst r'. by rewrite lookup_insert_eq.
Qed.

Lemma combine_row_start_number base other :
  start_number (combine_row base other) = start_number base.
Proof. done. Qed.

Lemma combine_row_frame base other col :
  col ∉ (col_judge_scores <$> categories) →
  columns (combine_row base other) !! col = columns base !! col.
Proof.
  intros Hcol. unfold combine_row, categories in *. cbn [foldl columns fmap list_fmap] in *.
  rewrite !not_elem_of_cons in Hcol. destruct Hcol as (?&?&?&?&?&_).
  by rewrite !lookup_insert_ne by done.
Qed.

Lemma combine_row_scores base other cat :
  cat ∈ categories →
  columns (combine_row base other) !! col_judge_scores cat =
    Some (CScores (combine_scores
                     (default [] (scores_list base (col_judge_scores cat)))
                     (default [] (scores_list other (col_judge_scores cat))))).
Proof.
  intros Hcat. unfold combine_row, categories in *. cbn [foldl columns] in *.
  repeat (apply elem_of_cons in Hcat as [->|Hcat]);
    [..|by apply elem_of_nil in Hcat];
    repeat (first [ by rewrite lookup_insert_eq
                  | rewrite lookup_insert_ne by (by vm_compute) ]).
Qed.

Lemma filter_all {A} (P : A → Prop) `{!∀ x, Decision (P x)} l :
  Forall P l → filter P l = l.
Proof.
  induction 1 as [|x l Hx _ IH]; [done|]. by rewrite filter_cons_True, IH.
Qed.

Lemma filter_none {A} (P : A → Prop) `{!∀ x, Decision (P x)} l :
  Forall (λ x, ¬ P x) l → filter P l = [].
Proof.
  induction 1 as [|x l Hx _ IH]; [done|]. by rewrite filter_cons_False.
Qed.

Section bind_filter.
Context {A : Type} (f : string → list A) (P : A → Prop) `{!∀ x, Decision (P x)}.
Context (k : string).
Hypothesis HP : ∀ k' x, x ∈ f k' → P x ↔ k' = k.

Lemma bind_filter_other keys : k ∉ keys → filter P (keys ≫= f) = [].
Proof.
  induction keys as [|k' keys IH]; [done|].
  intros [Hne Hk]%not_elem_of_cons. cbn [mbind list_bind].
  rewrite filter_app, IH, app_nil_r by done.
  apply filter_none, Forall_forall. intros x Hx HPx.
  apply Hne. symmetry. by apply (HP k' x).
Qed.

Lemma bind_filter_unique keys : NoDup keys → k ∈ keys → filter P (keys ≫= f) = f k.
Proof.
  induction keys as [|k' keys IH]; [by intros _ ?%elem_of_nil|].
  intros [Hk' Hnd]%NoDup_cons Hk. cbn [mbind list_bind]. rewrite filter_app.
  destruct (decide (k' = k)) as [->|Hne].
  - rewrite bind_filter_other, app_nil_r by done.
    apply filter_all, Forall_forall. intros x Hx. by apply (HP k x).
  - apply elem_of_cons in Hk as [->|Hk]; [done|].
    rewrite IH by done. rewrite filter_none; [done|].
    apply Forall_forall. intros x Hx HPx. by apply Hne, (HP k' x).
Qed.
End bind_filter.

Lemma py_sorted_NoDup {A} (R : relation A) `{!RelDecision R} (l : list A) :
  NoDup l → NoDup (py_sorted R l).
Proof. by rewrite py_sorted_Permutation. Qed.

(** C10. For a competitor of both rounds, the combined frame holds exactly
    one record with its id: the record of the first round with the five
    judge-score columns replaced by the merged lists, and every other column
    (the name, the position, the total and the aggregated values among them)
    as the first round has it. *)
Theorem combine_rounds_keeps_first_round df_current df_other base other :
  NoDup (str_start_number <$> df_current) →
  NoDup (str_start_number <$> df_other) →
  base ∈ df_current → other ∈ df_other →
  str_start_number base = str_start_number other →
  ∃ combined,
    filter (λ r, str_start_number r = str_start_number base)
      (combine_rounds_for_majority df_current df_other) = [combined] ∧
    start_number combined = start_number base ∧
    (∀ col, col ∉ (col_judge_scores <$> categories) →
       columns combined !! col = columns base !! col) ∧
    (∀ cat, cat ∈ categories →
       columns combined !! col_judge_scores cat =
         Some (CScores (combine_scores
                          (default [] (scores_list base (col_judge_scores cat)))
                          (default [] (scores_list other (col_judge_scores cat)))))) ∧
    columns combined !! "competitor_names" = columns base !! "competitor_names" ∧
    columns combined !! "position" = columns base !! "position" ∧
    columns combined !! "total" = columns base !! "total" ∧
    (∀ cat, cat ∈ categories →
       columns combined !! (cat +:+ "_aggregated") = columns base !! (cat +:+ "_aggregated")).
Proof.
  intros Hnd1 Hnd2 Hb Ho Hid.
  pose proof (row_map_lookup_elem _ _ Hnd1 Hb) as Hcur.
  pose proof (row_map_lookup_elem _ _ Hnd2 Ho) as Hoth. rewrite <-Hid in Hoth.
  exists (combine_row base other). split_and!.
  - unfold combine_rounds_for_majority.
    case_decide as E1; [subst; by apply elem_of_nil in Hb|].
    case_decide as E2; [subst; by apply elem_of_nil in Ho|].
    rewrite (bind_filter_unique _ _ (str_start_number base)).
    + by rewrite Hcur, Hoth.
    + intros k' x Hx.
      destruct (row_map df_current !! k') as [b|] eqn:Eb;
        destruct (row_map df_other !! k') as [o|] eqn:Eo;
        try (by apply elem_of_nil in Hx);
        apply list_elem_of_singleton in Hx as ->.
      * apply row_map_lookup_Some in Eb as [_ <-].
        unfold str_start_number. rewrite combine_row_start_number.
        split; congruence.
      * apply row_map_lookup_Some in Eb as [_ <-]. split; congruence.
      * apply row_map_lookup_Some in Eo as [_ <-]. split; congruence.
    + apply py_sorted_NoDup, NoDup_elements.
    + apply py_sorted_elem_of, elem_of_elements, elem_of_union. left.
      apply elem_of_dom. by rewrite Hcur.
  - done.
  - apply combine_row_frame.
  - apply combine_row_scores.
  - apply combine_row_frame. by_compute.
  - apply combine_row_frame. by_compute.
  - apply combine_row_frame. by_compute.
  - intros cat Hcat. apply combine_row_frame. unfold categories in Hcat.
    repeat (apply elem_of_cons in Hcat as [->|Hcat]); [..|by apply elem_of_nil in Hcat];
      by_compute.
Qed.

Lemma combine_rounds_keeps_first_round_witness :
  ∃ combined,
    filter (λ r, str_start_number r = "9")
      (combine_rounds_for_majority slow_round fast_round) = [combined] ∧
    start_number combined = Some "9" ∧
    columns combined !! "competitor_names" = Some (CStr "Couple 9").
Proof.
  destruct (combine_rounds_keeps_first_round slow_round fast_round
              (scored_row "9" [("BBW", int_scores [5; 3]); ("MI", int_scores [11; 9])])
              (scored_row "9" [("BBW", [None; Some (Qc_of_nat 6)]);
                               ("MI", int_scores [8; 8; 7])]))
    as (combined & Hfilter & Hstart & _ & _ & Hname & _).
  - by_compute.
  - by_compute.
  - right. left.
  - left.
  - done.
  - exists combined. split; [exact Hfilter|]. split; [exact Hstart|]. exact Hname.
Defined.

(** ** The judge rankings *)

Lemma Qcopp_lt_iff (x y : Qc) : (- x < - y)%Qc ↔ (y < x)%Qc.
Proof.
  rewrite !Qclt_nge. split; intros H Hle; apply H.
  - by apply Qcopp_le_compat.
  - apply Qcopp_le_compat in Hle. by rewrite !Qcopp_involutive in Hle.
Qed.

Lemma Qcopp_inj (x y : Qc) : (- x)%Qc = (- y)%Qc → x = y.
Proof. intros H. by rewrite <-(Qcopp_involutive x), H, Qcopp_involutive. Qed.

Lemma Qc_trichotomy (x y : Qc) : (x < y)%Qc ∨ x = y ∨ (y < x)%Qc.
Proof.
  destruct (Qclt_le_dec x y) as [?|[?|?]%Qcle_lt_or_eq]; auto.
Qed.

(** [totals_le] orders by descending total, then ascending id. *)
Lemma totals_le_iff x y :
  totals_le x y ↔ (y.2 < x.2)%Qc ∨ (x.2 = y.2 ∧ String.le x.1 y.1).
Proof.
  unfold totals_le. rewrite Qcopp_lt_iff. split.
  - intros [?|[?%Qcopp_inj ?]]; auto.
  - intros [?|[-> ?]]; auto.
Qed.

#[local] Instance totals_le_total : Total totals_le.
Proof.
  intros x y. rewrite !totals_le_iff.
  destruct (Qc_trichotomy x.2 y.2) as [?|[?|?]]; [auto| |auto].
  destruct (total String.le x.1 y.1); auto.
Qed.

#[local] Instance totals_le_trans : Transitive totals_le.
Proof.
  intros x y z. rewrite !totals_le_iff.
  intros [Hxy|[Hxy Hxy']] [Hyz|[Hyz Hyz']].
  - left. by trans y.2.
  - left. by rewrite <-Hyz.
  - left. by rewrite Hxy.
  - right. split; [congruence|]. by trans y.1.
Qed.

Lemma totals_le_weak x y : totals_le x y → (y.2 ≤ x.2)%Qc.
Proof.
  rewrite totals_le_iff. intros [?|[-> _]]; [by apply Qclt_le_weak|done].
Qed.

Lemma count_greater_app s l1 l2 :
  count_greater s (l1 ++ l2) = count_greater s l1 + count_greater s l2.
Proof. unfold count_greater. by rewrite filter_app, length_app. Qed.

Lemma count_greater_all s l :
  Forall (λ x, s < x.2)%Qc l → count_greater s l = length l.
Proof. intros H. unfold count_greater. by rewrite filter_all. Qed.

Lemma count_greater_none s l :
  Forall (λ x, x.2 ≤ s)%Qc l → count_greater s l = 0.
Proof.
  intros H. unfold count_greater. rewrite filter_none; [done|].
  eapply Forall_impl; [exact H|]. intros x Hx. by apply Qcle_not_lt.
Qed.

Lemma assign_ranks_other rest pos prev ranking id :
  id ∉ rest.*1 → assign_ranks rest pos prev ranking !! id = ranking !! id.
Proof.
  revert pos prev ranking. induction rest as [|[id0 s0] rest IH];
    intros pos prev ranking Hid; [done|].
  rewrite fmap_cons, not_elem_of_cons in Hid. destruct Hid as [Hne Hid].
  cbn [assign_ranks]. destruct prev as [[ps pr]|]; [case_decide|];
    rewrite IH by done; by rewrite lookup_insert_ne.
Qed.

Lemma desc_snoc_greater pre id0 s0 s :
  desc (pre ++ [(id0, s0)]) → (s < s0)%Qc → Forall (λ x, s < x.2)%Qc pre.
Proof.
  intros Hd Hs. apply StronglySorted_app in Hd as (Hall & _ & _).
  apply Forall_forall. intros x Hx.
  eapply Qclt_le_trans; [exact Hs|]. apply (Hall x (id0, s0)); [done|left].
Qed.

Lemma assign_ranks_spec pre rest prev ranking :
  desc (pre ++ rest) → NoDup (pre ++ rest).*1 →
  match prev with
  | None => pre = []
  | Some (s', r') =>
      ∃ pre' id', pre = pre' ++ [(id', s')] ∧ r' = S (count_greater s' (pre ++ rest))
  end →
  ∀ id s, (id, s) ∈ rest →
    assign_ranks rest (S (length pre)) prev ranking !! id =
      Some (S (count_greater s (pre ++ rest))).
Proof.
  revert pre prev ranking. induction rest as [|[id0 s0] rest IH];
    intros pre prev ranking Hd Hnd Hprev id s Hin; [by apply elem_of_nil in Hin|].
  assert (Hd' := Hd). assert (Hnd' := Hnd).
  rewrite (assoc_L (++) pre [(id0, s0)] rest : pre ++ (id0, s0) :: rest = (pre ++ [(id0, s0)]) ++ rest) in Hd', Hnd'.
  assert (id0 ∉ rest.*1) as Hid0.
  { rewrite fmap_app, fmap_cons in Hnd. apply NoDup_app in Hnd as (_ & _ & Hnd).
    by apply NoDup_cons in Hnd as [? _]. }
  assert (Forall (λ x, x.2 ≤ s0)%Qc rest) as Hrest.
  { apply StronglySorted_app in Hd as (_ & _ & Hd). by apply StronglySorted_cons in Hd as [? _]. }
  (* the rank given to the head *)
  set (r := match prev with
            | Some (ps, pr) => if decide (s0 = ps) then pr else S (length pre)
            | None => S (length pre)
            end).
  assert (r = S (count_greater s0 (pre ++ (id0, s0) :: rest))) as Hr.
  { assert (count_greater s0 ((id0, s0) :: rest) = 0) as Hz.
    { apply count_greater_none. constructor; [done|exact Hrest]. }
    unfold r. destruct prev as [[ps pr]|].
    - destruct Hprev as (pre' & id' & -> & ->). case_decide as Hs; [by subst|].
      rewrite count_greater_app, Hz, Nat.add_0_r. f_equal. symmetry.
      apply count_greater_all.
      assert (s0 < ps)%Qc as Hlt.
      { apply StronglySorted_app in Hd as (Hall & _ & _).
        specialize (Hall (id', ps) (id0, s0)). simpl in Hall.
        destruct (Qcle_lt_or_eq s0 ps) as [?|?]; [|done..].
        apply Hall; [apply elem_of_app; right; left|left]. }
      apply Forall_app. split; [|by repeat constructor].
      apply (desc_snoc_greater pre' id' ps); [|done].
      apply StronglySorted_app in Hd as (_ & Hd & _). done.
    - subst pre. simpl. by rewrite Hz. }
  assert (assign_ranks ((id0, s0) :: rest) (S (length pre)) prev ranking =
          assign_ranks rest (S (length (pre ++ [(id0, s0)])))
            (Some (s0, r)) (<[id0 := r]> ranking)) as Hstep.
  { rewrite length_app, Nat.add_1_r. cbn [assign_ranks]. unfold r.
    destruct prev as [[ps pr]|]; [|done]. case_decide as Hs; [by subst ps|done]. }
  rewrite Hstep.
  apply elem_of_cons in Hin as [[= -> ->]|Hin].
  - rewrite assign_ranks_other by done. by rewrite lookup_insert_eq, Hr.
  - replace (pre ++ (id0, s0) :: rest) with ((pre ++ [(id0, s0)]) ++ rest)
      by (by rewrite <-(assoc_L (++))).
    apply IH; [done..| |done].
    exists pre, id0. split; [done|]. by rewrite <-(assoc_L (++)).
Qed.

Lemma count_greater_Permutation s l1 l2 :
  l1 ≡ₚ l2 → count_greater s l1 = count_greater s l2.
Proof. intros H. unfold count_greater. by rewrite H. Qed.

Lemma count_greater_block_start sorted p id s :
  desc sorted → sorted !! p = Some (id, s) →
  (∀ q x, q < p → sorted !! q = Some x → x.2 ≠ s) →
  count_greater s sorted = p.
Proof.
  intros Hd Hp Hfirst.
  pose proof (lookup_lt_Some _ _ _ Hp) as Hlt.
  rewrite <-(take_drop_middle sorted p (id, s) Hp) in Hd |- *.
  apply StronglySorted_app in Hd as (Hall & _ & Hd).
  apply StronglySorted_cons in Hd as [Hle _].
  rewrite count_greater_app, (count_greater_none s (_ :: _)), Nat.add_0_r.
  2:{ constructor; [done|]. exact Hle. }
  rewrite count_greater_all; [rewrite length_take; lia|].
  apply Forall_forall. intros x Hx.
  destruct (Qcle_lt_or_eq s x.2) as [?|Heq]; [|done|].
  - apply (Hall x (id, s)); [done|left].
  - apply list_elem_of_lookup in Hx as [q Hq].
    pose proof (lookup_lt_Some _ _ _ Hq) as Hq'. rewrite length_take in Hq'.
    rewrite lookup_take_lt in Hq by lia.
    by destruct (Hfirst q x ltac:(lia) Hq).
Qed.

Lemma StronglySorted_weaken {A} (R1 R2 : relation A) l :
  (∀ x y, R1 x y → R2 x y) → StronglySorted R1 l → StronglySorted R2 l.
Proof.
  intros HR. induction 1 as [|x l _ IH Hx]; constructor; [done|].
  eapply Forall_impl; [exact Hx|]. auto.
Qed.

Lemma judge_ranking_lookup df judge_idx id s :
  NoDup (str_start_number <$> df) →
  (id, s) ∈ judge_totals df judge_idx →
  judge_ranking df judge_idx !! id = Some (S (count_greater s (judge_totals df judge_idx))).
Proof.
  intros Hnd Hin. unfold judge_ranking.
  set (totals := judge_totals df judge_idx) in *.
  pose proof (py_sorted_Permutation totals_le totals) as Hperm.
  rewrite <-(count_greater_Permutation s _ _ Hperm).
  apply (assign_ranks_spec [] (py_sorted totals_le totals) None ∅).
  - eapply StronglySorted_weaken; [|apply (py_sorted_StronglySorted totals_le)].
    intros x y. apply totals_le_weak.
  - simpl. rewrite Hperm. unfold totals, judge_totals.
    by rewrite <-list_fmap_compose.
  - done.
  - by apply py_sorted_elem_of.
Qed.

(** C4. The ranking of a judge follows the totals sorted by descending total
    and then by ascending id as a string: a competitor with the highest total
    has rank 1, equal totals share a rank, and a competitor is ranked one
    more than the number of competitors with a strictly higher total, which
    for the first competitor of a new total is its 1-based position in the
    sorted order. *)
Theorem judge_ranking_skip_ranks first_word df judges_list judge_rankings judge_names
    judge_idx ranking :
  NoDup (str_start_number <$> df) →
  build_judge_rankings_for_subset first_word df judges_list =
    Ok (judge_rankings, judge_names) →
  judge_rankings !! judge_idx = Some ranking →
  let totals := judge_totals df judge_idx in
  let sorted := py_sorted totals_le totals in
  sorted ≡ₚ totals ∧
  StronglySorted (λ x y, (y.2 < x.2)%Qc ∨ (x.2 = y.2 ∧ String.le x.1 y.1)) sorted ∧
  (∀ id s, (id, s) ∈ totals → (∀ x, x ∈ totals → (x.2 ≤ s)%Qc) → ranking !! id = Some 1) ∧
  (∀ id1 id2 s, (id1, s) ∈ totals → (id2, s) ∈ totals → ranking !! id1 = ranking !! id2) ∧
  (∀ p id s, sorted !! p = Some (id, s) →
     ranking !! id = Some (S (count_greater s totals)) ∧
     ((∀ q x, q < p → sorted !! q = Some x → x.2 ≠ s) → ranking !! id = Some (S p))).
Proof.
  intros Hnd Hbuild Hrank totals sorted.
  assert (ranking = judge_ranking df judge_idx) as ->.
  { unfold build_judge_rankings_for_subset in Hbuild.
    repeat case_decide; simplify_eq; [done..|].
    destruct (judge_names_for _ _ _); simplify_eq/=.
    apply list_lookup_fmap_Some in Hrank as (j & -> & Hj).
    by apply lookup_seq in Hj as [-> _]. }
  pose proof (py_sorted_Permutation totals_le totals) as Hperm.
  assert (StronglySorted totals_le sorted) as Hsorted
    by apply (py_sorted_StronglySorted totals_le).
  split_and!.
  - done.
  - eapply StronglySorted_weaken; [|exact Hsorted]. intros x y. by rewrite totals_le_iff.
  - intros id s Hin Hmax. rewrite (judge_ranking_lookup _ _ _ s) by done.
    do 2 f_equal. apply count_greater_none, Forall_forall. intros x Hx. by apply Hmax.
  - intros id1 id2 s H1 H2. by rewrite !(judge_ranking_lookup _ _ _ s).
  - intros p id s Hp.
    assert ((id, s) ∈ totals) as Hin.
    { apply (py_sorted_elem_of totals_le). by eapply list_elem_of_lookup_2. }
    split; [by apply judge_ranking_lookup|].
    intros Hfirst. rewrite (judge_ranking_lookup _ _ _ s) by done.
    do 2 f_equal. trans (count_greater s sorted).
    { symmetry. by apply count_greater_Permutation. }
    apply (count_greater_block_start sorted p id); [|done..].
    eapply StronglySorted_weaken; [|exact Hsorted]. intros x y. apply totals_le_weak.
Qed.

Lemma judge_ranking_skip_ranks_witness :
  ∃ judge_rankings judge_names ranking,
    build_judge_rankings_for_subset first_word_ascii tied_frame [] =
      Ok (judge_rankings, judge_names) ∧
    judge_rankings !! 2 = Some ranking ∧
    ranking !! "10" = Some 1 ∧ ranking !! "2" = Some 1 ∧ ranking !! "3" = Some 1 ∧
    ranking !! "4" = Some 4.
Proof.
  exists (judge_ranking tied_frame <$> seq 0 3), (judge_n <$> seq 0 3),
    (judge_ranking tied_frame 2).
  assert (build_judge_rankings_for_subset first_word_ascii tied_frame [] =
            Ok (judge_ranking tied_frame <$> seq 0 3, judge_n <$> seq 0 3)) as Hbuild
    by (vm_compute; reflexivity).
  assert (NoDup (str_start_number <$> tied_frame)) as Hnd by by_compute.
  destruct (judge_ranking_skip_ranks first_word_ascii tied_frame [] _ _ 2 _ Hnd Hbuild eq_refl)
    as (_ & _ & _ & Hsame & Hpos).
  split; [exact Hbuild|]. split; [reflexivity|].
  pose (top := judge_total (scored_row "10" [("BBW", int_scores [5; 3; 4])]) 2).
  pose (low := judge_total (scored_row "4" [("BBW", int_scores [1; 1; 1])]) 2).
  assert (judge_ranking tied_frame 2 !! "10" = Some 1) as H10.
  { apply (Hpos 0 "10" top); [vm_compute; reflexivity|]. intros q x Hq. lia. }
  split; [exact H10|].
  split.
  { rewrite <-H10. apply (Hsame "2" "10" top); by_compute. }
  split.
  { rewrite <-H10. apply (Hsame "3" "10" top); by_compute. }
  apply (Hpos 3 "4" low); [vm_compute; reflexivity|].
  intros q x Hq Hx.
  destruct q as [|[|[|q]]]; [..|lia]; vm_compute in Hx; injection Hx as <-; by_compute.
Defined.

(** ** The tie resolver *)

(** ** Outcomes and folds *)

Lemma bind_Ok {A B} (m : outcome A) (f : A → outcome B) b :
  m ≫= f = Ok b ↔ ∃ a, m = Ok a ∧ f a = Ok b.
Proof.
  destruct m; simpl; split; try (by intros (? & ? & ?)); try done.
  - eauto.
  - by intros (? & [= ->] & ?).
Qed.

Lemma foldlM_app {A B} (f : A → B → outcome A) a l1 l2 :
  foldlM f a (l1 ++ l2) = foldlM f a l1 ≫= λ a', foldlM f a' l2.
Proof.
  revert a. induction l1 as [|b l1 IH]; intros a; simpl; [done|].
  destruct (f a b); simpl; auto.
Qed.

Lemma foldlM_invariant {A B} (f : A → B → outcome A) (P : A → Prop) (Q : B → Prop) a l :
  (∀ a b, P a → Q b → ∃ a', f a b = Ok a' ∧ P a') →
  P a → Forall Q l → ∃ a', foldlM f a l = Ok a' ∧ P a'.
Proof.
  intros Hf Ha Hl. revert a Ha. induction Hl as [|b l Hb _ IH]; intros a Ha; simpl.
  - eauto.
  - destruct (Hf a b Ha Hb) as (a' & -> & Ha'). simpl. by apply IH.
Qed.

(** ** Removing from a list *)

Lemma remove_first_Some x l l' : remove_first x l = Some l' → l ≡ₚ x :: l'.
Proof.
  revert l'. induction l as [|y l IH]; intros l'; simpl; [done|].
  case_decide as Hxy.
  - intros [= <-]. by subst.
  - destruct (remove_first x l) as [l''|]; simpl; [|done].
    intros [= <-]. rewrite (IH l'' eq_refl). apply Permutation_swap.
Qed.

Lemma remove_first_elem_of x l : x ∈ l → is_Some (remove_first x l).
Proof.
  induction 1 as [|y z l Hx IH]; simpl.
  - case_decide; [eauto|done].
  - case_decide; [eauto|]. destruct IH as [l' ->]. simpl. eauto.
Qed.

Lemma discard_elem_of x l : x ∈ l → l ≡ₚ x :: discard l x.
Proof.
  intros [l' Hl']%remove_first_elem_of. unfold discard. rewrite Hl'. simpl.
  by apply remove_first_Some.
Qed.

Lemma discard_all l placed :
  placed ⊆+ l → foldl discard l placed ++ placed ≡ₚ l.
Proof.
  revert l. induction placed as [|x placed IH]; intros l Hsub; simpl.
  - by rewrite app_nil_r.
  - apply submseteq_cons_l in Hsub as (l' & Hl & Hsub).
    assert (x ∈ l) as Hx by (rewrite Hl; left).
    pose proof (discard_elem_of x l Hx) as Hd.
    assert (placed ⊆+ discard l x) as Hsub'.
    { assert (x :: l' ≡ₚ x :: discard l x) as Hd' by (by rewrite <-Hl).
      apply (inj (x ::.)) in Hd'. by rewrite <-Hd'. }
    rewrite <-Permutation_middle, (IH _ Hsub'). by symmetry.
Qed.

(** ** The scorecard of the tie resolver *)

Lemma dom_foldl_insert {V} (v : V) (l : list string) (m : gmap string V) :
  dom (foldl (λ m c, <[c := v]> m) m l) = list_to_set l ∪ dom m.
Proof.
  revert m. induction l as [|c l IH]; intros m; simpl.
  { by rewrite (left_id_L ∅ (∪)). }
  by rewrite IH, dom_insert_L, (assoc_L (∪)), (comm_L (∪) _ {[c]}).
Qed.

Lemma foldl_insert_lookup {V} (v : V) (l : list string) (m : gmap string V) c w :
  foldl (λ m c, <[c := v]> m) m l !! c = Some w → w = v ∨ m !! c = Some w.
Proof.
  revert m. induction l as [|c' l IH]; intros m; simpl; [auto|].
  intros [->|H]%IH; [auto|].
  destruct (decide (c' = c)) as [->|?].
  - rewrite lookup_insert_eq in H. left. congruence.
  - rewrite lookup_insert_ne in H by done. auto.
Qed.

Lemma init_scorecard_covers candidates :
  covers (list_to_set candidates) (init_scorecard candidates).
Proof. split; simpl; by rewrite dom_foldl_insert, dom_empty_L, (right_id_L ∅ (∪)). Qed.

Lemma init_scorecard_zero candidates c s :
  pairwise_scores (init_scorecard candidates) !! c = Some s → s = 0.
Proof. simpl. by intros [->|?]%foldl_insert_lookup. Qed.

Lemma dict_get_Some {V} (m : gmap string V) k v :
  m !! k = Some v → dict_get m k = Ok v.
Proof. intros H. unfold dict_get. by rewrite H. Qed.

Lemma dict_get_dom {V} (m : gmap string V) k X :
  dom m = X → k ∈ X → ∃ v, m !! k = Some v ∧ dict_get m k = Ok v.
Proof.
  intros <- [v Hv]%elem_of_dom. exists v. unfold dict_get. by rewrite Hv.
Qed.

Lemma dom_insert_covered {V} (m : gmap string V) k v X :
  dom m = X → k ∈ X → dom (<[k := v]> m) = X.
Proof.
  intros <- Hk. rewrite dom_insert_L. apply subseteq_union_1_L.
  by apply singleton_subseteq_l.
Qed.

Lemma pairwise_compare_ok X jr a b card :
  a ∈ X → b ∈ X → covers X card →
  ∃ card', pairwise_compare jr a card b = Ok card' ∧ covers X card' ∧
    ((head_to_head jr a b).1 = (head_to_head jr a b).2 →
     pairwise_scores card' = pairwise_scores card).
Proof.
  intros Ha Hb [Hs Hn]. unfold pairwise_compare.
  set (wins := head_to_head jr a b).
  destruct (dict_get_dom _ a X Hs Ha) as (sa & _ & Hsa).
  destruct (dict_get_dom _ b X Hs Hb) as (sb & _ & Hsb).
  destruct (dict_get_dom _ a X Hn Ha) as (na & _ & Hna).
  assert (∃ scores',
    (if decide (wins.2 < wins.1)
     then s ← dict_get (pairwise_scores card) a; Ok (<[a := s + 1]> (pairwise_scores card))
     else if decide (wins.1 < wins.2)
          then s ← dict_get (pairwise_scores card) b; Ok (<[b := s + 1]> (pairwise_scores card))
          else Ok (pairwise_scores card)) = Ok scores' ∧
    dom scores' = X ∧ (wins.1 = wins.2 → scores' = pairwise_scores card))
    as (scores' & -> & Hs' & Heq).
  { repeat case_decide.
    - rewrite Hsa. simpl. eexists. split; [done|]. split; [by apply dom_insert_covered|lia].
    - rewrite Hsb. simpl. eexists. split; [done|]. split; [by apply dom_insert_covered|lia].
    - eauto. }
  cbn [mbind outcome_bind]. rewrite Hna. cbn [mbind outcome_bind].
  set (notes1 := <[a := _]> (pairwise_notes card)).
  assert (dom notes1 = X) as Hn1 by (by apply dom_insert_covered).
  destruct (dict_get_dom _ b X Hn1 Hb) as (nb & _ & ->). cbn [mbind outcome_bind].
  eexists. split; [done|]. split; [|done].
  split; simpl; [done|by apply dom_insert_covered].
Qed.

Lemma pairwise_inner_ok X jr a rest card :
  a ∈ X → (∀ b, b ∈ rest → b ∈ X) → covers X card →
  ∃ card', foldlM (pairwise_compare jr a) card rest = Ok card' ∧ covers X card' ∧
    ((∀ b, b ∈ rest → (head_to_head jr a b).1 = (head_to_head jr a b).2) →
     pairwise_scores card' = pairwise_scores card).
Proof.
  intros Ha. revert card. induction rest as [|b rest IH]; intros card Hrest Hcov; simpl.
  { eauto. }
  destruct (pairwise_compare_ok X jr a b card) as (card1 & -> & Hcov1 & Heq1);
    [done|apply Hrest; left|done|].
  simpl. destruct (IH card1) as (card' & -> & Hcov' & Heq'); [|done|].
  { intros b' Hb'. apply Hrest. by right. }
  eexists. split; [done|]. split; [done|].
  intros Hties. rewrite Heq', Heq1; [done|apply Hties; left|].
  intros b' Hb'. apply Hties. by right.
Qed.

Lemma pairwise_loop_ok X jr candidates card :
  (∀ c, c ∈ candidates → c ∈ X) → covers X card →
  ∃ card', pairwise_loop jr candidates card = Ok card' ∧ covers X card' ∧
    ((∀ a b, a ∈ candidates → b ∈ candidates →
        (head_to_head jr a b).1 = (head_to_head jr a b).2) →
     pairwise_scores card' = pairwise_scores card).
Proof.
  revert card. induction candidates as [|a rest IH]; intros card Hsub Hcov; simpl.
  { eauto. }
  destruct (pairwise_inner_ok X jr a rest card) as (card1 & -> & Hcov1 & Heq1);
    [apply Hsub; left| |done|].
  { intros b Hb. apply Hsub. by right. }
  simpl. destruct (IH card1) as (card' & -> & Hcov' & Heq'); [|done|].
  { intros b Hb. apply Hsub. by right. }
  eexists. split; [done|]. split; [done|].
  intros Hties. rewrite Heq', Heq1; [done| |].
  - intros b Hb. apply Hties; [left|by right].
  - intros a' b' Ha' Hb'. apply Hties; by right.
Qed.

Lemma record_notes_ok X card cs info :
  covers X card → (∀ c, c ∈ cs → c ∈ X) → ∃ info', record_notes card cs info = Ok info'.
Proof.
  intros [_ Hn] Hsub. unfold record_notes.
  destruct (foldlM_invariant
    (λ info c, notes ← dict_get (pairwise_notes card) c; Ok (<[c := Pairwise notes]> info))
    (λ _, True) (λ c, c ∈ X) info cs) as (info' & ? & _); [|done| |by eauto].
  - intros i c _ Hc. destruct (dict_get_dom _ c X Hn Hc) as (n & _ & ->). simpl. eauto.
  - by apply Forall_forall.
Qed.

Lemma default_notes_ok X card cs info :
  covers X card → (∀ c, c ∈ cs → c ∈ X) → ∃ info', default_notes card cs info = Ok info'.
Proof.
  intros [_ Hn] Hsub. unfold default_notes.
  destruct (foldlM_invariant
    (λ info c, notes ← dict_get (pairwise_notes card) c;
               Ok (match info !! c with
                   | Some _ => info
                   | None => <[c := Pairwise notes]> info
                   end))
    (λ _, True) (λ c, c ∈ X) info cs) as (info' & ? & _); [|done| |by eauto].
  - intros i c _ Hc. destruct (dict_get_dom _ c X Hn Hc) as (n & _ & ->). simpl. eauto.
  - by apply Forall_forall.
Qed.

Lemma current_scores_ok X card remaining :
  covers X card → (∀ c, c ∈ remaining → c ∈ X) →
  ∃ m, current_scores_of card remaining = Ok m ∧
       ∀ c, m !! c = if decide (c ∈ remaining) then pairwise_scores card !! c else None.
Proof.
  intros [Hs _] Hsub. unfold current_scores_of.
  enough (∀ m0 : gmap string nat, ∃ m,
    foldlM (λ m c, s ← dict_get (pairwise_scores card) c; Ok (<[c := s]> m)) m0 remaining
      = Ok m ∧
    ∀ c, m !! c = if decide (c ∈ remaining) then pairwise_scores card !! c else m0 !! c)
    as H.
  { destruct (H ∅) as (m & ? & Hm). exists m. split; [done|].
    intros c. by rewrite Hm, lookup_empty. }
  induction remaining as [|c rest IH]; intros m0; cbn [foldlM].
  { exists m0. split; [done|]. intros c.
    destruct (decide (c ∈ [])) as [Hc|_]; [by apply elem_of_nil in Hc|done]. }
  destruct (dict_get_dom _ c X Hs) as (s & Hsc & ->); [apply Hsub; left|].
  cbn [mbind outcome_bind].
  assert (∀ c', c' ∈ rest → c' ∈ X) as Hsub' by (intros c' Hc'; apply Hsub; by right).
  destruct (IH Hsub' (<[c := s]> m0)) as (m & -> & Hm).
  exists m. split; [done|]. intros c'. rewrite Hm.
  destruct (decide (c' ∈ rest)) as [Hin|Hnin].
  - rewrite decide_True; [done|by right].
  - destruct (decide (c' = c)) as [->|Hne].
    + rewrite lookup_insert_eq, decide_True; [done|left].
    + rewrite lookup_insert_ne by done. rewrite decide_False; [done|].
      by intros [?|?]%elem_of_cons.
Qed.

Lemma py_max_values (m : gmap string nat) :
  m ≠ ∅ →
  ∃ mx, py_max (snd <$> map_to_list m) = Ok mx ∧
        (∃ c, m !! c = Some mx) ∧ (∀ c s, m !! c = Some s → s ≤ mx).
Proof.
  intros Hm. unfold py_max.
  assert (snd <$> map_to_list m ≠ []) as Hne.
  { intros H%fmap_nil_inv. by apply map_to_list_empty_iff in H. }
  case_decide; [done|]. eexists. split; [done|]. split.
  - pose proof (max_list_elem_of _ Hne) as Hin.
    apply list_elem_of_fmap in Hin as ([c s] & Heq & Hin). simpl in Heq.
    exists c. rewrite Heq. by apply elem_of_map_to_list.
  - intros c s Hcs. apply max_list_elem_of_le.
    apply list_elem_of_fmap. exists (c, s). split; [done|]. by apply elem_of_map_to_list.
Qed.

Lemma current_top_ok (m : gmap string nat) mx remaining :
  (∀ c, c ∈ remaining → is_Some (m !! c)) →
  current_top_of m mx remaining = Ok (filter (λ c, m !! c = Some mx) remaining).
Proof.
  intros Hsub. unfold current_top_of.
  enough (∀ top,
    foldlM (λ top c, s ← dict_get m c; Ok (if decide (s = mx) then top ++ [c] else top))
      top remaining = Ok (top ++ filter (λ c, m !! c = Some mx) remaining))
    as H by apply (H []).
  induction remaining as [|c rest IH]; intros top; cbn [foldlM].
  { by rewrite filter_nil, app_nil_r. }
  destruct (Hsub c) as [s Hs]; [left|]. rewrite (dict_get_Some _ _ _ Hs).
  cbn [mbind outcome_bind].
  rewrite IH by (intros c' Hc'; apply Hsub; by right).
  destruct (decide (s = mx)) as [->|Hne].
  - rewrite filter_cons_True by done. by rewrite <-(assoc_L (++)).
  - rewrite filter_cons_False; [done|]. rewrite Hs. congruence.
Qed.

(** ** The tie resolver returns a partition of its candidates *)

Lemma filter_length_lt {A} (P : A → Prop) `{!∀ x, Decision (P x)} (l : list A) :
  length (filter P l) ≠ length l → length (filter P l) < length l.
Proof. pose proof (length_filter P l). lia. Qed.

Lemma filter_submseteq {A} (P : A → Prop) `{!∀ x, Decision (P x)} (l : list A) :
  filter P l ⊆+ l.
Proof. apply sublist_submseteq, sublist_filter. Qed.

Section resolve_loop.
Context (X : gset string) (rec : list string → outcome groups_info) (card : scorecard).
Context (n : nat).
Hypothesis Hcov : covers X card.
Hypothesis Hrec : ∀ top, top ≠ [] → length top < n → partitions top (rec top).

(** One pass of the loop: the scores, their maximum and the top candidates. *)
Lemma resolve_loop_head remaining :
  remaining ≠ [] → (∀ c, c ∈ remaining → c ∈ X) →
  ∃ m mx, current_scores_of card remaining = Ok m ∧
    py_max (snd <$> map_to_list m) = Ok mx ∧
    current_top_of m mx remaining = Ok (filter (λ c, m !! c = Some mx) remaining) ∧
    filter (λ c, m !! c = Some mx) remaining ≠ [] ∧
    (∀ c, c ∈ remaining → m !! c = pairwise_scores card !! c) ∧
    (∀ c s, m !! c = Some s → s ≤ mx).
Proof.
  intros Hne Hsub.
  destruct (current_scores_ok X card remaining Hcov Hsub) as (m & Hm & Hlook).
  assert (∀ c, c ∈ remaining → m !! c = pairwise_scores card !! c) as Hin.
  { intros c Hc. by rewrite Hlook, decide_True. }
  assert (∀ c, c ∈ remaining → is_Some (m !! c)) as Hsome.
  { intros c Hc. rewrite (Hin c Hc). apply elem_of_dom.
    destruct Hcov as [-> _]. by apply Hsub. }
  assert (m ≠ ∅) as Hm0.
  { destruct remaining as [|c ?]; [done|]. destruct (Hsome c) as [s Hs]; [left|].
    intros ->. by rewrite lookup_empty in Hs. }
  destruct (py_max_values m Hm0) as (mx & Hmx & [c Hc] & Hle).
  exists m, mx. split_and!; [done|done|by apply current_top_ok| |done|done].
  intros Hnil. pose proof (filter_nil_not_elem_of _ _ c Hnil Hc) as Hnotin.
  apply Hnotin. rewrite Hlook in Hc. by case_decide.
Qed.

Lemma resolve_loop_ok fuel remaining result_groups info :
  (∀ c, c ∈ remaining → c ∈ X) → length remaining ≤ fuel → length remaining ≤ n →
  ∃ groups info',
    resolve_loop rec card fuel remaining result_groups info =
      Ok (result_groups ++ groups, info') ∧
    concat groups ≡ₚ remaining ∧ Forall (λ g, g ≠ []) groups.
Proof.
  revert remaining result_groups info.
  induction fuel as [|fuel IH]; intros remaining result_groups info Hsub Hfuel Hn.
  { destruct remaining; [|simpl in Hfuel; lia].
    exists [], info. simpl. by rewrite app_nil_r. }
  cbn [resolve_loop]. case_decide as Hne.
  { subst. exists [], info. by rewrite app_nil_r. }
  destruct (resolve_loop_head remaining Hne Hsub)
    as (m & mx & Hm & Hmx & Htopeq & Htop & Hin & _).
  rewrite Hm. cbn [mbind outcome_bind]. rewrite Hmx. cbn [mbind outcome_bind].
  rewrite Htopeq. cbn [mbind outcome_bind]. clear Hm Hmx Htopeq.
  set (top := filter (λ c, m !! c = Some mx) remaining) in *.
  assert (∀ c, c ∈ top → c ∈ remaining) as Htop_in.
  { intros c Hc. by apply list_elem_of_filter in Hc as [_ ?]. }
  case_decide as Hall.
  { destruct (record_notes_ok X card remaining info Hcov Hsub) as (info' & ->).
    cbn [mbind outcome_bind]. exists [remaining], info'.
    split; [done|]. split; [simpl; by rewrite app_nil_r|by constructor]. }
  apply filter_length_lt in Hall. fold top in Hall.
  case_decide as Hone.
  - destruct top as [|winner [|??]] eqn:Etop; simplify_eq/=.
    assert (winner ∈ remaining) as Hw by (apply Htop_in; left).
    destruct (dict_get_dom _ winner X (proj2 Hcov) (Hsub _ Hw)) as (notes & _ & ->).
    cbn [mbind outcome_bind].
    destruct (remove_first_elem_of winner remaining Hw) as [remaining' Hrem].
    rewrite Hrem. cbn [of_option mbind outcome_bind].
    apply remove_first_Some in Hrem.
    assert (length remaining = S (length remaining')) as Hlen by (by rewrite Hrem).
    destruct (IH remaining' (result_groups ++ [[winner]]) (<[winner := Pairwise notes]> info))
      as (groups & info' & -> & Hperm & Hgroups); [|lia|lia|].
    { intros c Hc. apply Hsub. rewrite Hrem. by right. }
    exists ([winner] :: groups), info'. rewrite <-(assoc_L (++)).
    split; [done|]. split; [simpl; by rewrite Hperm, Hrem|by constructor].
  - assert (1 < length top) as Hlen.
    { destruct top as [|? [|??]]; simpl in *; [done|lia|lia]. }
    destruct (Hrec top Htop ltac:(lia)) as (sub_groups & sub_info & -> & Hsubperm & Hsubne).
    cbn [mbind outcome_bind].
    assert (concat sub_groups ⊆+ remaining) as Hms.
    { rewrite Hsubperm. apply filter_submseteq. }
    pose proof (discard_all _ _ Hms) as Hdisc.
    set (remaining' := foldl discard remaining (concat sub_groups)) in *.
    assert (length remaining' + length top = length remaining) as Hlen'.
    { rewrite <-Hdisc, length_app, Hsubperm. done. }
    destruct (IH remaining' (result_groups ++ sub_groups) (sub_info ∪ info))
      as (groups & info' & -> & Hperm & Hgroups); [|lia|lia|].
    { intros c Hc. apply Hsub. rewrite <-Hdisc. apply elem_of_app. by left. }
    exists (sub_groups ++ groups), info'. rewrite <-(assoc_L (++)).
    split; [done|]. split.
    + rewrite concat_app, Hperm. by rewrite (comm (++)).
    + apply Forall_app. split; [by apply Hsubne|done].
Qed.

(** When all the remaining candidates hold the same score, the loop ends
    with them in one group. *)
Lemma resolve_loop_all_top fuel remaining result_groups info v :
  remaining ≠ [] → (∀ c, c ∈ remaining → c ∈ X) →
  (∀ c, c ∈ remaining → pairwise_scores card !! c = Some v) →
  ∃ info', resolve_loop rec card (S fuel) remaining result_groups info =
             Ok (result_groups ++ [remaining], info').
Proof.
  intros Hne Hsub Hsame. cbn [resolve_loop]. case_decide; [done|].
  destruct (resolve_loop_head remaining Hne Hsub)
    as (m & mx & Hm & Hmx & Htopeq & Htop & Hin & Hle).
  rewrite Hm. cbn [mbind outcome_bind]. rewrite Hmx. cbn [mbind outcome_bind].
  rewrite Htopeq. cbn [mbind outcome_bind]. clear Hm Hmx Htopeq.
  assert (filter (λ c, m !! c = Some mx) remaining = remaining) as Hall.
  { apply filter_all, Forall_forall. intros c Hc.
    rewrite (Hin c Hc), (Hsame c Hc). f_equal.
    destruct (filter (λ c, m !! c = Some mx) remaining) as [|c' ?] eqn:E; [done|].
    assert (c' ∈ filter (λ c, m !! c = Some mx) remaining) as Hc' by (rewrite E; left).
    apply list_elem_of_filter in Hc' as [Hmx Hc'].
    rewrite (Hin c' Hc'), (Hsame c' Hc') in Hmx. congruence. }
  rewrite Hall. case_decide; [|done].
  destruct (record_notes_ok X card remaining info Hcov Hsub) as (info' & ->).
  cbn [mbind outcome_bind]. eauto.
Qed.
End resolve_loop.

Lemma resolve_ties_rec_many fuel candidates jr :
  2 < length candidates →
  resolve_ties_rec (S fuel) candidates jr =
    resolve_many (λ top, resolve_ties_rec fuel top jr) candidates jr.
Proof.
  intros Hlen. destruct candidates as [|a [|b [|c rest]]]; simpl in Hlen; try lia.
  cbn [resolve_ties_rec]. rewrite decide_False by (simpl; lia). done.
Qed.

Lemma resolve_many_ok rec candidates jr :
  candidates ≠ [] →
  (∀ top, top ≠ [] → length top < length candidates → partitions top (rec top)) →
  partitions candidates (resolve_many rec candidates jr).
Proof.
  intros Hne Hrec. unfold resolve_many.
  pose proof (init_scorecard_covers candidates) as Hcov0.
  assert (∀ c, c ∈ candidates → c ∈ (list_to_set candidates : gset string)) as Hsub.
  { intros c Hc. by apply elem_of_list_to_set. }
  destruct (pairwise_loop_ok _ jr candidates _ Hsub Hcov0) as (card & -> & Hcov & _).
  cbn [mbind outcome_bind].
  assert (pairwise_scores card ≠ ∅) as Hm0.
  { destruct candidates as [|c ?]; [done|]. intros Hempty.
    destruct Hcov as [Hdom _]. rewrite Hempty, dom_empty_L in Hdom.
    assert (c ∈ (∅ : gset string)) as Hc by (rewrite Hdom; apply Hsub; left).
    by apply not_elem_of_empty in Hc. }
  destruct (py_max_values _ Hm0) as (mx & -> & _). cbn [mbind outcome_bind].
  case_decide.
  - destruct (record_notes_ok _ card candidates ∅ Hcov Hsub) as (info & ->).
    cbn [mbind outcome_bind]. exists [candidates], info.
    split; [done|]. split; [simpl; by rewrite app_nil_r|]. intros _. by constructor.
  - destruct (resolve_loop_ok _ rec card (length candidates) Hcov Hrec
                (length candidates) candidates [] ∅ Hsub)
      as (groups & info & -> & Hperm & Hgroups); [done..|].
    cbn [mbind outcome_bind app].
    destruct (default_notes_ok _ card candidates info Hcov Hsub) as (info' & ->).
    cbn [mbind outcome_bind]. by exists groups, info'.
Qed.

Lemma resolve_ties_rec_ok jr fuel candidates :
  length candidates < fuel → partitions candidates (resolve_ties_rec fuel candidates jr).
Proof.
  revert candidates. induction fuel as [|fuel IH]; intros candidates Hlen; [lia|].
  destruct (decide (2 < length candidates)) as [Hmany|Hfew].
  { rewrite resolve_ties_rec_many by done. apply resolve_many_ok.
    - intros ->. simpl in Hmany. lia.
    - intros top _ Htop. apply IH. lia. }
  destruct candidates as [|a [|b [|c rest]]]; [..|simpl in Hfew; lia].
  - exists [[]], ∅. by split.
  - exists [[a]], ∅. split; [done|]. split; [done|]. intros _. by constructor.
  - cbn [resolve_ties_rec]. rewrite decide_False by (simpl; lia).
    repeat case_decide; eexists _, _; (split; [done|]);
      (split; [|intros _; repeat (constructor; [done|]); constructor]);
      simpl; [done|apply Permutation_swap|done].
Qed.

Lemma resolve_ties_ok candidates jr jn : partitions candidates (resolve_ties candidates jr jn).
Proof. apply resolve_ties_rec_ok. lia. Qed.

(** ** Fully split candidates stay together *)

Lemma resolve_many_all_split rec candidates jr :
  candidates ≠ [] → all_split jr candidates →
  ∃ info, resolve_many rec candidates jr = Ok ([candidates], info).
Proof.
  intros Hne Hsplit. unfold resolve_many.
  pose proof (init_scorecard_covers candidates) as Hcov0.
  assert (∀ c, c ∈ candidates → c ∈ (list_to_set candidates : gset string)) as Hsub.
  { intros c Hc. by apply elem_of_list_to_set. }
  destruct (pairwise_loop_ok _ jr candidates _ Hsub Hcov0) as (card & -> & Hcov & Hsame).
  specialize (Hsame Hsplit). cbn [mbind outcome_bind].
  assert (∀ c, c ∈ candidates → pairwise_scores card !! c = Some 0) as Hzero.
  { intros c Hc. destruct (dict_get_dom _ c _ (proj1 Hcov) (Hsub c Hc)) as (s & Hs & _).
    rewrite Hs. f_equal. rewrite Hsame in Hs. by apply init_scorecard_zero in Hs. }
  assert (pairwise_scores card ≠ ∅) as Hm0.
  { destruct candidates as [|c ?]; [done|]. intros Hempty.
    specialize (Hzero c ltac:(left)). by rewrite Hempty, lookup_empty in Hzero. }
  destruct (py_max_values _ Hm0) as (mx & -> & _). cbn [mbind outcome_bind].
  case_decide.
  - destruct (record_notes_ok _ card candidates ∅ Hcov Hsub) as (info & ->).
    cbn [mbind outcome_bind]. eauto.
  - destruct candidates as [|c rest] eqn:E; [done|]. rewrite <-E in *.
    replace (length candidates) with (S (length rest)) by (by rewrite E).
    destruct (resolve_loop_all_top _ rec card Hcov (length rest) candidates [] ∅ 0
                Hne Hsub Hzero) as (info & ->).
    cbn [mbind outcome_bind app].
    destruct (default_notes_ok _ card candidates info Hcov Hsub) as (info' & ->).
    cbn [mbind outcome_bind]. eauto.
Qed.

Lemma resolve_ties_all_split candidates jr jn :
  all_split jr candidates → ∃ info, resolve_ties candidates jr jn = Ok ([candidates], info).
Proof.
  intros Hsplit. unfold resolve_ties.
  destruct (decide (2 < length candidates)) as [Hmany|Hfew].
  { rewrite resolve_ties_rec_many by done. apply resolve_many_all_split; [|done].
    intros ->. simpl in Hmany. lia. }
  destruct candidates as [|a [|b [|c rest]]]; [..|simpl in Hfew; lia].
  - by exists ∅.
  - by exists ∅.
  - cbn [resolve_ties_rec length]. rewrite decide_False by lia.
    specialize (Hsplit a b ltac:(left) ltac:(right; left)).
    rewrite !decide_False by lia. eauto.
Qed.

(** ** The placement engine *)

Lemma placed_ids_app l1 l2 : placed_ids (l1 ++ l2) = placed_ids l1 ++ placed_ids l2.
Proof. unfold placed_ids. by rewrite fmap_app, concat_app. Qed.

Lemma place_chain_app n l1 l2 :
  place_chain n (l1 ++ l2) ↔
  place_chain n l1 ∧ place_chain (n + length (placed_ids l1)) l2.
Proof.
  revert n. induction l1 as [|r l1 IH]; intros n; simpl.
  - rewrite Nat.add_0_r. tauto.
  - rewrite IH. unfold placed_ids. simpl. rewrite length_app, Nat.add_assoc. tauto.
Qed.

Lemma place_chain_lookup n recs :
  place_chain n recs →
  (∀ r, recs !! 0 = Some r → place r = n) ∧
  (∀ i r r', recs !! i = Some r → recs !! S i = Some r' →
     place r' = place r + length (couples r)).
Proof.
  revert n. induction recs as [|r0 recs IH]; intros n; simpl; [done|].
  intros [Hn Hchain]. destruct (IH _ Hchain) as [Hfirst Hnext]. split.
  - by intros r [= <-].
  - intros [|i] r r'; simpl.
    + intros [= <-] Hr'. rewrite (Hfirst r' Hr'). by rewrite Hn.
    + apply Hnext.
Qed.

Lemma advances_refl st : advances st st [].
Proof.
  exists []. rewrite !app_nil_r, Nat.add_0_r. done.
Qed.

Lemma advances_trans st st1 st2 p1 p2 :
  advances st st1 p1 → advances st1 st2 p2 → advances st st2 (p1 ++ p2).
Proof.
  intros (new1 & Hr1 & Hp1 & Hu1 & Hc1 & Hn1) (new2 & Hr2 & Hp2 & Hu2 & Hc2 & Hn2).
  exists (new1 ++ new2). split_and!.
  - by rewrite Hr2, Hr1, (assoc_L (++)).
  - by rewrite placed_ids_app, Hp1, Hp2.
  - rewrite <-Hu1, <-Hu2. rewrite <-!(assoc_L (++)). f_equiv. apply (comm (++)).
  - apply place_chain_app. split; [done|]. by rewrite Hp1, <-Hn1.
  - rewrite Hn2, Hn1, length_app. lia.
Qed.

Lemma advances_Permutation st st' p1 p2 : p1 ≡ₚ p2 → advances st st' p1 → advances st st' p2.
Proof.
  intros Hp (new & ? & ? & ? & ? & ?). exists new. by rewrite <-Hp.
Qed.

Lemma advances_length st st' placed :
  advances st st' placed → length (unplaced st') + length placed = length (unplaced st).
Proof. intros (new & _ & _ & Hu & _). by rewrite <-Hu, length_app. Qed.

Lemma place_group_ok summary_map info st group :
  group ≠ [] → group ⊆+ unplaced st →
  ∃ st', place_group summary_map info st group = Ok st' ∧ advances st st' group.
Proof.
  intros Hne Hsub. unfold place_group.
  destruct group as [|first rest] eqn:E; [done|]. rewrite <-E in *.
  replace (py_index group 0) with (Ok first : outcome string) by (by rewrite E).
  cbn [mbind outcome_bind]. eexists. split; [done|].
  eexists [_]. cbn [placement_records unplaced next_place].
  split_and!; [done| | |done|done].
  - unfold placed_ids. simpl. by rewrite app_nil_r.
  - by apply discard_all.
Qed.

Lemma place_groups_ok summary_map info groups st :
  Forall (λ g, g ≠ []) groups → concat groups ⊆+ unplaced st →
  ∃ st', foldlM (place_group summary_map info) st groups = Ok st' ∧
         advances st st' (concat groups).
Proof.
  intros Hne. revert st. induction Hne as [|g groups Hg _ IH]; intros st Hsub; simpl.
  { eexists. split; [done|]. apply advances_refl. }
  destruct (place_group_ok summary_map info st g Hg) as (st1 & -> & Hadv1).
  { etrans; [|exact Hsub]. by apply submseteq_inserts_r. }
  cbn [mbind outcome_bind].
  destruct (IH st1) as (st' & -> & Hadv).
  { destruct Hadv1 as (_ & _ & _ & Hu & _).
    apply (submseteq_app_inv_l _ _ g). rewrite (comm (++) g (unplaced st1)).
    by rewrite Hu. }
  eexists. split; [done|]. by eapply advances_trans.
Qed.

Lemma place_tie_group_ok jr jn summary_map st group :
  group ≠ [] → group ⊆+ unplaced st →
  ∃ st', place_tie_group jr jn summary_map st group = Ok st' ∧ advances st st' group.
Proof.
  intros Hne Hsub. unfold place_tie_group.
  destruct (resolve_ties_ok group jr jn) as (groups & info & -> & Hperm & Hgroups).
  cbn [mbind outcome_bind].
  destruct (place_groups_ok summary_map info groups st (Hgroups Hne)) as (st' & -> & Hadv).
  { by rewrite Hperm. }
  eexists. split; [done|]. by eapply advances_Permutation.
Qed.

(** ** Tie groups of one threshold *)

Lemma take_same_count_spec k l :
  ∃ more rest, take_same_count k l = (more, rest) ∧
    l = ((λ c, (c, k)) <$> more) ++ rest ∧
    (∀ x, head rest = Some x → x.2 ≠ k).
Proof.
  induction l as [|[c k'] l IH]; simpl.
  { exists [], []. by split. }
  case_decide as Hk.
  - destruct IH as (more & rest & -> & Hl & Hhead). subst k'.
    exists (c :: more), rest. split; [done|]. split; [by rewrite Hl at 1|done].
  - exists [], ((c, k') :: l). split; [done|]. split; [done|].
    by intros x [= <-].
Qed.

Lemma place_candidates_groups fuel jr jn summary_map sorted st :
  length sorted ≤ fuel →
  place_candidates fuel jr jn summary_map sorted st =
    foldlM (place_tie_group jr jn summary_map) st (snd <$> count_groups fuel sorted).
Proof.
  revert sorted st. induction fuel as [|fuel IH]; intros sorted st Hlen.
  { by destruct sorted; [|simpl in Hlen; lia]. }
  destruct sorted as [|[first k] rest]; [done|]. cbn [place_candidates count_groups].
  destruct (take_same_count_spec k rest) as (more & rest' & -> & Hrest & _).
  cbn [fmap list_fmap foldlM snd].
  destruct (place_tie_group _ _ _ _ _); cbn [mbind outcome_bind]; [|done..].
  apply IH. simpl in Hlen. rewrite Hrest, length_app in Hlen. lia.
Qed.

Lemma count_groups_concat fuel sorted :
  length sorted ≤ fuel → concat (snd <$> count_groups fuel sorted) = sorted.*1.
Proof.
  revert sorted. induction fuel as [|fuel IH]; intros sorted Hlen.
  { by destruct sorted; [|simpl in Hlen; lia]. }
  destruct sorted as [|[first k] rest]; [done|]. cbn [count_groups].
  destruct (take_same_count_spec k rest) as (more & rest' & -> & Hrest & _).
  cbn [fmap list_fmap concat snd fst]. rewrite IH.
  - rewrite Hrest, fmap_app, <-list_fmap_compose.
    simpl. f_equal. f_equal. by rewrite list_fmap_id.
  - simpl in Hlen. rewrite Hrest, length_app in Hlen. lia.
Qed.

Lemma count_groups_members fuel sorted k g c :
  (k, g) ∈ count_groups fuel sorted → c ∈ g → (c, k) ∈ sorted.
Proof.
  revert sorted. induction fuel as [|fuel IH]; intros sorted.
  { destruct sorted as [|[??] ?]; simpl; by intros ?%elem_of_nil. }
  destruct sorted as [|[first k0] rest]; [by intros ?%elem_of_nil|]. cbn [count_groups].
  destruct (take_same_count_spec k0 rest) as (more & rest' & -> & Hrest & _).
  intros [[= -> ->]|Hin]%elem_of_cons Hc.
  - apply elem_of_cons in Hc as [->|Hc]; [left|]. right.
    rewrite Hrest. apply elem_of_app. left. by apply (list_elem_of_fmap_2 (λ c, (c, k0))).
  - right. rewrite Hrest. apply elem_of_app. right. by apply IH.
Qed.

Lemma count_groups_nonempty fuel sorted :
  Forall (λ g, g ≠ []) (snd <$> count_groups fuel sorted).
Proof.
  revert sorted. induction fuel as [|fuel IH]; intros sorted.
  { destruct sorted as [|[??] ?]; constructor. }
  destruct sorted as [|[first k0] rest]; [constructor|]. cbn [count_groups].
  destruct (take_same_count k0 rest) as [more rest']. constructor; [done|apply IH].
Qed.

(** On candidates sorted by descending count, the counts of the groups
    strictly descend. *)
Lemma count_groups_descend fuel sorted :
  StronglySorted (λ x y : string * nat, y.2 ≤ x.2) sorted →
  StronglySorted (λ x y : nat * list string, y.1 < x.1) (count_groups fuel sorted) ∧
  (∀ k g, (k, g) ∈ count_groups fuel sorted → ∃ c, (c, k) ∈ sorted).
Proof.
  revert sorted. induction fuel as [|fuel IH]; intros sorted Hsorted.
  { destruct sorted as [|[??] ?]; (split; [constructor|by intros ?? ?%elem_of_nil]). }
  destruct sorted as [|[first k0] rest]; [split; [constructor|by intros ?? ?%elem_of_nil]|].
  cbn [count_groups].
  destruct (take_same_count_spec k0 rest) as (more & rest' & -> & Hrest & Hhead).
  apply StronglySorted_cons in Hsorted as [Hle Hsorted].
  rewrite Hrest in Hle, Hsorted.
  apply Forall_app in Hle as [_ Hle].
  apply StronglySorted_app in Hsorted as (_ & _ & Hsorted').
  destruct (IH rest' Hsorted') as [IH1 IH2].
  assert (Forall (λ x : string * nat, x.2 < k0) rest') as Hlt.
  { destruct rest' as [|x rest'']; [constructor|].
    apply StronglySorted_cons in Hsorted' as [Hx _].
    apply Forall_cons in Hle as [Hxle _]. specialize (Hhead x eq_refl). simpl in *.
    constructor; [lia|]. eapply Forall_impl; [exact Hx|]. simpl. lia. }
  split.
  - constructor; [done|]. apply Forall_forall. intros [k g] Hin. simpl.
    destruct (IH2 k g Hin) as [c Hc].
    rewrite Forall_forall in Hlt. by apply (Hlt (c, k)).
  - intros k g [[= -> ->]|Hin]%elem_of_cons.
    + exists first. left.
    + destruct (IH2 k g Hin) as [c Hc]. exists c. right. rewrite Hrest.
      apply elem_of_app. by right.
Qed.

(** ** Qualification at a threshold *)

Lemma Qc_of_nat_nonzero n : n ≠ 0 → Qc_of_nat n ≠ 0%Qc.
Proof.
  intros Hn. unfold Qc_of_nat. rewrite <-Z2Qc_inj_0. intros H%Z2Qc_inj. lia.
Qed.

(** A strict majority: more than half the judges. *)
Lemma is_majority_iff count num_judges :
  is_majority count num_judges ↔ num_judges < 2 * count.
Proof.
  unfold is_majority, Qc_of_nat.
  rewrite (Qcmult_lt_mono_pos_r _ _ 2%Qc) by done.
  replace (Qc_of_Z (Z.of_nat num_judges) / 2 * 2)%Qc with (Qc_of_Z (Z.of_nat num_judges))
    by (field; done).
  rewrite <-Z2Qc_inj_2, <-Z2Qc_inj_mul, <-Z2Qc_inj_lt. lia.
Qed.

Lemma candidate_counts_lookup jr nj unplaced t c :
  candidate_counts_at jr nj unplaced t !! c =
    if decide (c ∈ unplaced ∧ is_majority (count_within jr c t) nj)
    then Some (count_within jr c t) else None.
Proof.
  unfold candidate_counts_at.
  enough (∀ m0 : gmap string nat,
    foldl (λ cc sn, let count := count_within jr sn t in
                    if decide (is_majority count nj) then <[sn := count]> cc else cc)
          m0 unplaced !! c =
    if decide (c ∈ unplaced ∧ is_majority (count_within jr c t) nj)
    then Some (count_within jr c t) else m0 !! c) as H.
  { by rewrite H, lookup_empty. }
  induction unplaced as [|sn rest IH]; intros m0; cbn [foldl].
  { rewrite decide_False; [done|]. by intros [?%elem_of_nil _]. }
  rewrite IH. destruct (decide (c ∈ rest ∧ _)) as [[Hin Hmaj]|Hno].
  { rewrite decide_True; [done|]. split; [by right|done]. }
  destruct (decide (c = sn)) as [->|Hne].
  - destruct (decide (is_majority (count_within jr sn t) nj)) as [Hmaj|Hmaj].
    + rewrite lookup_insert_eq, decide_True; [done|]. split; [left|done].
    + rewrite decide_False; [done|]. by intros [_ ?].
  - rewrite (decide_False (P := c ∈ sn :: rest ∧ _)).
    2:{ intros [[?|?]%elem_of_cons ?]; [done|]. by apply Hno. }
    case_decide; [|done]. by rewrite lookup_insert_ne.
Qed.

Lemma candidate_counts_Some jr nj unplaced t c k :
  candidate_counts_at jr nj unplaced t !! c = Some k ↔
  c ∈ unplaced ∧ k = count_within jr c t ∧ is_majority k nj.
Proof.
  rewrite candidate_counts_lookup. case_decide as H.
  - split; [intros [= <-]; tauto|]. by intros (_ & -> & _).
  - split; [done|]. intros (? & -> & ?). tauto.
Qed.

(** [counts_le] orders by descending count, then ascending id. *)
Lemma counts_le_iff x y :
  counts_le x y ↔ y.2 < x.2 ∨ (x.2 = y.2 ∧ String.le x.1 y.1).
Proof. unfold counts_le. split; (intros [?|[? ?]]; [left|right]; [lia|split; [lia|done]]). Qed.

#[local] Instance counts_le_total : Total counts_le.
Proof.
  intros x y. rewrite !counts_le_iff.
  destruct (lt_eq_lt_dec x.2 y.2) as [[?|?]|?]; [auto| |auto].
  destruct (total String.le x.1 y.1); auto.
Qed.

#[local] Instance counts_le_trans : Transitive counts_le.
Proof.
  intros x y z. rewrite !counts_le_iff.
  intros [?|[? ?]] [?|[? ?]]; [left; lia..|].
  right. split; [lia|]. by trans y.1.
Qed.

Lemma place_majority_groups jr jn t (cc : gmap string nat) st :
  (∀ c, is_Some (cc !! c) → c ∈ unplaced st) →
  ∃ groups : list (nat * list string),
    place_majority jr jn t cc st =
      foldlM (place_tie_group jr jn ((λ count, Majority t count (length jn)) <$> cc))
        st (snd <$> groups) ∧
    concat (snd <$> groups) ≡ₚ (map_to_list cc).*1 ∧
    (∀ k g c, (k, g) ∈ groups → c ∈ g → cc !! c = Some k) ∧
    StronglySorted (λ x y : nat * list string, y.1 < x.1) groups ∧
    Forall (λ g, g ≠ []) (snd <$> groups).
Proof.
  intros Hsub. unfold place_majority.
  set (sorted := py_sorted counts_le (map_to_list cc)).
  exists (count_groups (length sorted) sorted). split_and!.
  - by apply place_candidates_groups.
  - rewrite count_groups_concat by done. unfold sorted.
    by rewrite py_sorted_Permutation.
  - intros k g c Hg Hc. apply elem_of_map_to_list.
    apply (py_sorted_elem_of counts_le). by eapply count_groups_members.
  - apply count_groups_descend.
    eapply StronglySorted_weaken; [|apply (py_sorted_StronglySorted counts_le)].
    intros x y. rewrite counts_le_iff. lia.
  - apply count_groups_nonempty.
Qed.

Lemma place_tie_groups_ok jr jn summary_map groups st :
  Forall (λ g, g ≠ []) groups → concat groups ⊆+ unplaced st →
  ∃ st', foldlM (place_tie_group jr jn summary_map) st groups = Ok st' ∧
         advances st st' (concat groups).
Proof.
  intros Hne. revert st. induction Hne as [|g groups Hg _ IH]; intros st Hsub; simpl.
  { eexists. split; [done|]. apply advances_refl. }
  destruct (place_tie_group_ok jr jn summary_map st g Hg) as (st1 & -> & Hadv1).
  { etrans; [|exact Hsub]. by apply submseteq_inserts_r. }
  cbn [mbind outcome_bind].
  destruct (IH st1) as (st' & -> & Hadv).
  { destruct Hadv1 as (_ & _ & _ & Hu & _).
    apply (submseteq_app_inv_l _ _ g). rewrite (comm (++) g (unplaced st1)).
    by rewrite Hu. }
  eexists. split; [done|]. by eapply advances_trans.
Qed.

Lemma place_majority_ok jr jn t (cc : gmap string nat) st :
  (∀ c, is_Some (cc !! c) → c ∈ unplaced st) →
  ∃ st', place_majority jr jn t cc st = Ok st' ∧ advances st st' (map_to_list cc).*1.
Proof.
  intros Hsub.
  destruct (place_majority_groups jr jn t cc st Hsub) as (groups & -> & Hperm & _ & _ & Hne).
  destruct (place_tie_groups_ok jr jn ((λ count, Majority t count (length jn)) <$> cc)
              (snd <$> groups) st Hne) as (st' & -> & Hadv).
  { rewrite Hperm. apply NoDup_submseteq; [apply NoDup_fst_map_to_list|].
    intros c [k Hk]%list_elem_of_fmap. destruct Hk as [-> Hk]. destruct k as [c k].
    apply Hsub. exists k. by apply elem_of_map_to_list. }
  eexists. split; [done|]. by eapply advances_Permutation.
Qed.

Lemma threshold_loop_ok jr jn thresholds st :
  ∃ found st', threshold_loop jr jn thresholds st = Ok (found, st') ∧
    if found then ∃ placed, placed ≠ [] ∧ advances st st' placed else st' = st.
Proof.
  induction thresholds as [|t thresholds IH]; cbn [threshold_loop].
  { by exists false, st. }
  case_decide as Hcc; [|done].
  set (cc := candidate_counts_at jr (length jn) (unplaced st) t) in *.
  destruct (place_majority_ok jr jn t cc st) as (st' & -> & Hadv).
  { intros c [k Hk]. by apply candidate_counts_Some in Hk as [? _]. }
  cbn [mbind outcome_bind]. exists true, st'. split; [done|].
  exists (map_to_list cc).*1. split; [|done].
  intros Hnil%fmap_nil_inv. by apply map_to_list_empty_iff in Hnil.
Qed.

(** ** The fallback *)

Lemma average_rank_ok jr n_rows num_judges sn :
  num_judges ≠ 0 →
  average_rank jr n_rows num_judges sn = Ok (mean_rank jr n_rows num_judges sn).
Proof.
  intros Hn. unfold average_rank, py_truediv.
  rewrite decide_False; [done|]. by apply Qc_of_nat_nonzero.
Qed.

Lemma fallback_records_cons p item items :
  fallback_records p (item :: items) =
    fallback_record p item :: fallback_records (p + 1) items.
Proof.
  unfold fallback_records. cbn [imap]. rewrite Nat.add_0_r. f_equal.
  apply imap_ext. intros i x _. simpl. f_equal. lia.
Qed.

Lemma fallback_records_ids p items : placed_ids (fallback_records p items) = items.*1.
Proof.
  revert p. induction items as [|item items IH]; intros p; [done|].
  rewrite fallback_records_cons. unfold placed_ids in *. simpl. by rewrite IH.
Qed.

Lemma fallback_records_chain p items : place_chain p (fallback_records p items).
Proof.
  revert p. induction items as [|item items IH]; intros p; [done|].
  rewrite fallback_records_cons. simpl. split; [done|]. apply IH.
Qed.

Lemma place_fallback_all items st :
  items.*1 ⊆+ unplaced st →
  ∃ st', foldlM place_fallback st items = Ok st' ∧
    placement_records st' = placement_records st ++ fallback_records (next_place st) items ∧
    unplaced st' ++ items.*1 ≡ₚ unplaced st ∧
    next_place st' = next_place st + length items.
Proof.
  revert st. induction items as [|item items IH]; intros st Hsub.
  { exists st. simpl. rewrite !app_nil_r, Nat.add_0_r. done. }
  cbn [foldlM]. unfold place_fallback at 2.
  rewrite fmap_cons in Hsub. apply submseteq_cons_l in Hsub as (l' & Hl' & Hsub).
  assert (item.1 ∈ unplaced st) as Hin by (rewrite Hl'; left).
  destruct (remove_first_elem_of _ _ Hin) as [unplaced' Hrem]. rewrite Hrem.
  cbn [of_option mbind outcome_bind].
  apply remove_first_Some in Hrem.
  assert (items.*1 ⊆+ unplaced') as Hsub'.
  { assert (item.1 :: l' ≡ₚ item.1 :: unplaced') as Hp by (by rewrite <-Hl').
    apply (inj (item.1 ::.)) in Hp. by rewrite <-Hp. }
  destruct (IH {| placement_records := placement_records st ++ [fallback_record (next_place st) item];
                  unplaced := unplaced';
                  next_place := next_place st + 1 |} Hsub')
    as (st' & Hst' & Hrecs & Hun & Hnext).
  cbn [placement_records unplaced next_place] in *.
  exists st'. split; [exact Hst'|]. split_and!.
  - by rewrite Hrecs, fallback_records_cons, <-(assoc_L (++)).
  - rewrite fmap_cons, Hrem, <-Permutation_middle. by f_equiv.
  - rewrite Hnext. simpl. lia.
Qed.

Lemma fallback_avg_ranks jr n_rows num_judges unplaced acc :
  num_judges ≠ 0 →
  foldlM (λ avg_ranks sn,
            avg ← average_rank jr n_rows num_judges sn;
            Ok (avg_ranks ++ [(sn, avg)]))
         acc unplaced =
    Ok (acc ++ ((λ sn, (sn, mean_rank jr n_rows num_judges sn)) <$> unplaced)).
Proof.
  intros Hn. revert acc. induction unplaced as [|sn rest IH]; intros acc; cbn [foldlM].
  { by rewrite app_nil_r. }
  rewrite average_rank_ok by done. cbn [mbind outcome_bind].
  rewrite IH. by rewrite <-(assoc_L (++)).
Qed.

Lemma fallback_ok jr n_rows num_judges st :
  num_judges ≠ 0 →
  ∃ st', fallback jr n_rows num_judges st = Ok st' ∧
    placement_records st' =
      placement_records st ++
      fallback_records (next_place st)
        (py_sorted avg_le ((λ sn, (sn, mean_rank jr n_rows num_judges sn)) <$> unplaced st)) ∧
    unplaced st' = [] ∧
    next_place st' = next_place st + length (unplaced st).
Proof.
  intros Hn. unfold fallback. rewrite fallback_avg_ranks by done.
  cbn [mbind outcome_bind app].
  set (items := py_sorted avg_le _).
  assert (items.*1 ≡ₚ unplaced st) as Hids.
  { unfold items. rewrite py_sorted_Permutation, <-list_fmap_compose.
    by rewrite list_fmap_id. }
  destruct (place_fallback_all items st) as (st' & -> & Hrecs & Hun & Hnext).
  { by rewrite Hids. }
  exists st'. split; [done|]. split; [done|]. split.
  - apply nil_length_inv.
    assert (length (items.*1) = length (unplaced st)) as Hlen1 by (by rewrite Hids).
    assert (length (unplaced st' ++ items.*1) = length (unplaced st)) as Hlen by (by rewrite Hun).
    rewrite length_app in Hlen. lia.
  - rewrite Hnext. f_equal. by rewrite <-Hids, length_fmap.
Qed.

Lemma fallback_advances jr n_rows num_judges st :
  num_judges ≠ 0 →
  ∃ st', fallback jr n_rows num_judges st = Ok st' ∧ advances st st' (unplaced st) ∧
         unplaced st' = [].
Proof.
  intros Hn. destruct (fallback_ok jr n_rows num_judges st Hn)
    as (st' & Hst' & Hrecs & Hun & Hnext).
  exists st'. split; [done|]. split; [|done].
  eexists. split; [exact Hrecs|]. split_and!.
  - rewrite fallback_records_ids, py_sorted_Permutation, <-list_fmap_compose.
    by rewrite list_fmap_id.
  - by rewrite Hun.
  - apply fallback_records_chain.
  - done.
Qed.

(** ** The placement loop *)

Lemma placement_loop_ok fuel jr jn n_rows total st :
  jn ≠ [] → length (unplaced st) ≤ fuel →
  ∃ new, placement_loop fuel jr jn n_rows total st = Ok (placement_records st ++ new) ∧
         placed_ids new ≡ₚ unplaced st ∧ place_chain (next_place st) new.
Proof.
  intros Hjn. revert st. induction fuel as [|fuel IH]; intros st Hfuel.
  { destruct (unplaced st) eqn:E; [|simpl in Hfuel; lia].
    exists []. simpl. rewrite E. by rewrite app_nil_r. }
  cbn [placement_loop]. case_decide as Hun.
  { exists []. rewrite Hun. by rewrite app_nil_r. }
  destruct (threshold_loop_ok jr jn (seq 1 total) st) as (found & st1 & -> & Hfound).
  cbn [mbind outcome_bind fst snd].
  assert (∃ st2 placed, (if found then Ok st1
                         else fallback jr n_rows (length jn) st1) = Ok st2 ∧
            placed ≠ [] ∧ advances st st2 placed) as (st2 & placed & -> & Hne & Hadv).
  { destruct found.
    - destruct Hfound as (placed & ? & ?). by exists st1, placed.
    - subst st1. destruct (fallback_advances jr n_rows (length jn) st) as (st2 & ? & ? & _).
      { by destruct jn. }
      by exists st2, (unplaced st). }
  cbn [mbind outcome_bind].
  pose proof (advances_length _ _ _ Hadv) as Hlen.
  destruct (IH st2) as (new2 & -> & Hids2 & Hchain2).
  { destruct placed; [done|]. simpl in *. lia. }
  destruct Hadv as (new1 & Hrecs & Hids1 & Hu & Hchain1 & Hnext).
  exists (new1 ++ new2). split; [by rewrite Hrecs, (assoc_L (++))|]. split.
  - rewrite placed_ids_app, Hids1, Hids2, <-Hu. apply (comm (++)).
  - apply place_chain_app. split; [done|]. by rewrite Hids1, <-Hnext.
Qed.

Lemma determine_majority_placements_ok df jr jn :
  jn ≠ [] →
  ∃ recs, determine_majority_placements df jr jn = Ok recs ∧
          placed_ids recs ≡ₚ str_start_number <$> df ∧ place_chain 1 recs.
Proof.
  intros Hjn. unfold determine_majority_placements.
  destruct (placement_loop_ok (length (str_start_number <$> df)) jr jn (length df)
              (length (str_start_number <$> df))
              {| placement_records := []; unplaced := str_start_number <$> df;
                 next_place := 1 |} Hjn) as (new & Hloop & Hids & Hchain); [done|].
  exists new. split; [exact Hloop|]. done.
Qed.

(** ** The properties of the placement run *)

Lemma elem_of_concat {A} (x : A) (ls : list (list A)) :
  x ∈ concat ls ↔ ∃ l, x ∈ l ∧ l ∈ ls.
Proof.
  induction ls as [|l ls IH]; simpl.
  - split; [by intros ?%elem_of_nil|]. by intros (? & _ & ?%elem_of_nil).
  - rewrite elem_of_app, IH. split.
    + intros [?|(l' & ? & ?)]; [exists l; split; [done|left]|].
      exists l'. split; [done|by right].
    + intros (l' & ? & [->|?]%elem_of_cons); [by left|]. right. eauto.
Qed.

Lemma NoDup_concat_lookup {A} (ls : list (list A)) i j a b x :
  NoDup (concat ls) → ls !! i = Some a → ls !! j = Some b → x ∈ a → x ∈ b → i = j.
Proof.
  revert i j. induction ls as [|l ls IH]; intros i j Hnd Hi Hj Ha Hb; [done|].
  simpl in Hnd. apply NoDup_app in Hnd as (_ & Hdisj & Hnd).
  assert (∀ k c, ls !! k = Some c → x ∈ c → x ∈ concat ls) as Hin.
  { intros k c Hk Hc. apply elem_of_concat. exists c. split; [done|].
    by eapply list_elem_of_lookup_2. }
  destruct i as [|i], j as [|j]; simplify_eq/=; [done| | |f_equal; by eapply IH].
  - destruct (Hdisj x Ha). by eapply Hin.
  - destruct (Hdisj x Hb). by eapply Hin.
Qed.

(** C1. With at least one judge and distinct competitor ids, a placement run
    returns records whose [couples] lists together hold the input ids exactly
    once: every id is in a record, no id is in two records, and none is
    twice in one. *)
Theorem placements_cover_competitors df judge_rankings judge_names :
  judge_names ≠ [] → NoDup (str_start_number <$> df) →
  ∃ records,
    determine_majority_placements df judge_rankings judge_names = Ok records ∧
    concat (couples <$> records) ≡ₚ str_start_number <$> df ∧
    (∀ id, id ∈ str_start_number <$> df ↔ ∃ r, r ∈ records ∧ id ∈ couples r) ∧
    (∀ i j ri rj id, records !! i = Some ri → records !! j = Some rj →
       id ∈ couples ri → id ∈ couples rj → i = j) ∧
    (∀ r, r ∈ records → NoDup (couples r)).
Proof.
  intros Hjn Hnd.
  destruct (determine_majority_placements_ok df judge_rankings judge_names Hjn)
    as (records & Hrun & Hids & _).
  unfold placed_ids in Hids.
  assert (NoDup (concat (couples <$> records))) as Hnd' by (by rewrite Hids).
  exists records. split_and!; [done|done| | |].
  - intros id. rewrite <-Hids, elem_of_concat. split.
    + intros (l & Hid & (r & -> & Hr)%list_elem_of_fmap). eauto.
    + intros (r & Hr & Hid). exists (couples r). split; [done|].
      by apply list_elem_of_fmap_2.
  - intros i j ri rj id Hi Hj Hidi Hidj.
    apply (NoDup_concat_lookup (couples <$> records) i j (couples ri) (couples rj) id);
      [done| | |done|done]; by rewrite list_lookup_fmap, ?Hi, ?Hj.
  - intros r Hr. apply list_elem_of_lookup in Hr as [i Hi].
    assert ((couples <$> records) !! i = Some (couples r)) as Hl
      by (by rewrite list_lookup_fmap, Hi).
    rewrite <-(take_drop_middle _ _ _ Hl), concat_app in Hnd'. simpl in Hnd'.
    apply NoDup_app in Hnd' as (_ & _ & Hnd'). by apply NoDup_app in Hnd' as (? & _).
Qed.

(** C3. In the records of a run, the first place is 1 and every later record
    is placed at the place of the record before it plus the number of ids of
    that record; the run goes through the majority branch and the fallback
    alike. *)
Theorem placement_places_advance df judge_rankings judge_names :
  judge_names ≠ [] →
  ∃ records,
    determine_majority_placements df judge_rankings judge_names = Ok records ∧
    (∀ r, records !! 0 = Some r → place r = 1) ∧
    (∀ i r r', records !! i = Some r → records !! S i = Some r' →
       place r' = place r + length (couples r)).
Proof.
  intros Hjn.
  destruct (determine_majority_placements_ok df judge_rankings judge_names Hjn)
    as (records & Hrun & _ & Hchain).
  exists records. split; [done|]. by apply place_chain_lookup.
Qed.

Lemma threshold_loop_none jr jn thresholds st :
  (∀ t, t ∈ thresholds → candidate_counts_at jr (length jn) (unplaced st) t = ∅) →
  threshold_loop jr jn thresholds st = Ok (false, st).
Proof.
  induction thresholds as [|t thresholds IH]; intros Hnone; cbn [threshold_loop]; [done|].
  rewrite decide_False.
  - apply IH. intros t' Ht'. apply Hnone. by right.
  - intros Hne. apply Hne, Hnone. left.
Qed.

Lemma threshold_loop_first jr jn pre t post st :
  (∀ t', t' ∈ pre → candidate_counts_at jr (length jn) (unplaced st) t' = ∅) →
  candidate_counts_at jr (length jn) (unplaced st) t ≠ ∅ →
  threshold_loop jr jn (pre ++ t :: post) st =
    (λ st', (true, st')) <$>
      place_majority jr jn t (candidate_counts_at jr (length jn) (unplaced st) t) st.
Proof.
  intros Hpre Ht. induction pre as [|t' pre IH]; cbn [threshold_loop app].
  - rewrite decide_True by done. by destruct (place_majority _ _ _ _ _).
  - rewrite decide_False.
    + apply IH. intros t'' Ht''. apply Hpre. by right.
    + intros Hne. apply Hne, Hpre. left.
Qed.

Lemma seq_split_at t total :
  1 ≤ t ≤ total → seq 1 total = seq 1 (t - 1) ++ t :: seq (S t) (total - t).
Proof.
  intros Ht. replace total with ((t - 1) + S (total - t)) at 1 by lia.
  rewrite seq_app. replace (1 + (t - 1)) with t by lia. done.
Qed.

(** C2. In a round, the qualifiers at a threshold [t] are the unplaced
    competitors whose count of judges ranking them at [t] or better is
    strictly greater than [num_judges / 2]; the round places at the first
    threshold of [1 .. total] that has a qualifier (and at none when no
    threshold has one); the qualifiers of that threshold are placed in tie
    groups, each of one count, in strictly descending order of the count. *)
Theorem majority_round_qualifiers judge_rankings judge_names total st :
  let num_judges := length judge_names in
  let qualifiers := candidate_counts_at judge_rankings num_judges (unplaced st) in
  (∀ t c k, qualifiers t !! c = Some k ↔
     c ∈ unplaced st ∧ k = count_within judge_rankings c t ∧
     (Qc_of_nat num_judges / 2 < Qc_of_nat k)%Qc) ∧
  ((∀ t, 1 ≤ t ≤ total → qualifiers t = ∅) →
   threshold_loop judge_rankings judge_names (seq 1 total) st = Ok (false, st)) ∧
  (∀ t, 1 ≤ t ≤ total → qualifiers t ≠ ∅ → (∀ t', 1 ≤ t' < t → qualifiers t' = ∅) →
   ∃ groups : list (nat * list string),
     threshold_loop judge_rankings judge_names (seq 1 total) st =
       (λ st', (true, st')) <$>
         foldlM (place_tie_group judge_rankings judge_names
                   ((λ count, Majority t count num_judges) <$> qualifiers t))
                st (snd <$> groups) ∧
     concat (snd <$> groups) ≡ₚ (map_to_list (qualifiers t)).*1 ∧
     (∀ k g c, (k, g) ∈ groups → c ∈ g → qualifiers t !! c = Some k) ∧
     StronglySorted (λ x y : nat * list string, y.1 < x.1) groups).
Proof.
  intros num_judges qualifiers. split_and!.
  - intros t c k. apply candidate_counts_Some.
  - intros Hnone. apply threshold_loop_none.
    intros t Ht%elem_of_seq. apply Hnone. lia.
  - subst qualifiers num_judges.
    intros t Ht Hq Hfirst. rewrite (seq_split_at t total Ht).
    rewrite threshold_loop_first; [| |done].
    2:{ intros t' Ht'%elem_of_seq. apply Hfirst. lia. }
    destruct (place_majority_groups judge_rankings judge_names t
                (candidate_counts_at judge_rankings (length judge_names) (unplaced st) t) st)
      as (groups & -> & Hperm & Hmem & Hsorted & _).
    { intros c [k Hk]. by apply candidate_counts_Some in Hk as [? _]. }
    by exists groups.
Qed.

#[local] Instance avg_le_total : Total avg_le.
Proof.
  intros x y. unfold avg_le.
  destruct (Qc_trichotomy x.2 y.2) as [?|[?|?]]; [auto| |auto].
  destruct (total String.le x.1 y.1); auto.
Qed.

#[local] Instance avg_le_trans : Transitive avg_le.
Proof.
  intros x y z. unfold avg_le.
  intros [Hxy|[Hxy Hxy']] [Hyz|[Hyz Hyz']].
  - left. by trans y.2.
  - left. by rewrite <-Hyz.
  - left. by rewrite Hxy.
  - right. split; [congruence|]. by trans y.1.
Qed.

(** C5, as amended. When no threshold up to the competitor count has a
    qualifier, the remaining competitors are ordered by ascending mean rank,
    equal means by ascending id, and each gets a record of its own at
    consecutive places, annotated as a rank-average fallback. *)
Theorem fallback_orders_by_mean_rank fuel judge_rankings judge_names n_rows total st :
  judge_names ≠ [] → unplaced st ≠ [] →
  (∀ t, 1 ≤ t ≤ total →
     candidate_counts_at judge_rankings (length judge_names) (unplaced st) t = ∅) →
  ∃ items,
    items ≡ₚ (λ sn, (sn, mean_rank judge_rankings n_rows (length judge_names) sn))
               <$> unplaced st ∧
    StronglySorted (λ x y, (x.2 < y.2)%Qc ∨ (x.2 = y.2 ∧ String.le x.1 y.1)) items ∧
    placement_loop (S fuel) judge_rankings judge_names n_rows total st =
      Ok (placement_records st ++ fallback_records (next_place st) items).
Proof.
  intros Hjn Hun Hnone.
  eexists. split; [apply (py_sorted_Permutation avg_le)|].
  split; [apply (py_sorted_StronglySorted avg_le)|].
  cbn [placement_loop]. rewrite decide_False by done.
  rewrite threshold_loop_none.
  2:{ intros t Ht%elem_of_seq. apply Hnone. lia. }
  cbn [mbind outcome_bind fst snd].
  destruct (fallback_ok judge_rankings n_rows (length judge_names) st)
    as (st' & -> & Hrecs & Hempty & _).
  { by destruct judge_names. }
  cbn [mbind outcome_bind].
  destruct fuel; cbn [placement_loop]; rewrite decide_True by done; by rewrite Hrecs.
Qed.

Lemma rank_lt_asym r1 r2 : rank_lt r1 r2 = true → rank_lt r2 r1 = false.
Proof.
  destruct r1 as [x|], r2 as [y|]; simpl; try done.
  intros H%bool_decide_eq_true. apply bool_decide_eq_false. lia.
Qed.

(** ** Two couples, two judges, opposite orders *)

Lemma resolve_ties_pair_tie jr jn x y :
  head_to_head jr x y = (1, 1) →
  resolve_ties [x; y] jr jn =
    Ok ([[x; y]], <[x := HeadToHeadTie 1 1]> (<[y := HeadToHeadTie 1 1]> ∅)).
Proof.
  intros Hh. unfold resolve_ties. cbn [resolve_ties_rec length].
  rewrite decide_False by lia. rewrite Hh. cbn [fst snd].
  by rewrite !decide_False by lia.
Qed.

Lemma discard_pair x y l :
  x ≠ y → l = [x; y] ∨ l = [y; x] → foldl discard l [x; y] = [].
Proof.
  intros Hne [-> | ->]; unfold discard; simpl.
  - rewrite decide_True by done. simpl. by rewrite decide_True.
  - rewrite decide_False by done. rewrite decide_True by done. simpl.
    by rewrite decide_True.
Qed.

Lemma place_tie_group_pair jr jn summary_map st x y :
  x ≠ y → head_to_head jr x y = (1, 1) →
  unplaced st = [x; y] ∨ unplaced st = [y; x] →
  place_tie_group jr jn summary_map st [x; y] =
    Ok {| placement_records :=
            placement_records st ++
            [ {| place := next_place st;
                 couples := [x; y];
                 summary := summary_map !! x;
                 tie_info := <[y := Some (HeadToHeadTie 1 1)]>
                               (<[x := Some (HeadToHeadTie 1 1)]> ∅) |} ];
          unplaced := [];
          next_place := next_place st + 2 |}.
Proof.
  intros Hne Hh Hun. unfold place_tie_group.
  rewrite resolve_ties_pair_tie by done. cbn [mbind outcome_bind foldlM].
  unfold place_group. cbn [py_index of_option lookup list_lookup mbind outcome_bind length].
  rewrite (discard_pair x y) by done.
  rewrite decide_True by apply insert_non_empty.
  cbn [foldl]. rewrite lookup_insert_eq, lookup_insert_ne, lookup_insert_eq by done.
  done.
Qed.

Section mirrored_pair.
Context (a b : string) (r1 r2 : gmap string nat) (jr : list (gmap string nat)).
Context (jn : list string).
Hypothesis Hab : a ≠ b.
Hypothesis Hjn : length jn = 2.
Hypothesis Hjr : jr = [r1; r2] ∨ jr = [r2; r1].
Hypothesis H1a : r1 !! a = Some 1.
Hypothesis H1b : r1 !! b = Some 2.
Hypothesis H2a : r2 !! a = Some 2.
Hypothesis H2b : r2 !! b = Some 1.

Lemma mirrored_pair_counts c t :
  c ∈ [a; b] → count_within jr c t = if decide (t = 0) then 0 else if decide (t = 1) then 1 else 2.
Proof.
  intros Hc. unfold count_within.
  assert (c = a ∨ c = b) as [->| ->].
  { apply elem_of_cons in Hc as [?|Hc]; [by left|].
    apply list_elem_of_singleton in Hc. by right. }
  all: destruct Hjr as [-> | ->]; rewrite !filter_cons, filter_nil;
    rewrite ?H1a, ?H1b, ?H2a, ?H2b; unfold rank_le_nat;
    repeat case_decide; simpl;
    repeat match goal with
    | H : bool_decide _ = true |- _ => apply bool_decide_eq_true in H
    | H : ¬ (bool_decide _ = true) |- _ => rewrite bool_decide_eq_true in H
    end; try lia; done.
Qed.

Lemma mirrored_pair_head_to_head :
  head_to_head jr a b = (1, 1) ∧ head_to_head jr b a = (1, 1).
Proof.
  destruct Hjr as [-> | ->]; unfold head_to_head; cbn [foldl];
    by rewrite ?H1a, ?H1b, ?H2a, ?H2b.
Qed.

Lemma mirrored_pair_round1 :
  candidate_counts_at jr (length jn) [a; b] 1 = ∅.
Proof.
  apply map_eq. intros c. rewrite lookup_empty, candidate_counts_lookup.
  apply decide_False. intros [Hc Hmaj]. rewrite mirrored_pair_counts in Hmaj by done.
  rewrite Hjn in Hmaj. apply is_majority_iff in Hmaj. simpl in Hmaj. lia.
Qed.

Lemma mirrored_pair_round2 c :
  candidate_counts_at jr (length jn) [a; b] 2 !! c =
    if decide (c ∈ [a; b]) then Some 2 else None.
Proof.
  rewrite candidate_counts_lookup. destruct (decide (c ∈ [a; b])) as [Hc|Hc].
  - rewrite mirrored_pair_counts by done. simpl. apply decide_True.
    split; [done|]. rewrite Hjn. apply is_majority_iff. lia.
  - apply decide_False. by intros [? _].
Qed.

Lemma mirrored_pair_run df :
  str_start_number <$> df = [a; b] →
  ∃ record,
    determine_majority_placements df jr jn = Ok [record] ∧
    place record = 1 ∧ couples record ≡ₚ [a; b] ∧ place_label record = "1 (tie)" ∧
    tie_info record !! a = Some (Some (HeadToHeadTie 1 1)) ∧
    tie_info record !! b = Some (Some (HeadToHeadTie 1 1)).
Proof.
  intros Hids. unfold determine_majority_placements, start_engine.
  rewrite Hids. cbn [unplaced length placement_loop].
  rewrite decide_False by done.
  set (st := {| placement_records := []; unplaced := [a; b]; next_place := 1 |}).
  set (cc := candidate_counts_at jr (length jn) [a; b] 2).
  assert (cc ≠ ∅) as Hcc.
  { intros Hempty. pose proof (mirrored_pair_round2 a) as Ha. fold cc in Ha.
    rewrite Hempty, lookup_empty, decide_True in Ha by left. done. }
  change (seq 1 2) with ([1] ++ [2]).
  rewrite (threshold_loop_first jr jn [1] 2 [] st); [| |done].
  2:{ intros t ->%list_elem_of_singleton. apply mirrored_pair_round1. }
  cbn [unplaced st]. fold cc.
  destruct (place_majority_groups jr jn 2 cc st) as (groups & -> & Hperm & Hmem & Hsorted & Hne).
  { intros c [k Hk]. unfold cc in Hk. rewrite mirrored_pair_round2 in Hk.
    by case_decide. }
  assert ((map_to_list cc).*1 ≡ₚ [a; b]) as Hkeys.
  { apply NoDup_Permutation; [apply NoDup_fst_map_to_list| |].
    - apply NoDup_cons. split; [by intros ?%list_elem_of_singleton|].
      apply NoDup_singleton.
    - intros c. rewrite list_elem_of_fmap. split.
      + intros ([c' k] & -> & Hk%elem_of_map_to_list). simpl.
        unfold cc in Hk. rewrite mirrored_pair_round2 in Hk. by case_decide.
      + intros Hc. exists (c, 2). split; [done|]. apply elem_of_map_to_list.
        unfold cc. by rewrite mirrored_pair_round2, decide_True. }
  assert (∃ k g, groups = [(k, g)]) as (k & g & ->).
  { destruct groups as [|[k1 g1] [|[k2 g2] groups]].
    - simpl in Hperm. rewrite Hkeys in Hperm. by apply Permutation_nil_cons in Hperm.
    - eauto.
    - apply StronglySorted_cons in Hsorted as [Hlt _].
      apply Forall_cons in Hlt as [Hlt _]. simpl in Hlt.
      apply Forall_cons in Hne as [Hg1 Hne]. apply Forall_cons in Hne as [Hg2 _].
      simpl in Hg1, Hg2.
      destruct g1 as [|c1 ?]; [done|]. destruct g2 as [|c2 ?]; [done|].
      pose proof (Hmem k1 _ c1 ltac:(left) ltac:(left)) as Hc1.
      pose proof (Hmem k2 _ c2 ltac:(right; left) ltac:(left)) as Hc2.
      unfold cc in Hc1, Hc2. rewrite mirrored_pair_round2 in Hc1, Hc2.
      repeat case_decide; simplify_eq. lia. }
  simpl in Hperm. rewrite app_nil_r, Hkeys in Hperm.
  cbn [fmap list_fmap snd foldlM].
  destruct mirrored_pair_head_to_head as [Hab' Hba'].
  assert (g = [a; b] ∨ g = [b; a]) as [-> | ->].
  { symmetry in Hperm. by apply Permutation_length_2_inv in Hperm. }
  - rewrite (place_tie_group_pair jr jn _ st a b) by (done || by left).
    cbn [mbind outcome_bind fmap outcome_fmap fst snd placement_loop unplaced].
    rewrite decide_True by done.
    eexists. split; [done|]. cbn [place couples tie_info placement_records app].
    split; [done|]. split; [done|]. split; [done|]. split.
    + by rewrite lookup_insert_ne, lookup_insert_eq by done.
    + by rewrite lookup_insert_eq.
  - rewrite (place_tie_group_pair jr jn _ st b a) by (done || by right).
    cbn [mbind outcome_bind fmap outcome_fmap fst snd placement_loop unplaced].
    rewrite decide_True by done.
    eexists. split; [done|]. cbn [place couples tie_info placement_records app].
    split; [done|]. split; [apply Permutation_swap|]. split; [done|]. split.
    + by rewrite lookup_insert_eq.
    + by rewrite lookup_insert_ne, lookup_insert_eq by done.
Qed.
End mirrored_pair.

(** C7. The resolver returns for every input, with groups that split the
    candidates; when every head-to-head comparison among the candidates is an
    exact split, it returns the candidates as one group; two candidates that
    two judges rank in opposite orders come back as one group marked as a
    head-to-head tie, and the run on two couples that two judges rank 1-2
    and 2-1 is one record at place 1, labelled as a tie, with both couples
    (for all such ids and rankings, and on a frame of scores). *)
Theorem resolve_ties_never_fails :
  (∀ candidates judge_rankings judge_names,
     ∃ groups info,
       resolve_ties candidates judge_rankings judge_names = Ok (groups, info) ∧
       concat groups ≡ₚ candidates) ∧
  (∀ candidates judge_rankings judge_names,
     all_split judge_rankings candidates →
     ∃ info, resolve_ties candidates judge_rankings judge_names = Ok ([candidates], info)) ∧
  (∀ a b (ranking1 ranking2 : gmap string nat) judge_names,
     rank_lt (ranking1 !! a) (ranking1 !! b) = true →
     rank_lt (ranking2 !! b) (ranking2 !! a) = true →
     resolve_ties [a; b] [ranking1; ranking2] judge_names =
       Ok ([[a; b]], <[a := HeadToHeadTie 1 1]> (<[b := HeadToHeadTie 1 1]> ∅))) ∧
  (∀ df a b (ranking1 ranking2 : gmap string nat) judge_rankings judge_names,
     a ≠ b → length judge_names = 2 →
     judge_rankings = [ranking1; ranking2] ∨ judge_rankings = [ranking2; ranking1] →
     ranking1 !! a = Some 1 → ranking1 !! b = Some 2 →
     ranking2 !! a = Some 2 → ranking2 !! b = Some 1 →
     str_start_number <$> df = [a; b] →
     ∃ record,
       determine_majority_placements df judge_rankings judge_names = Ok [record] ∧
       place record = 1 ∧ couples record ≡ₚ [a; b] ∧ place_label record = "1 (tie)" ∧
       tie_info record !! a = Some (Some (HeadToHeadTie 1 1)) ∧
       tie_info record !! b = Some (Some (HeadToHeadTie 1 1))) ∧
  (∃ judge_rankings judge_names record,
     build_judge_rankings_for_subset first_word_ascii split_frame [] =
       Ok (judge_rankings, judge_names) ∧
     length judge_names = 2 ∧
     determine_majority_placements split_frame judge_rankings judge_names = Ok [record] ∧
     place record = 1 ∧ couples record = ["A"; "B"] ∧ place_label record = "1 (tie)" ∧
     tie_info record !! "A" = Some (Some (HeadToHeadTie 1 1)) ∧
     tie_info record !! "B" = Some (Some (HeadToHeadTie 1 1))).
Proof.
  split_and!.
  - intros candidates jr jn.
    destruct (resolve_ties_ok candidates jr jn) as (groups & info & ? & ? & _). eauto.
  - intros candidates jr jn. apply resolve_ties_all_split.
  - intros a b r1 r2 jn H1 H2. unfold resolve_ties. cbn [resolve_ties_rec length].
    rewrite decide_False by lia.
    assert (head_to_head [r1; r2] a b = (1, 1)) as ->.
    { unfold head_to_head. cbn [foldl fst snd]. rewrite H1. cbn [fst snd].
      by rewrite (rank_lt_asym _ _ H2), H2. }
    cbn [fst snd]. by rewrite !decide_False by lia.
  - intros df a b r1 r2 jr jn ????????. by eapply mirrored_pair_run.
  - eexists _, _, _. split; [vm_compute; reflexivity|]. split; [reflexivity|].
    split; [vm_compute; reflexivity|]. by vm_compute.
Qed.

Lemma resolve_ties_never_fails_witness :
  ∃ info, resolve_ties ["A"; "B"; "C"] mirrored_rankings ["Judge 1"; "Judge 2"] =
            Ok ([["A"; "B"; "C"]], info).
Proof.
  apply (proj1 (proj2 resolve_ties_never_fails)).
  intros a b Ha Hb.
  repeat (apply elem_of_cons in Ha as [->|Ha]); [..|by apply elem_of_nil in Ha];
    repeat (apply elem_of_cons in Hb as [->|Hb]); try (by apply elem_of_nil in Hb);
    vm_compute; reflexivity.
Defined.

Lemma placements_cover_competitors_witness :
  ∃ records,
    determine_majority_placements tied_frame (judge_ranking tied_frame <$> seq 0 3)
      (judge_n <$> seq 0 3) = Ok records ∧
    concat (couples <$> records) ≡ₚ ["10"; "2"; "3"; "4"].
Proof.
  destruct (placements_cover_competitors tied_frame (judge_ranking tied_frame <$> seq 0 3)
              (judge_n <$> seq 0 3)) as (records & Hrun & Hids & _).
  - done.
  - by_compute.
  - exists records. split; [exact Hrun|exact Hids].
Defined.

Lemma placement_places_advance_witness :
  ∃ records,
    determine_majority_placements tied_frame (judge_ranking tied_frame <$> seq 0 3)
      (judge_n <$> seq 0 3) = Ok records ∧
    (∀ r, records !! 0 = Some r → place r = 1).
Proof.
  destruct (placement_places_advance tied_frame (judge_ranking tied_frame <$> seq 0 3)
              (judge_n <$> seq 0 3)) as (records & Hrun & Hfirst & _).
  - done.
  - exists records. split; [exact Hrun|exact Hfirst].
Defined.

(** The run on [tied_frame]: a tie of two at place 1, then places 3 and 4. *)
Example tied_frame_places :
  ∃ records,
    determine_majority_placements tied_frame (judge_ranking tied_frame <$> seq 0 3)
      (judge_n <$> seq 0 3) = Ok records ∧
    (λ r, (place r, couples r)) <$> records = [(1, ["10"; "2"]); (3, ["3"]); (4, ["4"])].
Proof. eexists. split; [vm_compute; reflexivity|]. reflexivity. Qed.

Lemma majority_round_qualifiers_witness :
  ∃ groups : list (nat * list string),
    threshold_loop (judge_ranking tied_frame <$> seq 0 3) (judge_n <$> seq 0 3) (seq 1 4)
      (start_engine tied_frame) =
      (λ st', (true, st')) <$>
        foldlM (place_tie_group (judge_ranking tied_frame <$> seq 0 3) (judge_n <$> seq 0 3)
                  ((λ count, Majority 1 count 3) <$>
                     candidate_counts_at (judge_ranking tied_frame <$> seq 0 3) 3
                       (unplaced (start_engine tied_frame)) 1))
               (start_engine tied_frame) (snd <$> groups) ∧
    StronglySorted (λ x y : nat * list string, y.1 < x.1) groups.
Proof.
  destruct (proj2 (proj2 (majority_round_qualifiers (judge_ranking tied_frame <$> seq 0 3)
                            (judge_n <$> seq 0 3) 4 (start_engine tied_frame))) 1)
    as (groups & Hloop & _ & _ & Hsorted).
  - lia.
  - by_compute.
  - intros t' Ht'. lia.
  - exists groups. split; [exact Hloop|exact Hsorted].
Defined.

(** C5, as stated, fails: two competitors with the same mean rank get two
    records, at places 1 and 2. *)
Lemma fallback_does_not_share_records :
  ∃ r1 r2,
    determine_majority_placements split_frame [∅] ["Judge 1"] = Ok [r1; r2] ∧
    couples r1 = ["A"] ∧ couples r2 = ["B"] ∧
    mean_rank [∅] 2 1 "A" = mean_rank [∅] 2 1 "B" ∧
    summary r1 = Some (FallbackAverage (mean_rank [∅] 2 1 "A")) ∧
    summary r2 = Some (FallbackAverage (mean_rank [∅] 2 1 "B")) ∧
    place r1 = 1 ∧ place r2 = 2.
Proof.
  eexists _, _. split; [vm_compute; reflexivity|]. by vm_compute.
Qed.

Lemma fallback_orders_by_mean_rank_witness :
  ∃ items,
    items ≡ₚ [("A", mean_rank [∅] 2 1 "A"); ("B", mean_rank [∅] 2 1 "B")] ∧
    placement_loop 2 [∅] ["Judge 1"] 2 2 (start_engine split_frame) =
      Ok (fallback_records 1 items).
Proof.
  destruct (fallback_orders_by_mean_rank 1 [∅] ["Judge 1"] 2 2 (start_engine split_frame))
    as (items & Hperm & Hsorted & Hrun).
  - done.
  - done.
  - intros t Ht. destruct t as [|[|[|t]]]; [lia| | |lia]; by_compute.
  - exists items. split; [exact Hperm|exact Hrun].
Defined.

(** * The other aggregates *)

Import Aggregates.

Lemma py_sum_Permutation l l' : l ≡ₚ l' → py_sum l = py_sum l'.
Proof.
  induction 1 as [|x l l' _ IH|x y l|l l' l'' _ IH1 _ IH2].
  - done.
  - by rewrite !py_sum_cons, IH.
  - rewrite !py_sum_cons. ring.
  - by rewrite IH1.
Qed.

Lemma numeric_fmap_Some l : numeric (Some <$> l) = l.
Proof. unfold numeric. induction l as [|x l IH]; [done|]. cbn. by f_equal. Qed.

Lemma numeric_Permutation scores scores' :
  scores ≡ₚ scores' → numeric scores ≡ₚ numeric scores'.
Proof. intros H. unfold numeric. by rewrite H. Qed.

(** A list has one sorted arrangement. *)
Lemma py_sorted_Qcle_Permutation l l' :
  l ≡ₚ l' → py_sorted Qcle l = py_sorted Qcle l'.
Proof.
  intros H. apply (StronglySorted_unique Qcle).
  - apply py_sorted_StronglySorted; apply _.
  - apply py_sorted_StronglySorted; apply _.
  - by rewrite !py_sorted_Permutation.
Qed.

Lemma py_sorted_Qcle_sorted l :
  StronglySorted Qcle l → py_sorted Qcle l = l.
Proof.
  intros H. apply (StronglySorted_unique Qcle); [|done|].
  - apply py_sorted_StronglySorted; apply _.
  - apply py_sorted_Permutation.
Qed.


Lemma simple_average_value scores :
  numeric scores ≠ [] →
  _simple_average scores =
    Ok (Some (py_sum (numeric scores) / Qc_of_nat (length (numeric scores)))%Qc).
Proof.
  intros Hne. unfold _simple_average. rewrite decide_False by done.
  unfold py_truediv. rewrite decide_False; [done|].
  apply Qc_of_nat_nonzero. by destruct (numeric scores).
Qed.

Lemma simple_average_None scores : numeric scores = [] → _simple_average scores = Ok None.
Proof. intros H. unfold _simple_average. by rewrite decide_True. Qed.

(** In the exact arithmetic of the embedding the sum of a rearranged list
    is the same, and so is its simple average. *)
Lemma simple_average_numeric scores scores' :
  numeric scores ≡ₚ numeric scores' → _simple_average scores = _simple_average scores'.
Proof.
  intros H. unfold _simple_average.
  destruct (decide (numeric scores = [])) as [Hn|Hn].
  - rewrite Hn in H. apply Permutation_nil_l in H. by rewrite decide_True.
  - rewrite decide_False.
    + by rewrite (py_sum_Permutation _ _ H), H.
    + intros Hn'. rewrite Hn' in H. by apply Permutation_nil_r in H.
Qed.

Lemma slice_inner_ends {A} (x y : A) l : slice_inner (x :: l ++ [y]) = l.
Proof.
  unfold slice_inner. cbn [drop length]. rewrite length_app. cbn [length].
  replace (S (length l + 1) - 2) with (length l) by lia.
  apply take_app_length.
Qed.

(** A list of more than two elements is its first element, its inner slice
    and its last element. *)
Lemma slice_inner_split {A} (l : list A) :
  2 ≤ length l → ∃ x y, l = x :: slice_inner l ++ [y].
Proof.
  intros Hlen. destruct l as [|x l]; [simpl in Hlen; lia|].
  destruct (decide (l = [])) as [->|Hl]; [simpl in Hlen; lia|].
  destruct (exists_last Hl) as (l' & y & ->).
  exists x, y. by rewrite slice_inner_ends.
Qed.

Lemma trimmed_average_short scores :
  length (numeric scores) ≤ 2 → _trimmed_average scores = _simple_average scores.
Proof.
  intros Hlen. unfold _trimmed_average.
  rewrite decide_True by (by rewrite py_sorted_length).
  apply simple_average_numeric.
  by rewrite numeric_fmap_Some, py_sorted_Permutation.
Qed.

(** With more than two available scores the trimmed average is the mean of
    the sorted scores without the first and the last. *)
Lemma trimmed_average_long scores :
  2 < length (numeric scores) →
  let trimmed := slice_inner (py_sorted Qcle (numeric scores)) in
  trimmed ≠ [] ∧
  _trimmed_average scores = Ok (Some (py_sum trimmed / Qc_of_nat (length trimmed))%Qc).
Proof.
  intros Hlen trimmed. unfold _trimmed_average. fold trimmed.
  rewrite decide_False by (rewrite py_sorted_length; lia).
  assert (length trimmed = length (numeric scores) - 2) as Htl.
  { unfold trimmed, slice_inner. rewrite length_take, length_drop, py_sorted_length. lia. }
  assert (trimmed ≠ []) as Hne by (intros H; rewrite H in Htl; simpl in Htl; lia).
  split; [done|]. rewrite decide_False by done.
  unfold py_truediv. rewrite decide_False; [done|].
  apply Qc_of_nat_nonzero. lia.
Qed.

Lemma trimmed_average_numeric scores scores' :
  numeric scores ≡ₚ numeric scores' → _trimmed_average scores = _trimmed_average scores'.
Proof.
  intros H. unfold _trimmed_average.
  by rewrite (py_sorted_Qcle_Permutation _ _ H).
Qed.

Lemma py_sorted_ends lo hi l :
  l ≠ [] → Forall (λ v, lo ≤ v ∧ v ≤ hi)%Qc l →
  py_sorted Qcle (lo :: hi :: l) = lo :: py_sorted Qcle l ++ [hi].
Proof.
  intros Hl Hb. apply (StronglySorted_unique Qcle).
  - apply py_sorted_StronglySorted; apply _.
  - assert (lo ≤ hi)%Qc as Hlohi.
    { destruct Hb as [|v l [Hlo Hhi] _]; [done|]. by trans v. }
    apply StronglySorted_cons. split.
    + apply Forall_app. split.
      * rewrite Forall_forall. intros v Hv%py_sorted_elem_of.
        by apply (proj1 (Forall_forall _ _) Hb).
      * by apply Forall_singleton.
    + apply StronglySorted_app. split_and!.
      * intros v1 v2 Hv1%py_sorted_elem_of ->%list_elem_of_singleton.
        by apply (proj1 (Forall_forall _ _) Hb).
      * apply py_sorted_StronglySorted; apply _.
      * repeat constructor.
  - rewrite !py_sorted_Permutation.
    by rewrite (Permutation_app_comm l [hi]).
Qed.

(** X1. With at most two available scores the trimmed average is the simple
    average of the scores. *)
Theorem trimmed_average_two_scores scores :
  length (numeric scores) ≤ 2 → _trimmed_average scores = _simple_average scores.
Proof. apply trimmed_average_short. Qed.

Lemma trimmed_average_two_scores_witness :
  _trimmed_average (scores_of_ints [4; 8]) = _simple_average (scores_of_ints [4; 8]).
Proof. apply trimmed_average_two_scores. vm_compute. lia. Defined.

(** X2. With more than two available scores the trimmed average drops one
    lowest and one highest score and is the mean of the others: when the
    available scores are [lo], [hi] and the scores [l], all of them between
    [lo] and [hi], in any order and among any absent entries, the result is
    the mean of [l]. *)
Theorem trimmed_average_drops_extremes scores lo hi l :
  l ≠ [] →
  numeric scores ≡ₚ lo :: hi :: l →
  Forall (λ v, lo ≤ v ∧ v ≤ hi)%Qc l →
  _trimmed_average scores = Ok (Some (py_sum l / Qc_of_nat (length l))%Qc).
Proof.
  intros Hl Hperm Hb.
  destruct (trimmed_average_long scores) as [_ ->].
  { rewrite Hperm. simpl. destruct l; [done|]. simpl. lia. }
  rewrite (py_sorted_Qcle_Permutation _ _ Hperm), py_sorted_ends by done.
  rewrite slice_inner_ends, py_sorted_length.
  by rewrite (py_sum_Permutation _ _ (py_sorted_Permutation Qcle l)).
Qed.

Lemma trimmed_average_drops_extremes_witness :
  _trimmed_average (scores_of_ints [9; 4] ++ None :: scores_of_ints [1; 6; 5]) =
    Ok (Some (py_sum [Qc_of_nat 4; Qc_of_nat 6; Qc_of_nat 5] / Qc_of_nat 3)%Qc).
Proof.
  apply (trimmed_average_drops_extremes _ (Qc_of_nat 1) (Qc_of_nat 9)).
  - done.
  - by_compute.
  - by_compute.
Defined.

(** X3. The trimmed average depends on the available scores only: neither
    the order of the scores nor the absent entries among them matter. *)
Theorem trimmed_average_order_independent scores scores' :
  numeric scores ≡ₚ numeric scores' →
  _trimmed_average scores = _trimmed_average scores'.
Proof. apply trimmed_average_numeric. Qed.

Lemma trimmed_average_order_independent_witness :
  _trimmed_average (scores_of_ints [3; 1; 2; 7]) =
    _trimmed_average (None :: scores_of_ints [2; 7; 3; 1]).
Proof. apply trimmed_average_order_independent. by_compute. Defined.

Lemma averages_defined scores :
  ∃ b c,
    _simple_average scores = Ok b ∧
    _trimmed_average scores = Ok c ∧
    (b = None ↔ numeric scores = []) ∧
    (c = None ↔ numeric scores = []).
Proof.
  destruct (decide (numeric scores = [])) as [Hn|Hn].
  - exists None, None. split_and!; try done.
    + by apply simple_average_None.
    + rewrite trimmed_average_short by (rewrite Hn; simpl; lia).
      by apply simple_average_None.
  - assert (∃ c, _trimmed_average scores = Ok (Some c)) as [c Hc].
    { destruct (decide (length (numeric scores) ≤ 2)) as [Hlen|Hlen].
      - rewrite trimmed_average_short, simple_average_value by done. eauto.
      - destruct (trimmed_average_long scores) as [_ Hc]; [lia|]. eauto. }
    eexists _, _.
    split_and!; [by apply simple_average_value|exact Hc|..]; by split.
Qed.

Lemma scaled_median_None scores :
  numeric scores = [] → _scaled_median_from_scores scores = Ok None.
Proof. intros Hn. unfold _scaled_median_from_scores. by rewrite decide_True. Qed.

(** X5. Neither the simple nor the trimmed average raises, and each is
    absent exactly when no score is available. The scaled median is absent
    when no score is available, and [OverflowError] is the only exception
    it raises. *)
Theorem aggregates_absent_iff scores :
  (∃ b c,
     _simple_average scores = Ok b ∧
     _trimmed_average scores = Ok c ∧
     (b = None ↔ numeric scores = []) ∧
     (c = None ↔ numeric scores = [])) ∧
  (numeric scores = [] → _scaled_median_from_scores scores = Ok None) ∧
  ((∃ a, _scaled_median_from_scores scores = Ok a) ∨
   _scaled_median_from_scores scores = Raise OverflowError).
Proof.
  split_and!.
  - apply averages_defined.
  - apply scaled_median_None.
  - apply scaled_median_cases.
Qed.






(** ** The totals of a couple *)

Section totals_facts.
Context (py_float : list N → option Qc).

Lemma float_of_int_cases n :
  (∃ x, float_of_int n = Ok x) ∨ float_of_int n = Raise OverflowError.
Proof. unfold float_of_int. cbn zeta. repeat case_decide; eauto. Qed.

Lemma parse_score_cases value :
  (∃ x, _parse_score py_float value = Ok x) ∨
  _parse_score py_float value = Raise OverflowError.
Proof.
  destruct value as [|n|x|s|s]; simpl; eauto.
  - destruct (float_of_int_cases n) as [[x ->]| ->]; simpl; eauto.
  - destruct (parse_text_total py_float s) as (r & -> & _). eauto.
  - destruct (parse_text_total py_float s) as (r & -> & _). eauto.
Qed.

Lemma parse_scores_snoc tokens token :
  parse_scores py_float (tokens ++ [token]) =
    numeric_scores ← parse_scores py_float tokens;
    x ← _parse_score py_float token;
    Ok (numeric_scores ++ [x]).
Proof.
  unfold parse_scores. rewrite foldlM_app.
  destruct (foldlM _ [] tokens) as [ns| |]; [|done..].
  cbn [mbind outcome_bind foldlM].
  by destruct (_parse_score py_float token).
Qed.

(** The list of the normalized tokens, when none of them raises. *)
Lemma parse_scores_Ok tokens :
  Forall (λ token, ∃ x, _parse_score py_float token = Ok x) tokens →
  ∃ numeric_scores,
    parse_scores py_float tokens = Ok numeric_scores ∧
    Forall2 (λ token x, _parse_score py_float token = Ok x) tokens numeric_scores.
Proof.
  induction tokens as [|token tokens IH] using rev_ind; intros H.
  - exists []. split; [done|constructor].
  - apply Forall_app in H as [H1 [[x Hx] _]%Forall_cons].
    destruct (IH H1) as (ns & Hns & Hall).
    exists (ns ++ [x]). split.
    + by rewrite parse_scores_snoc, Hns, Hx.
    + apply Forall2_app; [done|]. by repeat constructor.
Qed.

Lemma parse_scores_cases tokens :
  (∃ ns, parse_scores py_float tokens = Ok ns) ∨
  parse_scores py_float tokens = Raise OverflowError.
Proof.
  induction tokens as [|t tokens IH] using rev_ind.
  - left. by exists [].
  - rewrite parse_scores_snoc. destruct IH as [[ns ->]| ->]; [|by right].
    cbn [mbind outcome_bind].
    destruct (parse_score_cases t) as [[x ->]| ->]; simpl; eauto.
Qed.

Lemma parse_scores_raise tokens :
  Exists (λ token, _parse_score py_float token = Raise OverflowError) tokens →
  parse_scores py_float tokens = Raise OverflowError.
Proof.
  induction tokens as [|token tokens IH] using rev_ind; intros H.
  - by apply Exists_nil in H.
  - rewrite parse_scores_snoc. apply Exists_app in H as [H|H].
    + by rewrite (IH H).
    + apply Exists_cons in H as [H|H]; [|by apply Exists_nil in H].
      destruct (parse_scores_cases tokens) as [[ns ->]| ->]; [|done].
      simpl. by rewrite H.
Qed.

Lemma score_category_value (aggregate : list (option Qc) → outcome (option Qc))
    (categories : gmap string (list pyvalue)) acc code :
  score_category py_float aggregate categories acc code =
    value ← parse_scores py_float (default [] (categories !! code)) ≫= aggregate;
    Ok (acc ++ [(code, value)]).
Proof.
  unfold score_category. cbn zeta. by destruct (parse_scores py_float _).
Qed.

Lemma per_category_Ok (aggregate : list (option Qc) → outcome (option Qc))
    (categories : gmap string (list pyvalue))
    (vals : string → option Qc) codes acc :
  (∀ code, code ∈ codes → (parse_scores py_float (default [] (categories !! code)) ≫= aggregate) = Ok (vals code)) →
  foldlM (score_category py_float aggregate categories) acc codes = Ok (acc ++ ((λ code, (code, vals code)) <$> codes)).
Proof.
  revert acc. induction codes as [|code codes IH]; intros acc Hv.
  - by rewrite app_nil_r.
  - cbn [foldlM]. rewrite score_category_value, (Hv code) by left.
    cbn [mbind outcome_bind].
    rewrite IH by (intros; apply Hv; by right).
    by rewrite <-app_assoc.
Qed.

Lemma per_category_raise (aggregate : list (option Qc) → outcome (option Qc))
    (categories : gmap string (list pyvalue)) codes acc :
  (∀ code, (∃ v, (parse_scores py_float (default [] (categories !! code)) ≫= aggregate) = Ok v) ∨
           (parse_scores py_float (default [] (categories !! code)) ≫= aggregate) = Raise OverflowError) →
  Exists (λ code, (parse_scores py_float (default [] (categories !! code)) ≫= aggregate) = Raise OverflowError) codes →
  foldlM (score_category py_float aggregate categories) acc codes = Raise OverflowError.
Proof.
  intros Hcases. revert acc. induction codes as [|code codes IH]; intros acc H.
  - by apply Exists_nil in H.
  - cbn [foldlM]. rewrite score_category_value. apply Exists_cons in H.
    destruct (Hcases code) as [[v Hv]|Hv]; rewrite Hv; [|done].
    destruct H as [H|H]; [congruence|].
    cbn [mbind outcome_bind]. by apply IH.
Qed.

(** The two averaging score functions, each with its aggregate. *)
Lemma average_function_cases f :
  f ∈ [simple_average_score py_float; trimmed_average_score py_float] →
  ∃ aggregate,
    f = category_scores py_float aggregate ∧
    ∀ scores, ∃ v, aggregate scores = Ok v ∧ (v = None ↔ numeric scores = []).
Proof.
  intros Hf. repeat (apply elem_of_cons in Hf as [->|Hf]).
  - exists _simple_average. split; [done|]. intros scores.
    destruct (averages_defined scores) as (b & c & ? & ? & ? & ?). eauto.
  - exists _trimmed_average. split; [done|]. intros scores.
    destruct (averages_defined scores) as (b & c & ? & ? & ? & ?). eauto.
  - by apply elem_of_nil in Hf.
Qed.

(** The three score functions, each with its aggregate, which returns a
    value or raises [OverflowError]. *)
Lemma score_function_cases f :
  f ∈ [scaled_median py_float; simple_average_score py_float;
       trimmed_average_score py_float] →
  ∃ aggregate,
    f = category_scores py_float aggregate ∧
    ∀ scores, (∃ v, aggregate scores = Ok v) ∨ aggregate scores = Raise OverflowError.
Proof.
  intros Hf. repeat (apply elem_of_cons in Hf as [->|Hf]).
  - exists _scaled_median_from_scores. split; [done|]. apply scaled_median_cases.
  - exists _simple_average. split; [done|]. intros scores.
    destruct (averages_defined scores) as (b & c & ? & ? & ? & ?). eauto.
  - exists _trimmed_average. split; [done|]. intros scores.
    destruct (averages_defined scores) as (b & c & ? & ? & ? & ?). eauto.
  - by apply elem_of_nil in Hf.
Qed.

Lemma numeric_nil_iff scores : numeric scores = [] ↔ Forall (λ s, s = None) scores.
Proof.
  unfold numeric. induction scores as [|[x|] scores IH]; cbn.
  - split; [constructor|done].
  - split; [done|]. by intros [[=] _]%Forall_cons.
  - rewrite IH. split; [by constructor|]. by intros [_ ?]%Forall_cons.
Qed.

(** The value of a category whose tokens are all normalized. *)
Lemma category_value_Ok (aggregate : list (option Qc) → outcome (option Qc))
    (tokens : list pyvalue) :
  (∀ scores, ∃ v, aggregate scores = Ok v ∧ (v = None ↔ numeric scores = [])) →
  Forall (λ token, ∃ x, _parse_score py_float token = Ok x) tokens →
  ∃ v, parse_scores py_float tokens ≫= aggregate = Ok v ∧
       (v = None ↔ Forall (λ token, _parse_score py_float token = Ok None) tokens).
Proof.
  intros Hagg Htok. destruct (parse_scores_Ok tokens Htok) as (ns & -> & Hall).
  destruct (Hagg ns) as (v & Hv & Hnone). exists v. split; [done|].
  rewrite Hnone, numeric_nil_iff. clear -Hall.
  induction Hall as [|token x tokens ns Hx _ IH].
  - split; constructor.
  - rewrite !Forall_cons, IH, Hx. split; [by intros [-> ?]|by intros [[= ->] ?]].
Qed.

Lemma category_value_cases (aggregate : list (option Qc) → outcome (option Qc))
    (tokens : list pyvalue) :
  (∀ scores, (∃ v, aggregate scores = Ok v) ∨ aggregate scores = Raise OverflowError) →
  (∃ v, parse_scores py_float tokens ≫= aggregate = Ok v) ∨
  parse_scores py_float tokens ≫= aggregate = Raise OverflowError.
Proof.
  intros Hagg. destruct (parse_scores_cases tokens) as [[ns ->]| ->]; [|by right].
  apply Hagg.
Qed.

(** X6. When no token of the five categories makes the normalizer raise,
    the simple-average and the trimmed-average score functions return the
    five category codes in their order, the value of a category being absent
    exactly when none of its tokens is a number; the total is absent exactly
    when every category is, and is otherwise the sum of the values that are
    present. *)
Theorem score_totals_sum_available f (categories : gmap string (list pyvalue)) :
  f ∈ [simple_average_score py_float; trimmed_average_score py_float] →
  Forall (λ code, Forall (λ token, ∃ x, _parse_score py_float token = Ok x)
                   (default [] (categories !! code))) CATEGORY_CODES →
  ∃ per_category total,
    f categories = Ok (per_category, total) ∧
    per_category.*1 = CATEGORY_CODES ∧
    (∀ code value, (code, value) ∈ per_category →
       (value = None ↔
        Forall (λ token, _parse_score py_float token = Ok None)
          (default [] (categories !! code)))) ∧
    (total = None ↔ Forall (λ item, item.2 = None) per_category) ∧
    (∀ t, total = Some t → t = py_sum (omap snd per_category)).
Proof.
  intros (aggregate & -> & Hagg)%average_function_cases Hfit.
  assert (∀ code, code ∈ CATEGORY_CODES →
            ∃ v, parse_scores py_float (default [] (categories !! code)) ≫= aggregate = Ok v ∧
                 (v = None ↔ Forall (λ token, _parse_score py_float token = Ok None)
                               (default [] (categories !! code)))) as Hval.
  { intros code Hcode. apply category_value_Ok; [done|].
    by apply (proj1 (Forall_forall _ _) Hfit). }
  set (vals := λ code,
         match parse_scores py_float (default [] (categories !! code)) ≫= aggregate with
         | Ok v => v
         | _ => None
         end).
  assert (∀ code, code ∈ CATEGORY_CODES →
            parse_scores py_float (default [] (categories !! code)) ≫= aggregate =
              Ok (vals code)) as Hvals.
  { intros code (v & Hv & _)%Hval. unfold vals. by rewrite Hv. }
  exists ((λ code, (code, vals code)) <$> CATEGORY_CODES). eexists.
  unfold category_scores. rewrite (per_category_Ok _ _ vals) by done.
  cbn [mbind outcome_bind app]. split; [done|]. split; [done|].
  set (per := (λ code, (code, vals code)) <$> CATEGORY_CODES).
  assert (omap snd per = [] ↔ Forall (λ item, item.2 = None) per) as Hnone.
  { generalize per. intros l. induction l as [|[c [x|]] l IH]; cbn.
    - split; [constructor|done].
    - split; [done|]. by intros [[=] _]%Forall_cons.
    - rewrite IH. split; [by constructor|]. by intros [_ ?]%Forall_cons. }
  split_and!.
  - intros code value (code' & [= -> ->] & Hcode)%list_elem_of_fmap.
    destruct (Hval code' Hcode) as (v & Hv & Hiff).
    rewrite Hvals in Hv by done. by injection Hv as ->.
  - rewrite <-Hnone. by case_decide.
  - case_decide; [done|]. by intros t [= <-].
Qed.

(** X7. An [int] token beyond the range of a double in one of the five
    categories makes each of the three score functions raise
    [OverflowError], whatever the other tokens are. *)
Theorem score_totals_int_overflow f (categories : gmap string (list pyvalue)) code tokens n :
  f ∈ [scaled_median py_float; simple_average_score py_float;
       trimmed_average_score py_float] →
  code ∈ CATEGORY_CODES → categories !! code = Some tokens → PyInt n ∈ tokens →
  float_of_int n = Raise OverflowError →
  f categories = Raise OverflowError.
Proof.
  intros (aggregate & -> & Hagg)%score_function_cases Hcode Hc Hn Hover.
  unfold category_scores. rewrite per_category_raise; [done| |].
  - intros c. by apply category_value_cases.
  - apply Exists_exists. exists code. split; [done|].
    rewrite Hc. simpl. rewrite parse_scores_raise; [done|].
    apply Exists_exists. exists (PyInt n). split; [done|].
    simpl. by rewrite Hover.
Qed.

Lemma category_scores_frame (aggregate : list (option Qc) → outcome (option Qc))
    (categories : gmap string (list pyvalue)) code tokens :
  code ∉ CATEGORY_CODES →
  category_scores py_float aggregate (<[code := tokens]> categories) =
    category_scores py_float aggregate categories.
Proof.
  intros Hcode. unfold category_scores.
  assert (∀ codes acc, codes ⊆ CATEGORY_CODES →
            foldlM (score_category py_float aggregate (<[code := tokens]> categories))
              acc codes =
            foldlM (score_category py_float aggregate categories) acc codes) as ->;
    [|done|done].
  intros codes. induction codes as [|c codes IH]; intros acc Hsub; [done|].
  cbn [foldlM]. rewrite !score_category_value.
  rewrite lookup_insert_ne.
  2:{ intros ->. apply Hcode, Hsub. left. }
  destruct (_ ≫= aggregate) as [v| |]; [|done..].
  cbn [mbind outcome_bind]. apply IH. intros x Hx. apply Hsub. by right.
Qed.
End totals_facts.

Lemma score_totals_sum_available_witness :
  ∃ per_category total,
    simple_average_score (λ _, None)
      {[ "BBW" := [PyInt 5; PyNone; PyFloat 1%Qc]; "MI" := [PyInt 7] ]} =
      Ok (per_category, total) ∧
    per_category.*1 = CATEGORY_CODES ∧
    (total = None ↔ Forall (λ item, item.2 = None) per_category).
Proof.
  destruct (score_totals_sum_available (λ _, None)
              (simple_average_score (λ _, None))
              {[ "BBW" := [PyInt 5; PyNone; PyFloat 1%Qc]; "MI" := [PyInt 7] ]})
    as (per_category & total & Hrun & Hcodes & _ & Hnone & _).
  - left.
  - repeat constructor; by eexists.
  - exists per_category, total. split; [exact Hrun|]. split; [exact Hcodes|exact Hnone].
Defined.

Lemma score_totals_int_overflow_witness :
  trimmed_average_score (λ _, None)
    {[ "BBW" := [PyFloat 1%Qc]; "LF" := [PyFloat 1%Qc; PyInt (10 ^ 400)] ]} =
    Raise OverflowError.
Proof.
  apply (score_totals_int_overflow (λ _, None) (trimmed_average_score (λ _, None)) _
           "LF" [PyFloat 1%Qc; PyInt (10 ^ 400)] (10 ^ 400)).
  - right. right. left.
  - by_compute.
  - done.
  - right. left.
  - by vm_compute.
Defined.

(** X8. The three score functions read the five category codes only: an
    entry of the input under any other key does not change the result. *)
Theorem score_totals_ignore_other_codes py_float (categories : gmap string (list pyvalue))
    code tokens :
  code ∉ CATEGORY_CODES →
  scaled_median py_float (<[code := tokens]> categories) =
    scaled_median py_float categories ∧
  simple_average_score py_float (<[code := tokens]> categories) =
    simple_average_score py_float categories ∧
  trimmed_average_score py_float (<[code := tokens]> categories) =
    trimmed_average_score py_float categories.
Proof.
  intros Hcode. unfold scaled_median, simple_average_score, trimmed_average_score.
  by rewrite !category_scores_frame.
Qed.

Lemma score_totals_ignore_other_codes_witness :
  scaled_median (λ _, None) (<["XX" := [PyInt 3]]> {[ "BBW" := [PyInt 5] ]}) =
    scaled_median (λ _, None) {[ "BBW" := [PyInt 5] ]}.
Proof.
  destruct (score_totals_ignore_other_codes (λ _, None) {[ "BBW" := [PyInt 5] ]}
              "XX" [PyInt 3]) as [H _].
  - by_compute.
  - exact H.
Defined.

(** * More on the dashboard *)

(** ** Head-to-head comparisons *)

Lemma rank_lt_ne r1 r2 : r1 ≠ r2 ↔ rank_lt r1 r2 = true ∨ rank_lt r2 r1 = true.
Proof.
  destruct r1 as [x|], r2 as [y|]; simpl; rewrite ?bool_decide_eq_true.
  - split; [|intros [?|?] [= ->]; lia].
    intros H. destruct (decide (x < y)); [by left|right].
    assert (x ≠ y) by congruence. lia.
  - split; [by left|done].
  - split; [by right|done].
  - split; [done|by intros [?|?]].
Qed.

Lemma head_to_head_acc jr a b (wins : nat * nat) :
  foldl (λ wins (ranking : gmap string nat),
           let rank_a := ranking !! a in
           let rank_b := ranking !! b in
           if rank_lt rank_a rank_b then (S wins.1, wins.2)
           else if rank_lt rank_b rank_a then (wins.1, S wins.2)
           else wins)
        wins jr =
    (wins.1 + length (filter (λ r : gmap string nat, rank_lt (r !! a) (r !! b) = true) jr),
     wins.2 + length (filter (λ r : gmap string nat, rank_lt (r !! b) (r !! a) = true) jr)).
Proof.
  revert wins. induction jr as [|r jr IH]; intros [w1 w2]; cbn [foldl].
  - simpl. f_equal; lia.
  - rewrite IH. rewrite !filter_cons. cbn zeta.
    destruct (rank_lt (r !! a) (r !! b)) eqn:Hab.
    + rewrite (rank_lt_asym _ _ Hab).
      rewrite decide_True by done. rewrite decide_False by done.
      simpl. f_equal; lia.
    + rewrite (decide_False (P := false = true)) by done.
      destruct (rank_lt (r !! b) (r !! a)) eqn:Hba.
      * rewrite decide_True by done. simpl. f_equal; lia.
      * rewrite decide_False by done. done.
Qed.

Lemma head_to_head_filter jr a b :
  head_to_head jr a b =
    (length (filter (λ r : gmap string nat, rank_lt (r !! a) (r !! b) = true) jr),
     length (filter (λ r : gmap string nat, rank_lt (r !! b) (r !! a) = true) jr)).
Proof. unfold head_to_head. by rewrite head_to_head_acc. Qed.

(** X9. The head-to-head count of two competitors: the wins of each are the
    judges that rank it strictly better, a missing rank being the worst;
    swapping the competitors swaps the counts; and the two counts add up to
    the number of judges that rank the two differently, so that a 0-0
    result means that every judge ranks them the same. *)
Theorem head_to_head_counts judge_rankings a b :
  let wins := head_to_head judge_rankings a b in
  wins.1 = length (filter (λ r : gmap string nat, rank_lt (r !! a) (r !! b) = true)
                     judge_rankings) ∧
  wins.2 = length (filter (λ r : gmap string nat, rank_lt (r !! b) (r !! a) = true)
                     judge_rankings) ∧
  head_to_head judge_rankings b a = (wins.2, wins.1) ∧
  wins.1 + wins.2 =
    length (filter (λ r : gmap string nat, r !! a ≠ r !! b) judge_rankings) ∧
  (wins = (0, 0) ↔ Forall (λ r : gmap string nat, r !! a = r !! b) judge_rankings).
Proof.
  cbn zeta. rewrite !head_to_head_filter. cbn [fst snd].
  split; [done|]. split; [done|]. split; [done|].
  assert (length (filter (λ r : gmap string nat, rank_lt (r !! a) (r !! b) = true)
                    judge_rankings) +
          length (filter (λ r : gmap string nat, rank_lt (r !! b) (r !! a) = true)
                    judge_rankings) =
          length (filter (λ r : gmap string nat, r !! a ≠ r !! b) judge_rankings)) as Hsum.
  { induction judge_rankings as [|r jr IH]; [done|].
    rewrite !filter_cons.
    destruct (rank_lt (r !! a) (r !! b)) eqn:Hab.
    - rewrite (rank_lt_asym _ _ Hab).
      rewrite decide_True by done. rewrite decide_False by done.
      rewrite decide_True by (apply rank_lt_ne; by left). simpl. lia.
    - rewrite (decide_False (P := false = true)) by done.
      destruct (rank_lt (r !! b) (r !! a)) eqn:Hba.
      + rewrite decide_True by done.
        rewrite decide_True by (apply rank_lt_ne; rewrite Hba; by right). simpl. lia.
      + rewrite decide_False by done.
        rewrite decide_False; [done|].
        rewrite rank_lt_ne, Hab, Hba. by intros [?|?]. }
  split; [done|].
  split.
  - intros [= H1 H2]. rewrite H1, H2 in Hsum.
    assert (filter (λ r : gmap string nat, r !! a ≠ r !! b) judge_rankings = []) as Hnil.
    { apply length_zero_iff_nil. by rewrite <-Hsum. }
    rewrite Forall_forall. intros r Hr.
    destruct (decide (r !! a = r !! b)) as [|Hne]; [done|].
    assert (r ∈ filter (λ r : gmap string nat, r !! a ≠ r !! b) judge_rankings) as Hin
      by (by apply list_elem_of_filter).
    rewrite Hnil in Hin. by apply elem_of_nil in Hin.
  - intros Hall.
    assert (filter (λ r : gmap string nat, r !! a ≠ r !! b) judge_rankings = []) as Hnil.
    { apply filter_none. eapply Forall_impl; [exact Hall|]. intros r Hr. simpl. tauto. }
    rewrite Hnil in Hsum. simpl in Hsum. f_equal; lia.
Qed.

(** ** More on the round combiner *)

Lemma combine_slot_comm x y : combine_slot x y = combine_slot y x.
Proof. destruct x, y; simpl; try done. f_equal. ring. Qed.

Lemma combine_slot_None_r x : combine_slot x None = x.
Proof. destruct x; simpl; [|done]. f_equal. ring. Qed.

Lemma combine_scores_lookup scores_a scores_b idx :
  combine_scores scores_a scores_b !! idx =
    if decide (idx < length scores_a `max` length scores_b)
    then Some (combine_slot (mjoin (scores_a !! idx)) (mjoin (scores_b !! idx)))
    else None.
Proof.
  unfold combine_scores. rewrite list_lookup_fmap.
  case_decide as Hidx.
  - by rewrite lookup_seq_lt.
  - by rewrite lookup_seq_ge by lia.
Qed.

(** X10. Summing the score lists of two rounds slot by slot does not depend
    on the order of the rounds; the sum is as long as the longer list, a
    slot being absent when it is absent in both rounds, the score of the
    one round that has it, or the sum of the two; and a round without
    scores leaves the list of the other unchanged. *)
Theorem combine_scores_commutative scores_a scores_b :
  combine_scores scores_a scores_b = combine_scores scores_b scores_a ∧
  length (combine_scores scores_a scores_b) = length scores_a `max` length scores_b ∧
  (∀ idx, idx < length scores_a `max` length scores_b →
     combine_scores scores_a scores_b !! idx =
       Some match mjoin (scores_a !! idx), mjoin (scores_b !! idx) with
            | Some a, Some b => Some (a + b)%Qc
            | Some a, None => Some a
            | None, Some b => Some b
            | None, None => None
            end) ∧
  combine_scores scores_a [] = scores_a.
Proof.
  split_and!.
  - apply list_eq. intros idx. rewrite !combine_scores_lookup.
    rewrite (Nat.max_comm (length scores_b)). case_decide; [|done].
    by rewrite combine_slot_comm.
  - unfold combine_scores. by rewrite length_fmap, length_seq.
  - intros idx Hidx. rewrite combine_scores_lookup, decide_True by done.
    f_equal. destruct (mjoin (scores_a !! idx)), (mjoin (scores_b !! idx)); simpl;
      try done; f_equal; ring.
  - apply list_eq. intros idx. rewrite combine_scores_lookup.
    simpl. rewrite Nat.max_0_r. case_decide as Hidx.
    + rewrite combine_slot_None_r.
      destruct (lookup_lt_is_Some_2 scores_a idx Hidx) as [x ->]. done.
    + symmetry. apply lookup_ge_None. lia.
Qed.

(** The ids of a combined frame are the sorted ids of the two frames. *)
Lemma combine_rounds_ids df_current df_other :
  df_current ≠ [] → df_other ≠ [] →
  str_start_number <$> combine_rounds_for_majority df_current df_other =
    py_sorted String.le (elements (dom (row_map df_current) ∪ dom (row_map df_other))).
Proof.
  intros Hc Ho. unfold combine_rounds_for_majority.
  rewrite !decide_False by done. cbn zeta.
  set (keys := py_sorted String.le _).
  assert (∀ k, k ∈ keys → k ∈ dom (row_map df_current) ∪ dom (row_map df_other)) as Hkeys.
  { intros k Hk. unfold keys in Hk. rewrite py_sorted_elem_of in Hk.
    by apply elem_of_elements in Hk. }
  induction keys as [|k keys IH]; [done|].
  cbn [mbind list_bind]. rewrite fmap_app, IH by (intros; apply Hkeys; by right).
  assert (k ∈ dom (row_map df_current) ∪ dom (row_map df_other)) as Hk
    by (apply Hkeys; left).
  destruct (row_map df_current !! k) as [base|] eqn:Hb;
    destruct (row_map df_other !! k) as [other|] eqn:Hot.
  - cbn [fmap list_fmap app]. f_equal.
    apply row_map_lookup_Some in Hb as [_ Hb].
    unfold str_start_number in *. by rewrite combine_row_start_number.
  - cbn [fmap list_fmap app]. f_equal. by apply row_map_lookup_Some in Hb as [_ Hb].
  - cbn [fmap list_fmap app]. f_equal. by apply row_map_lookup_Some in Hot as [_ Hot].
  - apply elem_of_union in Hk as [Hk|Hk]; apply elem_of_dom in Hk as [? Hk]; congruence.
Qed.

Lemma row_map_dom df : dom (row_map df) = list_to_set (str_start_number <$> df).
Proof.
  induction df as [|r df IH] using rev_ind; [done|].
  rewrite row_map_snoc, dom_insert_L, IH, fmap_app, list_to_set_app_L. simpl.
  rewrite union_empty_r_L. apply (comm_L (∪)).
Qed.

(** X11. When both rounds have rows, the combined frame lists the
    competitors of either round once each, in ascending order of the id
    strings. *)
Theorem combine_rounds_competitors df_current df_other :
  df_current ≠ [] → df_other ≠ [] →
  let ids := str_start_number <$> combine_rounds_for_majority df_current df_other in
  StronglySorted String.le ids ∧ NoDup ids ∧
  (∀ id, id ∈ ids ↔
     id ∈ str_start_number <$> df_current ∨ id ∈ str_start_number <$> df_other).
Proof.
  intros Hc Ho. cbn zeta. rewrite combine_rounds_ids by done. split_and!.
  - apply py_sorted_StronglySorted; apply _.
  - apply py_sorted_NoDup, NoDup_elements.
  - intros id. rewrite py_sorted_elem_of, elem_of_elements, elem_of_union.
    by rewrite !row_map_dom, !elem_of_list_to_set.
Qed.

Lemma combine_rounds_competitors_witness :
  str_start_number <$> combine_rounds_for_majority slow_round fast_round =
    ["12"; "7"; "9"] ∧
  NoDup (str_start_number <$> combine_rounds_for_majority slow_round fast_round).
Proof.
  destruct (combine_rounds_competitors slow_round fast_round) as (_ & Hnodup & _).
  - done.
  - done.
  - split; [by_compute|exact Hnodup].
Defined.

(** X12. A competitor that only one of the two rounds has goes into the
    combined frame with its row of that round, unchanged. *)
Theorem combine_rounds_single_round df_current df_other r :
  NoDup (str_start_number <$> df_current) →
  NoDup (str_start_number <$> df_other) →
  (r ∈ df_current ∧ str_start_number r ∉ str_start_number <$> df_other) ∨
  (r ∈ df_other ∧ str_start_number r ∉ str_start_number <$> df_current) →
  filter (λ x, str_start_number x = str_start_number r)
    (combine_rounds_for_majority df_current df_other) = [r].
Proof.
  intros Hnc Hno Hr.
  assert (∀ df, NoDup (str_start_number <$> df) → r ∈ df →
            filter (λ x, str_start_number x = str_start_number r) df = [r]) as Hone.
  { intros df Hnd Hin. apply list_elem_of_split in Hin as (l1 & l2 & ->).
    rewrite fmap_app, fmap_cons in Hnd.
    apply NoDup_app in Hnd as (_ & Hdisj & [Hnot _]%NoDup_cons).
    rewrite filter_app, filter_cons, decide_True by done.
    rewrite !filter_none; [done| |].
    - rewrite Forall_forall. intros x Hx Heq. apply Hnot.
      rewrite <-Heq. apply list_elem_of_fmap. by exists x.
    - rewrite Forall_forall. intros x Hx Heq.
      destruct (Hdisj (str_start_number r)).
      + rewrite <-Heq. apply list_elem_of_fmap. by exists x.
      + left. }
  assert (∀ df, str_start_number r ∉ str_start_number <$> df →
            row_map df !! str_start_number r = None) as Hnone.
  { intros df Hnot. apply not_elem_of_dom. by rewrite row_map_dom, elem_of_list_to_set. }
  unfold combine_rounds_for_majority.
  destruct (decide (df_current = [])) as [->|Hc].
  { destruct Hr as [[Hin _]|[Hin _]]; [by apply elem_of_nil in Hin|by apply Hone]. }
  destruct (decide (df_other = [])) as [->|Ho].
  { destruct Hr as [[Hin _]|[Hin _]]; [by apply Hone|by apply elem_of_nil in Hin]. }
  cbn zeta.
  rewrite (bind_filter_unique _ _ (str_start_number r)).
  - destruct Hr as [[Hin Hnot]|[Hin Hnot]].
    + by rewrite (row_map_lookup_elem _ _ Hnc Hin), (Hnone _ Hnot).
    + by rewrite (row_map_lookup_elem _ _ Hno Hin), (Hnone _ Hnot).
  - intros k x Hx. assert (str_start_number x = k) as <-; [|split; congruence].
    destruct (row_map df_current !! k) as [base|] eqn:Hb;
      destruct (row_map df_other !! k) as [other|] eqn:Hot.
    + apply list_elem_of_singleton in Hx as ->.
      apply row_map_lookup_Some in Hb as [_ Hb].
      unfold str_start_number in *. by rewrite combine_row_start_number.
    + apply list_elem_of_singleton in Hx as ->.
      by apply row_map_lookup_Some in Hb as [_ Hb].
    + apply list_elem_of_singleton in Hx as ->.
      by apply row_map_lookup_Some in Hot as [_ Hot].
    + by apply elem_of_nil in Hx.
  - apply py_sorted_NoDup, NoDup_elements.
  - rewrite py_sorted_elem_of, elem_of_elements, elem_of_union, !row_map_dom,
      !elem_of_list_to_set.
    destruct Hr as [[Hin _]|[Hin _]]; [left|right]; apply list_elem_of_fmap; eauto.
Qed.

Lemma combine_rounds_single_round_witness :
  filter (λ x, str_start_number x = "12")
    (combine_rounds_for_majority slow_round fast_round) =
    [scored_row "12" [("BBW", int_scores [2; 2])]].
Proof.
  apply (combine_rounds_single_round slow_round fast_round
           (scored_row "12" [("BBW", int_scores [2; 2])])).
  - by_compute.
  - by_compute.
  - left. split; [right; right; left|by_compute].
Defined.

(** ** The rankings of the judges are complete *)

Lemma assign_ranks_range rest pos prev ranking id :
  1 ≤ pos →
  match prev with Some (_, r') => 1 ≤ r' < pos | None => True end →
  id ∈ rest.*1 →
  ∃ r, assign_ranks rest pos prev ranking !! id = Some r ∧ 1 ≤ r < pos + length rest.
Proof.
  revert pos prev ranking.
  induction rest as [|[sn score] rest IH]; intros pos prev ranking Hpos Hprev Hid.
  { by apply elem_of_nil in Hid. }
  cbn [assign_ranks length].
  assert (∀ prev' r0,
            match prev' with Some (_, r') => 1 ≤ r' < S pos | None => True end →
            1 ≤ r0 < S pos →
            ∃ r, assign_ranks rest (S pos) prev' (<[sn := r0]> ranking) !! id = Some r ∧
                 1 ≤ r < pos + S (length rest)) as Hstep.
  { intros prev' r0 Hprev' Hr0.
    destruct (decide (id ∈ rest.*1)) as [Hin|Hnot].
    - destruct (IH (S pos) prev' (<[sn := r0]> ranking)) as (r & Hr & ?);
        [lia|exact Hprev'|exact Hin|].
      exists r. split; [done|lia].
    - rewrite assign_ranks_other by done.
      rewrite fmap_cons in Hid. apply elem_of_cons in Hid as [->|Hid]; [|done].
      simpl. rewrite lookup_insert_eq. exists r0. split; [done|lia]. }
  destruct prev as [[prev_score prev_rank]|].
  - case_decide.
    + apply Hstep; lia.
    + apply Hstep; lia.
  - apply Hstep; lia.
Qed.

Lemma assign_ranks_dom rest pos prev ranking :
  dom (assign_ranks rest pos prev ranking) = list_to_set rest.*1 ∪ dom ranking.
Proof.
  revert pos prev ranking.
  induction rest as [|[sn score] rest IH]; intros pos prev ranking; cbn [assign_ranks].
  - simpl. by rewrite union_empty_l_L.
  - assert (∀ prev' r0,
              dom (assign_ranks rest (S pos) prev' (<[sn := r0]> ranking)) =
                list_to_set ((sn, score) :: rest).*1 ∪ dom ranking) as Hstep.
    { intros prev' r0. rewrite IH, dom_insert_L. simpl.
      by rewrite (assoc_L (∪)), (comm_L (∪) _ {[sn]}). }
    destruct prev as [[prev_score prev_rank]|]; [case_decide|]; apply Hstep.
Qed.

Lemma judge_ranking_complete df judge_idx :
  dom (judge_ranking df judge_idx) = list_to_set (str_start_number <$> df) ∧
  ∀ id, id ∈ str_start_number <$> df →
    ∃ r, judge_ranking df judge_idx !! id = Some r ∧ 1 ≤ r ≤ length df.
Proof.
  unfold judge_ranking.
  assert ((py_sorted totals_le (judge_totals df judge_idx)).*1 ≡ₚ str_start_number <$> df)
    as Hids.
  { rewrite py_sorted_Permutation. unfold judge_totals.
    rewrite <-list_fmap_compose. done. }
  split.
  - rewrite assign_ranks_dom, dom_empty_L, union_empty_r_L.
    apply set_eq. intros x. by rewrite !elem_of_list_to_set, Hids.
  - intros id Hid.
    destruct (assign_ranks_range (py_sorted totals_le (judge_totals df judge_idx)) 1 None ∅ id)
      as (r & Hr & Hrange); [lia|done|by rewrite Hids|].
    exists r. split; [done|].
    rewrite py_sorted_length in Hrange. unfold judge_totals in Hrange.
    rewrite length_fmap in Hrange. lia.
Qed.

Lemma judge_names_for_length first_word judges_list num_judges judge_names :
  judge_names_for first_word judges_list num_judges = Ok judge_names →
  length judge_names = num_judges.
Proof.
  unfold judge_names_for. case_decide.
  - assert (∀ idxs acc names,
              foldlM (λ judge_names idx,
                        first_name ← judge_name first_word
                                       (py_sorted letter_le judges_list) idx;
                        Ok (judge_names ++ [first_name]))
                     acc idxs = Ok names →
              length names = length acc + length idxs) as Hlen.
    { induction idxs as [|idx idxs IH]; intros acc names; cbn [foldlM].
      - intros [= <-]. simpl. lia.
      - destruct (judge_name _ _ _) as [first_name| |]; [|done..].
        cbn [mbind outcome_bind]. intros Hn%IH.
        rewrite length_app in Hn. simpl in *. lia. }
    intros Hn%Hlen. by rewrite length_seq in Hn.
  - intros [= <-]. by rewrite length_fmap, length_seq.
Qed.

Lemma build_rankings_spec first_word df judges_list judge_rankings judge_names :
  build_judge_rankings_for_subset first_word df judges_list =
    Ok (judge_rankings, judge_names) →
  length judge_rankings = length judge_names ∧
  (judge_rankings ≠ [] → df ≠ []) ∧
  ∀ ranking, ranking ∈ judge_rankings →
    dom ranking = list_to_set (str_start_number <$> df) ∧
    ∀ id, id ∈ str_start_number <$> df →
      ∃ r, ranking !! id = Some r ∧ 1 ≤ r ≤ length df.
Proof.
  unfold build_judge_rankings_for_subset.
  case_decide as Hdf.
  { intros [= <- <-]. split; [done|]. split; [done|]. by intros ? ?%elem_of_nil. }
  cbn zeta. case_decide as Hn.
  { intros [= <- <-]. split; [done|]. split; [done|]. by intros ? ?%elem_of_nil. }
  destruct (judge_names_for _ _ _) as [names| |] eqn:Hnames; [|done..].
  cbn [mbind outcome_bind]. intros [= <- <-].
  apply judge_names_for_length in Hnames.
  split; [by rewrite length_fmap, length_seq|]. split; [done|].
  intros ranking (judge_idx & -> & _)%list_elem_of_fmap.
  apply judge_ranking_complete.
Qed.

(** X13. The builder returns as many rankings as judge names, and each
    ranking ranks exactly the competitors of the frame, every rank lying
    between 1 and the number of rows. *)
Theorem build_rankings_complete first_word df judges_list judge_rankings judge_names :
  build_judge_rankings_for_subset first_word df judges_list =
    Ok (judge_rankings, judge_names) →
  length judge_rankings = length judge_names ∧
  ∀ ranking, ranking ∈ judge_rankings →
    dom ranking = list_to_set (str_start_number <$> df) ∧
    ∀ id, id ∈ str_start_number <$> df →
      ∃ r, ranking !! id = Some r ∧ 1 ≤ r ≤ length df.
Proof. intros (? & _ & ?)%build_rankings_spec. done. Qed.

Lemma build_rankings_complete_witness :
  ∃ judge_rankings judge_names,
    build_judge_rankings_for_subset first_word_ascii tied_frame [] =
      Ok (judge_rankings, judge_names) ∧
    length judge_rankings = length judge_names ∧
    ∀ ranking, ranking ∈ judge_rankings →
      dom ranking = list_to_set (str_start_number <$> tied_frame).
Proof.
  exists (judge_ranking tied_frame <$> seq 0 3), (judge_n <$> seq 0 3).
  assert (build_judge_rankings_for_subset first_word_ascii tied_frame [] =
            Ok (judge_ranking tied_frame <$> seq 0 3, judge_n <$> seq 0 3)) as Hrun
    by done.
  destruct (build_rankings_complete _ _ _ _ _ Hrun) as [Hlen Hall].
  split; [exact Hrun|]. split; [exact Hlen|].
  intros ranking Hr. exact (proj1 (Hall ranking Hr)).
Defined.

(** ** Runs of the placement engine on complete rankings *)

Lemma count_within_complete (jr : list (gmap string nat)) c n :
  (∀ ranking, ranking ∈ jr → ∃ r, ranking !! c = Some r ∧ r ≤ n) →
  count_within jr c n = length jr.
Proof.
  intros Hall. unfold count_within. rewrite filter_all; [done|].
  rewrite Forall_forall. intros ranking (r & -> & Hr)%Hall. simpl.
  by apply bool_decide_eq_true.
Qed.

Lemma threshold_loop_true jr jn thresholds st st' :
  threshold_loop jr jn thresholds st = Ok (true, st') →
  ∃ t, t ∈ thresholds ∧
       candidate_counts_at jr (length jn) (unplaced st) t ≠ ∅ ∧
       place_majority jr jn t (candidate_counts_at jr (length jn) (unplaced st) t) st =
         Ok st'.
Proof.
  induction thresholds as [|t thresholds IH]; cbn [threshold_loop]; [done|].
  cbn zeta. case_decide as Hcc.
  - destruct (place_majority _ _ _ _ _) as [st1| |] eqn:Hpm; [|done..].
    cbn [mbind outcome_bind]. intros [= <-]. exists t. split; [left|done].
  - intros (t' & Ht' & ?)%IH. exists t'. split; [by right|done].
Qed.

Lemma threshold_loop_false jr jn thresholds st st' :
  threshold_loop jr jn thresholds st = Ok (false, st') →
  ∀ t, t ∈ thresholds → candidate_counts_at jr (length jn) (unplaced st) t = ∅.
Proof.
  induction thresholds as [|t thresholds IH]; cbn [threshold_loop].
  { by intros _ t ?%elem_of_nil. }
  cbn zeta. case_decide as Hcc.
  - by destruct (place_majority _ _ _ _ _).
  - intros Hrun t' [->|Ht']%elem_of_cons; [|by apply IH].
    destruct (decide (candidate_counts_at jr (length jn) (unplaced st) t = ∅)); [done|].
    by destruct Hcc.
Qed.

(** What a loop over the engine appends to the records. *)
Lemma foldlM_appends {B} (f : engine → B → outcome engine) (P : placement → Prop)
    (Q : B → Prop) l st st' :
  (∀ st b st', Q b → f st b = Ok st' →
     ∃ new, placement_records st' = placement_records st ++ new ∧ Forall P new) →
  Forall Q l → foldlM f st l = Ok st' →
  ∃ new, placement_records st' = placement_records st ++ new ∧ Forall P new.
Proof.
  intros Hf Hl. revert st. induction Hl as [|b l Hb _ IH]; intros st; cbn [foldlM].
  - intros [= <-]. exists []. by rewrite app_nil_r.
  - destruct (f st b) as [st1| |] eqn:Hst1; [|done..].
    cbn [mbind outcome_bind]. intros (new2 & Hnew2 & HP2)%IH.
    destruct (Hf st b st1 Hb Hst1) as (new1 & Hnew1 & HP1).
    exists (new1 ++ new2). rewrite Hnew2, Hnew1, <-app_assoc.
    split; [done|]. by apply Forall_app.
Qed.

Lemma place_group_record summary_map info st group st' :
  place_group summary_map info st group = Ok st' →
  ∃ first record,
    head group = Some first ∧
    placement_records st' = placement_records st ++ [record] ∧
    place record = next_place st ∧ couples record = group ∧
    summary record = summary_map !! first.
Proof.
  unfold place_group, py_index. destruct group as [|first group]; [done|].
  cbn [lookup list_lookup of_option mbind outcome_bind]. intros [= <-].
  eexists first, _. cbn. done.
Qed.

Lemma place_tie_group_records jr jn (summary_map : gmap string note) (P : placement → Prop)
    st group st' :
  group ≠ [] →
  (∀ record first, head (couples record) = Some first → first ∈ group →
     summary record = summary_map !! first → P record) →
  place_tie_group jr jn summary_map st group = Ok st' →
  ∃ new, placement_records st' = placement_records st ++ new ∧ Forall P new.
Proof.
  intros Hne HP. unfold place_tie_group.
  destruct (resolve_ties_ok group jr jn) as (groups & info & -> & Hperm & Hgroups).
  cbn [mbind outcome_bind].
  apply (foldlM_appends _ P (λ g, ∃ first, head g = Some first ∧ first ∈ group)).
  - intros st0 g st1 (first & Hhead & Hin) Hpg.
    apply place_group_record in Hpg as (first' & record & Hh & Hrec & _ & Hc & Hs).
    exists [record]. split; [done|]. apply Forall_singleton.
    rewrite Hhead in Hh. injection Hh as <-.
    apply (HP record first); [by rewrite Hc|done|done].
  - rewrite Forall_forall. intros g Hg.
    pose proof (proj1 (Forall_forall _ _) (Hgroups Hne) g Hg) as Hgne.
    destruct g as [|first g]; [done|]. exists first. split; [done|].
    rewrite <-Hperm. apply elem_of_concat. exists (first :: g). split; [left|done].
Qed.

Lemma place_majority_records jr jn t (cc : gmap string nat) st st' :
  (∀ c, is_Some (cc !! c) → c ∈ unplaced st) →
  place_majority jr jn t cc st = Ok st' →
  ∃ new, placement_records st' = placement_records st ++ new ∧
    Forall (λ record, ∃ first k, head (couples record) = Some first ∧
                        cc !! first = Some k ∧
                        summary record = Some (Majority t k (length jn))) new.
Proof.
  intros Hcc.
  destruct (place_majority_groups jr jn t cc st Hcc) as (groups & -> & _ & Hmem & _ & Hne).
  apply (foldlM_appends _ _ (λ g, g ≠ [] ∧ ∀ c, c ∈ g → is_Some (cc !! c))).
  - intros st0 g st1 [Hg Hall].
    apply place_tie_group_records; [done|].
    intros record first Hhead Hin Hsum.
    destruct (Hall first Hin) as [k Hk].
    exists first, k. split; [done|]. split; [done|].
    by rewrite Hsum, lookup_fmap, Hk.
  - rewrite Forall_forall. intros g Hg.
    split; [by apply (proj1 (Forall_forall _ _) Hne)|].
    apply list_elem_of_fmap in Hg as ([k g'] & -> & Hin).
    intros c Hc. exists k. by apply (Hmem k g').
Qed.

(** The records of a pass that finds a majority. *)
Lemma threshold_loop_records jr jn thresholds st st' :
  threshold_loop jr jn thresholds st = Ok (true, st') →
  ∃ new, placement_records st' = placement_records st ++ new ∧
    Forall (λ record, ∃ t k, t ∈ thresholds ∧
                        summary record = Some (Majority t k (length jn)) ∧
                        length jn < 2 * k) new.
Proof.
  intros (t & Ht & _ & Hpm)%threshold_loop_true.
  apply place_majority_records in Hpm as (new & Hnew & Hall).
  - exists new. split; [done|]. eapply Forall_impl; [exact Hall|].
    intros record (first & k & _ & Hk & Hsum). exists t, k. split; [done|]. split; [done|].
    apply candidate_counts_Some in Hk as (_ & _ & Hmaj). by apply is_majority_iff.
  - intros c [k Hk]. by apply candidate_counts_Some in Hk as (? & _).
Qed.

Lemma placement_loop_majority fuel jr jn n_rows total st :
  jn ≠ [] → length jr = length jn →
  (∀ c ranking, c ∈ unplaced st → ranking ∈ jr → ∃ r, ranking !! c = Some r ∧ r ≤ total) →
  (unplaced st ≠ [] → 1 ≤ total) →
  length (unplaced st) ≤ fuel →
  ∃ new, placement_loop fuel jr jn n_rows total st = Ok (placement_records st ++ new) ∧
    Forall (λ record, ∃ t k, 1 ≤ t ≤ total ∧
                        summary record = Some (Majority t k (length jn)) ∧
                        length jn < 2 * k) new.
Proof.
  intros Hjn Hlen. revert st.
  induction fuel as [|fuel IH]; intros st Hcomplete Htotal Hfuel.
  - destruct (unplaced st) eqn:Hu; [|simpl in Hfuel; lia].
    exists []. cbn [placement_loop]. rewrite decide_True by done.
    by rewrite app_nil_r.
  - cbn [placement_loop]. case_decide as Hu.
    { exists []. by rewrite app_nil_r. }
    destruct (threshold_loop_ok jr jn (seq 1 total) st) as (found & st' & Hrun & Hfound).
    rewrite Hrun. cbn [mbind outcome_bind fst snd].
    destruct found.
    + destruct Hfound as (placed & Hplaced & Hadv).
      cbn [mbind outcome_bind].
      destruct (threshold_loop_records _ _ _ _ _ Hrun) as (new1 & Hnew1 & HP1).
      pose proof (advances_length _ _ _ Hadv) as Hless.
      destruct Hadv as (_ & _ & _ & Hun & _).
      destruct (IH st') as (new2 & Hrun2 & HP2).
      * intros c ranking Hc Hr. apply Hcomplete; [|done].
        rewrite <-Hun. apply elem_of_app. by left.
      * intros _. by apply Htotal.
      * destruct placed; [done|]. simpl in Hless. lia.
      * exists (new1 ++ new2). rewrite Hrun2, Hnew1, <-app_assoc. split; [done|].
        apply Forall_app. split; [|done].
        eapply Forall_impl; [exact HP1|].
        intros record (t & k & Ht%elem_of_seq & ? & ?). exists t, k.
        split; [lia|done].
    + exfalso. subst st'.
      destruct (unplaced st) as [|c rest] eqn:Hst; [done|].
      pose proof (threshold_loop_false _ _ _ _ _ Hrun total) as Hnone.
      rewrite Hst in Hnone.
      assert (candidate_counts_at jr (length jn) (c :: rest) total !! c =
                Some (length jr)) as Hc.
      { apply candidate_counts_Some. split; [left|]. split.
        - symmetry. apply count_within_complete. intros ranking Hr.
          apply Hcomplete; [left|done].
        - apply is_majority_iff. destruct jn; [done|]. simpl in *. lia. }
      rewrite Hnone in Hc; [done|].
      apply elem_of_seq. specialize (Htotal ltac:(done)). lia.
Qed.

(** X14. On the rankings that the builder returns for a frame, the
    placement engine never reaches its fallback: it returns, and every
    record is placed by a strict majority of the judges at a threshold
    between 1 and the number of rows. *)
Theorem builder_rankings_never_fall_back first_word df judges_list judge_rankings
    judge_names :
  build_judge_rankings_for_subset first_word df judges_list =
    Ok (judge_rankings, judge_names) →
  judge_rankings ≠ [] →
  ∃ records,
    determine_majority_placements df judge_rankings judge_names = Ok records ∧
    Forall (λ record, ∃ t k, 1 ≤ t ≤ length df ∧
                        summary record = Some (Majority t k (length judge_names)) ∧
                        length judge_names < 2 * k) records.
Proof.
  intros (Hlen & Hdf & Hall)%build_rankings_spec Hjr.
  unfold determine_majority_placements. cbn zeta.
  destruct (placement_loop_majority (length (unplaced (start_engine df)))
              judge_rankings judge_names (length df)
              (length (unplaced (start_engine df))) (start_engine df))
    as (new & Hrun & Hnew).
  - intros ->. by destruct judge_rankings.
  - done.
  - intros c ranking Hc Hr. destruct (Hall ranking Hr) as [_ Hranks].
    destruct (Hranks c Hc) as (r & ? & ?). exists r. split; [done|].
    simpl. rewrite length_fmap. lia.
  - simpl. rewrite length_fmap. intros _. specialize (Hdf Hjr).
    destruct df; [done|]. simpl. lia.
  - done.
  - exists new. split; [exact Hrun|].
    simpl in Hnew. by rewrite length_fmap in Hnew.
Qed.

Lemma builder_rankings_never_fall_back_witness :
  ∃ records,
    determine_majority_placements tied_frame (judge_ranking tied_frame <$> seq 0 3)
      (judge_n <$> seq 0 3) = Ok records ∧
    Forall (λ record, ∃ t k, 1 ≤ t ≤ 4 ∧
                        summary record = Some (Majority t k 3) ∧ 3 < 2 * k) records.
Proof.
  apply (builder_rankings_never_fall_back first_word_ascii tied_frame []).
  - done.
  - done.
Defined.

(** X15. Without judges the placement engine divides by zero: called on a
    frame with rows, with no rankings and no judge names, it finds no
    majority and raises [ZeroDivisionError] in its fallback. *)
Theorem no_judges_division_by_zero df :
  df ≠ [] → determine_majority_placements df [] [] = Raise ZeroDivisionError.
Proof.
  intros Hdf. unfold determine_majority_placements. cbn zeta.
  destruct df as [|r df]; [done|].
  cbn [start_engine unplaced fmap list_fmap length placement_loop].
  case_decide; [done|].
  rewrite threshold_loop_none.
  - cbn [mbind outcome_bind fst snd]. unfold fallback.
    cbn [start_engine unplaced fmap list_fmap foldlM]. unfold average_rank, py_truediv.
    by rewrite decide_True by (by apply Qc_is_canon).
  - intros t _. apply map_eq. intros c. rewrite candidate_counts_lookup, lookup_empty.
    rewrite decide_False; [done|]. intros [_ Hmaj%is_majority_iff]. simpl in Hmaj. lia.
Qed.

Lemma no_judges_division_by_zero_witness :
  determine_majority_placements split_frame [] [] = Raise ZeroDivisionError.
Proof. apply no_judges_division_by_zero. done. Defined.

Lemma resolve_ties_single x jr jn : resolve_ties [x] jr jn = Ok ([[x]], ∅).
Proof. done. Qed.

(** X16. A competitor that alone has a strict majority of first ranks is
    placed first, alone in its record, which carries the count of its first
    ranks and no tie rationale. *)
Theorem sole_first_place_majority df judge_rankings judge_names x :
  judge_names ≠ [] →
  x ∈ str_start_number <$> df →
  (∀ c, c ∈ str_start_number <$> df →
     is_majority (count_within judge_rankings c 1) (length judge_names) ↔ c = x) →
  ∃ rest,
    determine_majority_placements df judge_rankings judge_names =
      Ok ({| place := 1;
             couples := [x];
             summary := Some (Majority 1 (count_within judge_rankings x 1)
                                (length judge_names));
             tie_info := ∅ |} :: rest).
Proof.
  intros Hjn Hx Hsole. unfold determine_majority_placements. cbn zeta.
  set (ids := str_start_number <$> df) in *.
  change (unplaced (start_engine df)) with ids.
  destruct (length ids) as [|n] eqn:Hn.
  { destruct ids; [by apply elem_of_nil in Hx|done]. }
  cbn [placement_loop]. change (unplaced (start_engine df)) with ids.
  case_decide as Hnil; [by rewrite Hnil in Hn|].
  set (k := count_within judge_rankings x 1).
  assert (candidate_counts_at judge_rankings (length judge_names) ids 1 = {[ x := k ]})
    as Hcc.
  { apply map_eq. intros c. rewrite candidate_counts_lookup.
    destruct (decide (c = x)) as [->|Hne].
    - rewrite lookup_singleton_eq, decide_True; [done|]. split; [done|]. by apply Hsole.
    - rewrite lookup_singleton_ne by done. rewrite decide_False; [done|].
      intros [Hc Hmaj]. by apply Hsole in Hmaj. }
  cbn [seq threshold_loop]. cbn zeta.
  change (unplaced (start_engine df)) with ids. rewrite Hcc.
  rewrite decide_True by (apply insert_non_empty).
  unfold place_majority. rewrite map_fmap_singleton, map_to_list_singleton.
  cbn [py_sorted sorted_insert length place_candidates take_same_count].
  unfold place_tie_group. rewrite resolve_ties_single.
  cbn [mbind outcome_bind foldlM]. unfold place_group at 1.
  cbn [py_index lookup list_lookup of_option mbind outcome_bind fst snd].
  rewrite lookup_singleton_eq. rewrite decide_False by (by intros []).
  cbn [start_engine placement_records next_place unplaced app foldl length].
  match goal with
  | |- ∃ rest, placement_loop n _ _ _ _ ?st = _ =>
      destruct (placement_loop_ok n judge_rankings judge_names (length df) (S n) st Hjn)
        as (new & -> & _)
  end.
  - cbn [unplaced foldl].
    pose proof (discard_elem_of x ids Hx) as Hd.
    apply Permutation_length in Hd. simpl in Hd. fold ids. lia.
  - cbn [placement_records app]. by exists new.
Qed.

Lemma sole_first_place_majority_witness :
  ∃ rest,
    determine_majority_placements split_frame
      [ {[ "A" := 1; "B" := 2 ]}; {[ "A" := 1; "B" := 2 ]}; {[ "A" := 2; "B" := 1 ]} ]
      ["Judge 1"; "Judge 2"; "Judge 3"] =
      Ok ({| place := 1;
             couples := ["A"];
             summary := Some (Majority 1 2 3);
             tie_info := ∅ |} :: rest).
Proof.
  destruct (sole_first_place_majority split_frame
              [ {[ "A" := 1; "B" := 2 ]}; {[ "A" := 1; "B" := 2 ]}; {[ "A" := 2; "B" := 1 ]} ]
              ["Judge 1"; "Judge 2"; "Judge 3"] "A") as [rest Hrest].
  - done.
  - left.
  - intros c [->|[->|[]%elem_of_nil]%elem_of_cons]%elem_of_cons.
    + split; [done|intros _; by_compute].
    + split; [|done]. intros H. exfalso. revert H. by_compute.
  - exists rest. exact Hrest.
Defined.

(** ** The table of the majority system *)

Import Results.

Lemma foldlM_fmap {A B C} (f : A → B → outcome A) (g : C → B) a l :
  foldlM f a (g <$> l) = foldlM (λ a x, f a (g x)) a l.
Proof.
  revert a. induction l as [|x l IH]; intros a; [done|].
  cbn [fmap list_fmap foldlM]. destruct (f a (g x)); [|done..].
  cbn [mbind outcome_bind]. apply IH.
Qed.

Lemma foldlM_cases {A B} (f : A → B → outcome A) e a l :
  (∀ a b, (∃ a', f a b = Ok a') ∨ f a b = Raise e) →
  (∃ a', foldlM f a l = Ok a') ∨ foldlM f a l = Raise e.
Proof.
  intros Hf. revert a. induction l as [|b l IH]; intros a; cbn [foldlM]; [eauto|].
  destruct (Hf a b) as [[a' ->]| ->]; [|by right]. apply IH.
Qed.

Lemma foldlM_Ok_each {A B} (f : A → B → outcome A) a l a' b :
  foldlM f a l = Ok a' → b ∈ l → ∃ a0 a1, f a0 b = Ok a1.
Proof.
  revert a. induction l as [|b' l IH]; intros a; cbn [foldlM].
  { by intros _ ?%elem_of_nil. }
  destruct (f a b') as [a1| |] eqn:Hf; [|done..].
  cbn [mbind outcome_bind]. intros Hrun [->|Hb]%elem_of_cons; eauto.
Qed.

(** The couples of the records, each with its record, in the order of the
    two loops of the table. *)
Lemma result_rows_flat df jr jn rows records :
  foldlM (result_rows df jr jn) rows records =
    foldlM (λ rows (item : string * placement), result_row df jr jn item.2 rows item.1)
      rows (records ≫= λ record, (λ sn, (sn, record)) <$> couples record).
Proof.
  unfold result_rows. revert rows.
  induction records as [|record records IH]; intros rows.
  { reflexivity. }
  cbn [foldlM mbind list_bind]. rewrite foldlM_app, foldlM_fmap. cbn [fst snd].
  destruct (foldlM _ rows (couples record)) as [rows'| |]; [|done..].
  cbn [mbind outcome_bind]. apply IH.
Qed.

Lemma first_row_with_Ok df sn r :
  first_row_with df sn = Ok r → r ∈ df ∧ start_number r = Some sn.
Proof.
  unfold first_row_with, py_index.
  destruct (filter _ df) as [|r' l] eqn:Hf; [done|].
  cbn. intros [= <-].
  assert (r' ∈ filter (λ r, start_number r = Some sn) df) as Hin by (rewrite Hf; left).
  by apply list_elem_of_filter in Hin as [? ?].
Qed.

Lemma first_row_with_elem df sn r :
  r ∈ df → start_number r = Some sn → ∃ r', first_row_with df sn = Ok r'.
Proof.
  intros Hin Hsn. unfold first_row_with, py_index.
  assert (r ∈ filter (λ r, start_number r = Some sn) df) as Hf
    by (by apply list_elem_of_filter).
  destruct (filter _ df) as [|r' l]; [by apply elem_of_nil in Hf|].
  cbn. eauto.
Qed.

Lemma first_row_with_cases df sn :
  (∃ r, first_row_with df sn = Ok r) ∨ first_row_with df sn = Raise IndexError.
Proof.
  unfold first_row_with, py_index. destruct (filter _ df); cbn; eauto.
Qed.

(** The rank columns of a row: with a name for every ranking the loop
    returns, and it writes the columns of the judge names only. *)
Lemma rank_columns_Ok jr jn sn (row_data : gmap string result_cell) :
  length jr ≤ length jn →
  ∃ row_data', rank_columns jr jn sn row_data = Ok row_data' ∧
    ∀ col, col ∉ jn → row_data' !! col = row_data !! col.
Proof.
  intros Hlen. unfold rank_columns.
  apply (foldlM_invariant _ (λ row_data', ∀ col, col ∉ jn → row_data' !! col = row_data !! col)
           (λ item, item.1 < length jn)).
  - intros row_data' [idx ranking] Hrow Hidx. cbn [fst snd] in *.
    destruct (lookup_lt_is_Some_2 jn idx Hidx) as [col_name Hcol].
    unfold py_index. rewrite Hcol. cbn [of_option mbind outcome_bind].
    eexists. split; [done|]. intros col Hnot.
    rewrite lookup_insert_ne; [by apply Hrow|].
    intros ->. apply Hnot. by apply list_elem_of_lookup_2 in Hcol.
  - done.
  - rewrite Forall_forall. intros [idx ranking] Hin.
    apply list_elem_of_lookup in Hin as [i Hi].
    rewrite list_lookup_imap in Hi.
    destruct (jr !! i) as [ranking'|] eqn:Hjr; [|done].
    cbn in Hi. injection Hi as <- <-. cbn.
    apply lookup_lt_Some in Hjr. lia.
Qed.

Lemma rank_columns_cases jr jn sn (row_data : gmap string result_cell) :
  (∃ row_data', rank_columns jr jn sn row_data = Ok row_data') ∨
  rank_columns jr jn sn row_data = Raise IndexError.
Proof.
  unfold rank_columns. apply foldlM_cases. intros row_data' [idx ranking].
  cbn [fst snd]. unfold py_index. destruct (jn !! idx); cbn; eauto.
Qed.

Lemma result_row_cases df jr jn record rows sn :
  (∃ rows', result_row df jr jn record rows sn = Ok rows') ∨
  result_row df jr jn record rows sn = Raise IndexError.
Proof.
  unfold result_row.
  destruct (first_row_with_cases df sn) as [[r ->]| ->]; [|by right].
  cbn [mbind outcome_bind].
  destruct (rank_columns_cases jr jn sn
              (<["Couple" := RCell (row_get df r "competitor_names" (CStr "Unknown"))]>
                 (<["Start #" := RStr sn]> (<["Place" := RStr (place_label record)]> ∅))))
    as [[row_data ->]| ->]; [|by right].
  cbn [mbind outcome_bind]. eauto.
Qed.

(** One row of the table. *)
Lemma result_row_Ok df jr jn record rows sn :
  length jr ≤ length jn →
  (∃ r, r ∈ df ∧ start_number r = Some sn) →
  ∃ row_data,
    result_row df jr jn record rows sn = Ok (rows ++ [row_data]) ∧
    ("Place" ∉ jn → row_data !! "Place" = Some (RStr (place_label record))) ∧
    ("Start #" ∉ jn → row_data !! "Start #" = Some (RStr sn)) ∧
    row_data !! "Notes" =
      Some (RNotes (result_notes (summary record) (tie_info record) sn)).
Proof.
  intros Hlen (r & Hin & Hsn). unfold result_row.
  destruct (first_row_with_elem df sn r Hin Hsn) as [r' ->].
  cbn [mbind outcome_bind].
  destruct (rank_columns_Ok jr jn sn
              (<["Couple" := RCell (row_get df r' "competitor_names" (CStr "Unknown"))]>
                 (<["Start #" := RStr sn]> (<["Place" := RStr (place_label record)]> ∅)))
              Hlen) as (row_data & -> & Hkeep).
  cbn [mbind outcome_bind]. eexists. split; [done|]. split_and!.
  - intros Hnot. rewrite lookup_insert_ne by done. by rewrite Hkeep.
  - intros Hnot. rewrite lookup_insert_ne by done. by rewrite Hkeep.
  - by rewrite lookup_insert_eq.
Qed.

Lemma result_rows_Ok df jr jn (items : list (string * placement)) rows :
  length jr ≤ length jn →
  Forall (λ item, ∃ r, r ∈ df ∧ start_number r = Some item.1) items →
  ∃ new,
    foldlM (λ rows (item : string * placement), result_row df jr jn item.2 rows item.1)
      rows items = Ok (rows ++ new) ∧
    Forall2 (λ (item : string * placement) row_data,
               ("Place" ∉ jn → row_data !! "Place" = Some (RStr (place_label item.2))) ∧
               ("Start #" ∉ jn → row_data !! "Start #" = Some (RStr item.1)) ∧
               row_data !! "Notes" =
                 Some (RNotes (result_notes (summary item.2) (tie_info item.2) item.1)))
            items new.
Proof.
  intros Hlen Hitems. revert rows.
  induction Hitems as [|[sn record] items Hitem _ IH]; intros rows; cbn [foldlM].
  - exists []. by rewrite app_nil_r.
  - cbn [fst snd] in *.
    destruct (result_row_Ok df jr jn record rows sn Hlen Hitem) as (row_data & -> & Hrow).
    cbn [mbind outcome_bind].
    destruct (IH (rows ++ [row_data])) as (new & -> & Hnew).
    exists (row_data :: new). rewrite <-app_assoc. split; [done|].
    by constructor.
Qed.

Lemma flat_couples_ids (records : list placement) :
  (records ≫= λ record, (λ sn, (sn, record)) <$> couples record).*1 = placed_ids records.
Proof.
  unfold placed_ids. induction records as [|record records IH]; [done|].
  cbn [mbind list_bind fmap list_fmap concat]. rewrite fmap_app. f_equal; [|exact IH].
  rewrite <-list_fmap_compose. apply list_fmap_id.
Qed.

(** X17. The table of the majority system is absent for a frame without
    rows and for a frame in which no category holds an available judge
    score. *)
Theorem majority_table_absent first_word df judges_list :
  df = [] ∨ first_scored_max df = 0 →
  compute_majority_system_results first_word df judges_list = Ok None.
Proof.
  intros Hdf. unfold compute_majority_system_results.
  case_decide as Hnil; [done|]. destruct Hdf as [?|Hzero]; [done|].
  unfold build_judge_rankings_for_subset. rewrite decide_False by done. cbn zeta.
  rewrite discover_num_judges_spec. fold (first_scored_max df).
  rewrite decide_True by done. cbn [mbind outcome_bind fst snd].
  rewrite decide_True; [done|]. by left.
Qed.

(** X18. When every row has a start number and the builder returns
    rankings, the table has the columns Place, Start #, Couple, the judge
    names and Notes, and one row for every row of the frame: the rows
    follow the placement records, couple by couple, each with the place
    label of its record, its id and the notes of its record. *)
Theorem majority_table_rows first_word df judges_list jr jn :
  Forall (λ r, is_Some (start_number r)) df →
  build_judge_rankings_for_subset first_word df judges_list = Ok (jr, jn) →
  jr ≠ [] →
  ∃ records rows,
    determine_majority_placements df jr jn = Ok records ∧
    compute_majority_system_results first_word df judges_list =
      Ok (Some (["Place"; "Start #"; "Couple"] ++ jn ++ ["Notes"], rows)) ∧
    length rows = length df ∧
    Forall2 (λ (item : string * placement) row_data,
               ("Place" ∉ jn → row_data !! "Place" = Some (RStr (place_label item.2))) ∧
               ("Start #" ∉ jn → row_data !! "Start #" = Some (RStr item.1)) ∧
               row_data !! "Notes" =
                 Some (RNotes (result_notes (summary item.2) (tie_info item.2) item.1)))
            (records ≫= λ record, (λ sn, (sn, record)) <$> couples record) rows.
Proof.
  intros Hstart Hbuild Hjr.
  pose proof (build_rankings_spec _ _ _ _ _ Hbuild) as (Hlen & Hdf & _).
  specialize (Hdf Hjr).
  assert (jn ≠ []) as Hjn by (intros ->; by destruct jr).
  destruct (determine_majority_placements_ok df jr jn Hjn) as (records & Hrun & Hids & _).
  set (items := records ≫= λ record, (λ sn, (sn, record)) <$> couples record).
  assert (items.*1 ≡ₚ str_start_number <$> df) as Hitems
    by (unfold items; by rewrite flat_couples_ids).
  destruct (result_rows_Ok df jr jn items []) as (rows & Hrows & Hall).
  { lia. }
  { rewrite Forall_forall. intros [sn record] Hin. cbn [fst].
    assert (sn ∈ str_start_number <$> df) as Hsn.
    { rewrite <-Hitems. apply list_elem_of_fmap. by exists (sn, record). }
    apply list_elem_of_fmap in Hsn as (r & -> & Hr).
    exists r. split; [done|].
    destruct (proj1 (Forall_forall _ _) Hstart r Hr) as [s Hs].
    unfold str_start_number. by rewrite Hs. }
  assert (length rows = length df) as Hlen_rows.
  { rewrite <-(Forall2_length _ _ _ Hall).
    rewrite <-(length_fmap fst items), Hitems. by rewrite length_fmap. }
  exists records, rows. split; [done|]. split; [|done].
  unfold compute_majority_system_results.
  rewrite decide_False by done. rewrite Hbuild. cbn [mbind outcome_bind fst snd].
  rewrite decide_False by (by intros [?|?]).
  rewrite Hrun. cbn [mbind outcome_bind].
  rewrite decide_False.
  2:{ intros ->. cbn in Hitems. apply Permutation_nil_l in Hitems.
      symmetry in Hitems. by apply fmap_nil_inv in Hitems. }
  rewrite result_rows_flat. fold items. rewrite Hrows. cbn [mbind outcome_bind app].
  rewrite decide_False; [done|].
  intros ->. destruct df; [done|]. simpl in Hlen_rows. lia.
Qed.

(** X19. A row without a start number breaks the table: its id is the
    string "None", which no stored start number equals, so that looking up
    its row raises [IndexError]. *)
Theorem majority_table_missing_start_number first_word df judges_list jr jn :
  build_judge_rankings_for_subset first_word df judges_list = Ok (jr, jn) →
  jr ≠ [] →
  (∃ r, r ∈ df ∧ start_number r = None) →
  (∀ r, r ∈ df → start_number r ≠ Some "None") →
  compute_majority_system_results first_word df judges_list = Raise IndexError.
Proof.
  intros Hbuild Hjr (r & Hr & Hnone) Hnot.
  pose proof (build_rankings_spec _ _ _ _ _ Hbuild) as (Hlen & Hdf & _).
  specialize (Hdf Hjr).
  assert (jn ≠ []) as Hjn by (intros ->; by destruct jr).
  destruct (determine_majority_placements_ok df jr jn Hjn) as (records & Hrun & Hids & _).
  set (items := records ≫= λ record, (λ sn, (sn, record)) <$> couples record).
  assert ("None" ∈ items.*1) as Hin.
  { unfold items. rewrite flat_couples_ids, Hids. apply list_elem_of_fmap.
    exists r. split; [|done]. unfold str_start_number. by rewrite Hnone. }
  apply list_elem_of_fmap in Hin as ([sn record] & Hsn & Hin). cbn in Hsn. subst sn.
  unfold compute_majority_system_results.
  rewrite decide_False by done. rewrite Hbuild. cbn [mbind outcome_bind fst snd].
  rewrite decide_False by (by intros [?|?]).
  rewrite Hrun. cbn [mbind outcome_bind].
  rewrite decide_False.
  2:{ intros ->. by apply elem_of_nil in Hin. }
  rewrite result_rows_flat. fold items.
  destruct (foldlM_cases
              (λ rows (item : string * placement), result_row df jr jn item.2 rows item.1)
              IndexError [] items) as [[rows Hrows]| Hraise];
    [by intros; apply result_row_cases| |by rewrite Hraise].
  exfalso.
  destruct (foldlM_Ok_each _ _ _ _ _ Hrows Hin) as (rows0 & rows1 & Hrow).
  cbn [fst snd] in Hrow. unfold result_row in Hrow.
  apply bind_Ok in Hrow as (r' & [Hr' Hsn]%first_row_with_Ok & _).
  by apply (Hnot r').
Qed.

Lemma majority_table_absent_witness :
  compute_majority_system_results first_word_ascii unscored_frame [] = Ok None.
Proof. apply majority_table_absent. right. by_compute. Defined.

Lemma majority_table_rows_witness :
  ∃ rows,
    compute_majority_system_results first_word_ascii tied_frame [] =
      Ok (Some (["Place"; "Start #"; "Couple"; "Judge 1"; "Judge 2"; "Judge 3"; "Notes"],
                rows)) ∧
    length rows = 4.
Proof.
  destruct (majority_table_rows first_word_ascii tied_frame []
              (judge_ranking tied_frame <$> seq 0 3) (judge_n <$> seq 0 3))
    as (records & rows & _ & Hrun & Hlen & _).
  - by_compute.
  - done.
  - done.
  - exists rows. split; [exact Hrun|exact Hlen].
Defined.

Lemma majority_table_missing_start_number_witness :
  compute_majority_system_results first_word_ascii unnumbered_frame [] = Raise IndexError.
Proof.
  apply (majority_table_missing_start_number first_word_ascii unnumbered_frame []
           (judge_ranking unnumbered_frame <$> seq 0 2) (judge_n <$> seq 0 2)).
  - done.
  - done.
  - eexists. split; [right; left|done].
  - intros r [->|[->|[]%elem_of_nil]%elem_of_cons]%elem_of_cons; done.
Defined.

(** ** The order of the judges *)

Lemma foldlM_ext {A B} (f g : A → B → outcome A) a l :
  (∀ a b, f a b = g a b) → foldlM f a l = foldlM g a l.
Proof.
  intros Hfg. revert a. induction l as [|b l IH]; intros a; [done|].
  cbn [foldlM]. rewrite Hfg. destruct (g a b); [|done..]. apply IH.
Qed.

Section judge_order.
Context (jr jr' : list (gmap string nat)) (jn jn' : list string).
Hypothesis Hjr : jr ≡ₚ jr'.
Hypothesis Hjn : length jn = length jn'.

Lemma head_to_head_Permutation a b : head_to_head jr a b = head_to_head jr' a b.
Proof. rewrite !head_to_head_filter. by rewrite Hjr. Qed.

Lemma count_within_Permutation c t : count_within jr c t = count_within jr' c t.
Proof. unfold count_within. by rewrite Hjr. Qed.

Lemma average_rank_Permutation n_rows num_judges c :
  average_rank jr n_rows num_judges c = average_rank jr' n_rows num_judges c.
Proof.
  unfold average_rank. cbn zeta. do 2 f_equal.
  assert (∀ l l' : list nat, l ≡ₚ l' → sum_list l = sum_list l') as Hsum.
  { induction 1; simpl; lia. }
  apply Hsum. by rewrite Hjr.
Qed.

Lemma pairwise_loop_Permutation candidates card :
  pairwise_loop jr candidates card = pairwise_loop jr' candidates card.
Proof.
  revert card. induction candidates as [|a rest IH]; intros card; [done|].
  cbn [pairwise_loop].
  rewrite (foldlM_ext (pairwise_compare jr a) (pairwise_compare jr' a)).
  - destruct (foldlM _ card rest); [|done..]. apply IH.
  - intros card' b. unfold pairwise_compare. by rewrite head_to_head_Permutation.
Qed.

Lemma resolve_loop_ext (rec rec' : list string → outcome groups_info) card fuel
    remaining result_groups info :
  (∀ top, rec top = rec' top) →
  resolve_loop rec card fuel remaining result_groups info =
    resolve_loop rec' card fuel remaining result_groups info.
Proof.
  intros Hrec. revert remaining result_groups info.
  induction fuel as [|fuel IH]; intros remaining result_groups info; [done|].
  cbn [resolve_loop]. case_decide; [done|].
  destruct (current_scores_of card remaining) as [current_scores| |]; [|done..].
  cbn [mbind outcome_bind].
  destruct (py_max _) as [max_score| |]; [|done..]. cbn [mbind outcome_bind].
  destruct (current_top_of _ _ _) as [current_top| |]; [|done..].
  cbn [mbind outcome_bind].
  case_decide; [done|]. case_decide.
  - destruct (py_index current_top 0) as [winner| |]; [|done..].
    cbn [mbind outcome_bind].
    destruct (dict_get _ winner) as [notes| |]; [|done..]. cbn [mbind outcome_bind].
    destruct (of_option _ _) as [remaining'| |]; [|done..]. cbn [mbind outcome_bind].
    apply IH.
  - rewrite Hrec. destruct (rec' current_top) as [[sub_groups sub_info]| |]; [|done..].
    cbn [mbind outcome_bind]. apply IH.
Qed.

Lemma resolve_ties_rec_Permutation fuel candidates :
  resolve_ties_rec fuel candidates jr = resolve_ties_rec fuel candidates jr'.
Proof.
  revert candidates. induction fuel as [|fuel IH]; intros candidates; [done|].
  cbn [resolve_ties_rec]. case_decide; [done|].
  assert (resolve_many (λ top, resolve_ties_rec fuel top jr) candidates jr =
          resolve_many (λ top, resolve_ties_rec fuel top jr') candidates jr') as Hmany.
  { unfold resolve_many. rewrite pairwise_loop_Permutation.
    destruct (pairwise_loop jr' candidates _) as [card| |]; [|done..].
    cbn [mbind outcome_bind].
    destruct (py_max _) as [max_score| |]; [|done..]. cbn [mbind outcome_bind].
    case_decide; [done|].
    by rewrite (resolve_loop_ext _ (λ top, resolve_ties_rec fuel top jr')). }
  destruct candidates as [|a [|b [|c rest]]]; try exact Hmany.
  by rewrite head_to_head_Permutation.
Qed.

Lemma place_tie_group_Permutation summary_map st group :
  place_tie_group jr jn summary_map st group =
    place_tie_group jr' jn' summary_map st group.
Proof.
  unfold place_tie_group, resolve_ties. by rewrite resolve_ties_rec_Permutation.
Qed.

Lemma place_candidates_Permutation fuel summary_map sorted st :
  place_candidates fuel jr jn summary_map sorted st =
    place_candidates fuel jr' jn' summary_map sorted st.
Proof.
  revert sorted st. induction fuel as [|fuel IH]; intros sorted st.
  - by destruct sorted as [|[first count_value] rest].
  - destruct sorted as [|[first count_value] rest]; [done|]. cbn [place_candidates].
    destruct (take_same_count count_value rest) as [more rest'].
    rewrite place_tie_group_Permutation.
    destruct (place_tie_group jr' jn' _ _ _); [|done..]. apply IH.
Qed.

Lemma candidate_counts_Permutation unplaced t :
  candidate_counts_at jr (length jn) unplaced t =
    candidate_counts_at jr' (length jn') unplaced t.
Proof.
  apply map_eq. intros c. rewrite !candidate_counts_lookup.
  by rewrite count_within_Permutation, Hjn.
Qed.

Lemma threshold_loop_Permutation thresholds st :
  threshold_loop jr jn thresholds st = threshold_loop jr' jn' thresholds st.
Proof.
  induction thresholds as [|t thresholds IH]; [done|].
  cbn [threshold_loop]. cbn zeta. rewrite candidate_counts_Permutation, IH.
  unfold place_majority. by rewrite place_candidates_Permutation, Hjn.
Qed.

Lemma placement_loop_Permutation fuel n_rows total st :
  placement_loop fuel jr jn n_rows total st =
    placement_loop fuel jr' jn' n_rows total st.
Proof.
  revert st. induction fuel as [|fuel IH]; intros st; [done|].
  cbn [placement_loop]. case_decide; [done|].
  rewrite threshold_loop_Permutation.
  destruct (threshold_loop jr' jn' _ st) as [[found st']| |]; [|done..].
  cbn [mbind outcome_bind fst snd].
  assert (fallback jr n_rows (length jn) st' = fallback jr' n_rows (length jn') st')
    as Hfb.
  { unfold fallback. rewrite Hjn.
    rewrite (foldlM_ext _ (λ avg_ranks start_number,
                             avg ← average_rank jr' n_rows (length jn') start_number;
                             Ok (avg_ranks ++ [(start_number, avg)]))); [done|].
    intros avg_ranks c. by rewrite average_rank_Permutation. }
  rewrite Hfb. destruct (if found then _ else _); [|done..]. apply IH.
Qed.
End judge_order.

(** X20. The placements depend on the judges through the rankings as a
    collection and through the number of the names only: reordering the
    rankings, or renaming the judges, leaves the result unchanged. *)
Theorem placements_ignore_judge_order df judge_rankings judge_rankings'
    judge_names judge_names' :
  judge_rankings ≡ₚ judge_rankings' →
  length judge_names = length judge_names' →
  determine_majority_placements df judge_rankings judge_names =
    determine_majority_placements df judge_rankings' judge_names'.
Proof.
  intros Hjr Hjn. unfold determine_majority_placements.
  by apply placement_loop_Permutation.
Qed.

Lemma placements_ignore_judge_order_witness :
  determine_majority_placements tied_frame (judge_ranking tied_frame <$> [0; 1; 2])
    ["Judge 1"; "Judge 2"; "Judge 3"] =
  determine_majority_placements tied_frame (judge_ranking tied_frame <$> [2; 0; 1])
    ["Ann"; "Bo"; "Cy"].
Proof.
  apply placements_ignore_judge_order.
  - by_compute.
  - done.
Defined.

(** ** The order of the rows *)

Import Runs.

Lemma outcome_rel_bind {A B} (R : relation A) (S : relation B) m m'
    (f f' : A → outcome B) :
  outcome_rel R m m' → (∀ a a', R a a' → outcome_rel S (f a) (f' a')) →
  outcome_rel S (m ≫= f) (m' ≫= f').
Proof. destruct m, m'; simpl; try done. intros HR Hf. by apply Hf. Qed.

Lemma outcome_rel_foldlM {A B} (R : relation A) (f f' : A → B → outcome A) a a' l :
  (∀ a a' b, R a a' → outcome_rel R (f a b) (f' a' b)) →
  R a a' → outcome_rel R (foldlM f a l) (foldlM f' a' l).
Proof.
  intros Hf. revert a a'. induction l as [|b l IH]; intros a a' Ha; [done|].
  cbn [foldlM]. eapply outcome_rel_bind; [by apply Hf|]. apply IH.
Qed.

Lemma outcome_rel_eq {A} (m m' : outcome A) : outcome_rel (=) m m' → m = m'.
Proof. destruct m, m'; simpl; try done; by intros ->. Qed.

Lemma remove_first_None x l : x ∉ l → remove_first x l = None.
Proof.
  induction l as [|y l IH]; [done|]. intros [Hne Hnot]%not_elem_of_cons.
  simpl. rewrite decide_False by done. by rewrite IH.
Qed.

Lemma remove_first_Permutation x l l' :
  l ≡ₚ l' →
  match remove_first x l, remove_first x l' with
  | Some k, Some k' => k ≡ₚ k'
  | None, None => True
  | _, _ => False
  end.
Proof.
  intros Hperm. destruct (decide (x ∈ l)) as [Hin|Hnot].
  - destruct (remove_first_elem_of x l Hin) as [k Hk].
    destruct (remove_first_elem_of x l') as [k' Hk']; [by rewrite <-Hperm|].
    rewrite Hk, Hk'. apply remove_first_Some in Hk, Hk'.
    apply (inj (x ::.)). by rewrite <-Hk, <-Hk'.
  - rewrite (remove_first_None x l Hnot), (remove_first_None x l'); [done|].
    by rewrite <-Hperm.
Qed.

Lemma discard_Permutation x l l' : l ≡ₚ l' → discard l x ≡ₚ discard l' x.
Proof.
  intros Hperm. unfold discard. pose proof (remove_first_Permutation x l l' Hperm) as H.
  destruct (remove_first x l), (remove_first x l'); done.
Qed.

Lemma foldl_discard_Permutation group l l' :
  l ≡ₚ l' → foldl discard l group ≡ₚ foldl discard l' group.
Proof.
  revert l l'. induction group as [|x group IH]; intros l l' Hperm; [done|].
  simpl. by apply IH, discard_Permutation.
Qed.

#[local] Instance avg_le_antisymm : AntiSymm (=) avg_le.
Proof.
  intros [id1 a1] [id2 a2]. unfold avg_le. cbn [fst snd].
  intros [Hlt|[-> Hle]] [Hlt'|[Heq' Hle']].
  - destruct (irreflexivity Qclt a1). by trans a2.
  - subst. by destruct (irreflexivity Qclt a1).
  - by destruct (irreflexivity Qclt a2).
  - f_equal. by apply (anti_symm String.le).
Qed.

Section row_order.
Context (jr : list (gmap string nat)) (jn : list string).

Lemma place_group_equiv summary_map info st st' group :
  engine_equiv st st' →
  outcome_rel engine_equiv (place_group summary_map info st group)
    (place_group summary_map info st' group).
Proof.
  intros (Hrec & Hun & Hnext). unfold place_group.
  destruct (py_index group 0) as [first| |]; [|done..]. cbn [mbind outcome_bind].
  rewrite Hrec, Hnext. split_and!; cbn; [done| |done].
  by apply foldl_discard_Permutation.
Qed.

Lemma place_tie_group_equiv summary_map st st' group :
  engine_equiv st st' →
  outcome_rel engine_equiv (place_tie_group jr jn summary_map st group)
    (place_tie_group jr jn summary_map st' group).
Proof.
  intros Hst. unfold place_tie_group.
  destruct (resolve_ties group jr jn) as [[groups info]| |]; [|done..].
  cbn [mbind outcome_bind]. apply outcome_rel_foldlM; [|done].
  intros. by apply place_group_equiv.
Qed.

Lemma place_candidates_equiv fuel summary_map sorted st st' :
  engine_equiv st st' →
  outcome_rel engine_equiv (place_candidates fuel jr jn summary_map sorted st)
    (place_candidates fuel jr jn summary_map sorted st').
Proof.
  revert sorted st st'. induction fuel as [|fuel IH]; intros sorted st st' Hst.
  - by destruct sorted as [|[first count_value] rest].
  - destruct sorted as [|[first count_value] rest]; [done|]. cbn [place_candidates].
    destruct (take_same_count count_value rest) as [more rest'].
    eapply outcome_rel_bind; [by apply place_tie_group_equiv|]. apply IH.
Qed.

Lemma candidate_counts_unplaced l l' t :
  l ≡ₚ l' →
  candidate_counts_at jr (length jn) l t = candidate_counts_at jr (length jn) l' t.
Proof.
  intros Hperm. apply map_eq. intros c. rewrite !candidate_counts_lookup.
  destruct (decide (c ∈ l ∧ _)) as [[Hin Hmaj]|Hnot].
  - rewrite decide_True; [done|]. split; [by rewrite <-Hperm|done].
  - rewrite decide_False; [done|]. intros [Hin Hmaj]. apply Hnot.
    split; [by rewrite Hperm|done].
Qed.

Lemma threshold_loop_equiv thresholds st st' :
  engine_equiv st st' →
  outcome_rel (λ x y : bool * engine, x.1 = y.1 ∧ engine_equiv x.2 y.2)
    (threshold_loop jr jn thresholds st) (threshold_loop jr jn thresholds st').
Proof.
  intros Hst. induction thresholds as [|t thresholds IH]; [done|].
  cbn [threshold_loop]. cbn zeta.
  rewrite (candidate_counts_unplaced (unplaced st) (unplaced st')) by apply Hst.
  case_decide; [|done].
  eapply outcome_rel_bind.
  - unfold place_majority. by apply place_candidates_equiv.
  - intros st1 st1' Hst1. done.
Qed.

Lemma place_fallback_equiv st st' item :
  engine_equiv st st' →
  outcome_rel engine_equiv (place_fallback st item) (place_fallback st' item).
Proof.
  intros (Hrec & Hun & Hnext). unfold place_fallback. cbn zeta.
  pose proof (remove_first_Permutation item.1 _ _ Hun) as Hrm.
  destruct (remove_first item.1 (unplaced st)), (remove_first item.1 (unplaced st'));
    try done.
  cbn. rewrite Hrec, Hnext. done.
Qed.

Lemma fallback_equiv n_rows st st' :
  engine_equiv st st' →
  outcome_rel engine_equiv (fallback jr n_rows (length jn) st)
    (fallback jr n_rows (length jn) st').
Proof.
  intros Hst. pose proof Hst as (_ & Hun & _). unfold fallback.
  destruct (decide (length jn = 0)) as [Hz|Hnz].
  - rewrite Hz. destruct (unplaced st) as [|c l] eqn:Hl.
    + apply Permutation_nil_l in Hun. rewrite <-Hun. exact Hst.
    + destruct (unplaced st') as [|c' l'] eqn:Hl'.
      { by apply Permutation_nil_r in Hun. }
      cbn [foldlM]. unfold average_rank, py_truediv.
      rewrite !decide_True by (by apply Qc_is_canon). done.
  - rewrite !fallback_avg_ranks by done. cbn [mbind outcome_bind app].
    assert (py_sorted avg_le
              ((λ sn, (sn, mean_rank jr n_rows (length jn) sn)) <$> unplaced st) =
            py_sorted avg_le
              ((λ sn, (sn, mean_rank jr n_rows (length jn) sn)) <$> unplaced st'))
      as ->.
    { apply (StronglySorted_unique avg_le).
      - apply py_sorted_StronglySorted; apply _.
      - apply py_sorted_StronglySorted; apply _.
      - by rewrite !py_sorted_Permutation, Hun. }
    apply outcome_rel_foldlM; [|done]. intros. by apply place_fallback_equiv.
Qed.

Lemma placement_loop_equiv fuel n_rows total st st' :
  engine_equiv st st' →
  outcome_rel (=) (placement_loop fuel jr jn n_rows total st)
    (placement_loop fuel jr jn n_rows total st').
Proof.
  revert st st'. induction fuel as [|fuel IH]; intros st st' Hst;
    pose proof Hst as (Hrec & Hun & _).
  - cbn [placement_loop]. case_decide as Hnil.
    + rewrite Hnil in Hun. apply Permutation_nil_l in Hun.
      rewrite decide_True by done. done.
    + rewrite decide_False; [done|].
      intros Hnil'. rewrite Hnil' in Hun. by apply Permutation_nil_r in Hun.
  - cbn [placement_loop]. case_decide as Hnil.
    + rewrite Hnil in Hun. apply Permutation_nil_l in Hun.
      rewrite decide_True by done. done.
    + rewrite decide_False
        by (intros Hnil'; rewrite Hnil' in Hun; by apply Permutation_nil_r in Hun).
      eapply outcome_rel_bind; [by apply threshold_loop_equiv|].
      intros [found st1] [found' st1'] [Hfound Hst1]. cbn [fst snd] in *. subst found'.
      eapply outcome_rel_bind; [|apply IH].
      destruct found; [done|]. by apply fallback_equiv.
Qed.
End row_order.

(** X21. The placements do not depend on the order of the rows of the
    frame: two frames with the same ids, in any order, get the same
    records. *)
Theorem placements_ignore_row_order df df' judge_rankings judge_names :
  str_start_number <$> df ≡ₚ str_start_number <$> df' →
  determine_majority_placements df judge_rankings judge_names =
    determine_majority_placements df' judge_rankings judge_names.
Proof.
  intros Hids. apply outcome_rel_eq. unfold determine_majority_placements. cbn zeta.
  cbn [start_engine unplaced].
  rewrite (Permutation_length Hids).
  assert (length df = length df') as ->.
  { apply Permutation_length in Hids. by rewrite !length_fmap in Hids. }
  apply placement_loop_equiv. split_and!; done.
Qed.

Lemma placements_ignore_row_order_witness :
  determine_majority_placements tied_frame (judge_ranking tied_frame <$> seq 0 3)
    (judge_n <$> seq 0 3) =
  determine_majority_placements (reverse tied_frame)
    (judge_ranking tied_frame <$> seq 0 3) (judge_n <$> seq 0 3).
Proof. apply placements_ignore_row_order. by_compute. Defined.

#[local] Instance totals_le_antisymm : AntiSymm (=) totals_le.
Proof.
  intros [id1 s1] [id2 s2]. rewrite !totals_le_iff. cbn [fst snd].
  intros [Hlt|[-> Hle]] [Hlt'|[Heq' Hle']].
  - destruct (irreflexivity Qclt s1). by trans s2.
  - subst. by destruct (irreflexivity Qclt s1).
  - by destruct (irreflexivity Qclt s2).
  - f_equal. by apply (anti_symm String.le).
Qed.

Lemma column_max_Permutation df df' col :
  df ≡ₚ df' → column_max df col = column_max df' col.
Proof. intros Hperm. unfold column_max. by rewrite Hperm. Qed.

Lemma judge_ranking_Permutation df df' judge_idx :
  df ≡ₚ df' → judge_ranking df judge_idx = judge_ranking df' judge_idx.
Proof.
  intros Hperm. unfold judge_ranking. f_equal.
  apply (StronglySorted_unique totals_le).
  - apply py_sorted_StronglySorted; apply _.
  - apply py_sorted_StronglySorted; apply _.
  - rewrite !py_sorted_Permutation. unfold judge_totals. by rewrite Hperm.
Qed.

(** X22. The rankings and the judge names that the builder returns do not
    depend on the order of the rows of the frame. *)
Theorem build_rankings_ignore_row_order first_word df df' judges_list :
  df ≡ₚ df' →
  build_judge_rankings_for_subset first_word df judges_list =
    build_judge_rankings_for_subset first_word df' judges_list.
Proof.
  intros Hperm. unfold build_judge_rankings_for_subset.
  destruct (decide (df = [])) as [->|Hdf].
  { apply Permutation_nil_l in Hperm. by subst. }
  rewrite (decide_False (P := df' = []))
    by (intros ->; by apply Permutation_nil_r in Hperm).
  cbn zeta. rewrite !discover_num_judges_spec.
  assert ((λ cat, column_max df (col_judge_scores cat)) <$> categories =
          (λ cat, column_max df' (col_judge_scores cat)) <$> categories) as ->.
  { apply list_fmap_ext. intros _ cat _. by apply column_max_Permutation. }
  case_decide; [done|].
  destruct (judge_names_for _ _ _) as [judge_names| |]; [|done..].
  cbn [mbind outcome_bind]. do 2 f_equal.
  apply list_fmap_ext. intros _ judge_idx _. by apply judge_ranking_Permutation.
Qed.

Lemma build_rankings_ignore_row_order_witness :
  build_judge_rankings_for_subset first_word_ascii tied_frame [] =
    build_judge_rankings_for_subset first_word_ascii (reverse tied_frame) [].
Proof.
  apply build_rankings_ignore_row_order. symmetry. apply reverse_Permutation.
Defined.

(** ** The records of a run *)

Lemma place_majority_nonempty jr jn t (cc : gmap string nat) st st' :
  (∀ c, is_Some (cc !! c) → c ∈ unplaced st) →
  place_majority jr jn t cc st = Ok st' →
  ∃ new, placement_records st' = placement_records st ++ new ∧
         Forall (λ record, couples record ≠ []) new.
Proof.
  intros Hcc Hrun.
  destruct (place_majority_records jr jn t cc st st' Hcc Hrun) as (new & Hnew & Hall).
  exists new. split; [done|]. eapply Forall_impl; [exact Hall|].
  intros record (first & k & Hhead & _). by destruct (couples record).
Qed.

Lemma fallback_records_nonempty p items :
  Forall (λ record, couples record ≠ []) (fallback_records p items).
Proof.
  revert p. induction items as [|item items IH]; intros p; [constructor|].
  rewrite fallback_records_cons. constructor; [done|apply IH].
Qed.

Lemma placement_loop_nonempty fuel jr jn n_rows total st :
  jn ≠ [] → length (unplaced st) ≤ fuel →
  ∃ new, placement_loop fuel jr jn n_rows total st = Ok (placement_records st ++ new) ∧
         Forall (λ record, couples record ≠ []) new.
Proof.
  intros Hjn. revert st. induction fuel as [|fuel IH]; intros st Hfuel.
  - destruct (unplaced st) eqn:Hu; [|simpl in Hfuel; lia].
    exists []. cbn [placement_loop]. rewrite decide_True by done.
    by rewrite app_nil_r.
  - cbn [placement_loop]. case_decide as Hu.
    { exists []. by rewrite app_nil_r. }
    destruct (threshold_loop_ok jr jn (seq 1 total) st) as (found & st' & Hrun & Hfound).
    rewrite Hrun. cbn [mbind outcome_bind fst snd].
    destruct found.
    + destruct Hfound as (placed & Hplaced & Hadv).
      cbn [mbind outcome_bind].
      apply threshold_loop_true in Hrun as (t & _ & _ & Hpm).
      apply place_majority_nonempty in Hpm as (new1 & Hnew1 & HP1).
      2:{ intros c [k Hk]. by apply candidate_counts_Some in Hk as (? & _). }
      pose proof (advances_length _ _ _ Hadv) as Hless.
      destruct (IH st') as (new2 & Hrun2 & HP2).
      { destruct placed; [done|]. simpl in Hless. lia. }
      exists (new1 ++ new2). rewrite Hrun2, Hnew1, <-app_assoc. split; [done|].
      by apply Forall_app.
    + subst st'.
      destruct (fallback_ok jr n_rows (length jn) st) as (st' & -> & Hrec & Hun & _).
      { by destruct jn. }
      cbn [mbind outcome_bind].
      destruct (IH st') as (new2 & Hrun2 & HP2); [rewrite Hun; simpl; lia|].
      rewrite Hrun2, Hrec, <-app_assoc. eexists. split; [done|].
      apply Forall_app. split; [apply fallback_records_nonempty|done].
Qed.

Lemma place_chain_bounds n recs :
  place_chain n recs →
  Forall (λ record, couples record ≠ []) recs →
  Forall (λ record, n ≤ place record ∧
                    place record + length (couples record) ≤ n + length (placed_ids recs))
         recs.
Proof.
  revert n. induction recs as [|record recs IH]; intros n; [constructor|].
  cbn [place_chain]. intros [Hplace Hchain] [Hne Hall]%Forall_cons.
  unfold placed_ids. cbn [fmap list_fmap concat]. rewrite length_app.
  fold (placed_ids recs). constructor; [lia|].
  eapply Forall_impl; [exact (IH _ Hchain Hall)|].
  intros r [? ?]. cbn beta. lia.
Qed.

(** X23. With at least one judge name, every record of a run holds at least
    one couple, and the places that it takes, from its place on, one for
    each of its couples, lie between 1 and the number of rows. *)
Theorem placement_records_within_rows df judge_rankings judge_names :
  judge_names ≠ [] →
  ∃ records,
    determine_majority_placements df judge_rankings judge_names = Ok records ∧
    Forall (λ record, couples record ≠ [] ∧ 1 ≤ place record ∧
                      place record + length (couples record) - 1 ≤ length df) records ∧
    length records ≤ length df.
Proof.
  intros Hjn.
  destruct (determine_majority_placements_ok df judge_rankings judge_names Hjn)
    as (records & Hrun & Hids & Hchain).
  exists records. split; [done|].
  assert (Forall (λ record, couples record ≠ []) records) as Hne.
  { unfold determine_majority_placements in Hrun. cbn zeta in Hrun.
    destruct (placement_loop_nonempty (length (unplaced (start_engine df))) judge_rankings
                judge_names (length df) (length (unplaced (start_engine df)))
                (start_engine df) Hjn) as (new & Hrun' & Hall); [done|].
    rewrite Hrun in Hrun'. by injection Hrun' as ->. }
  assert (length (placed_ids records) = length df) as Hlen
    by (by rewrite Hids, length_fmap).
  split.
  - pose proof (place_chain_bounds 1 records Hchain Hne) as Hb.
    rewrite Hlen in Hb.
    apply Forall_forall. intros record Hr.
    pose proof (proj1 (Forall_forall _ _) Hb record Hr) as [? ?].
    pose proof (proj1 (Forall_forall _ _) Hne record Hr). split_and!; [done|lia|lia].
  - rewrite <-Hlen. clear -Hne. unfold placed_ids.
    induction Hne as [|record recs Hr _ IH]; [done|].
    cbn [fmap list_fmap concat length]. rewrite length_app.
    destruct (couples record); [done|]. simpl. lia.
Qed.

Lemma placement_records_within_rows_witness :
  ∃ records,
    determine_majority_placements tied_frame (judge_ranking tied_frame <$> seq 0 3)
      (judge_n <$> seq 0 3) = Ok records ∧
    length records ≤ 4.
Proof.
  destruct (placement_records_within_rows tied_frame (judge_ranking tied_frame <$> seq 0 3)
              (judge_n <$> seq 0 3)) as (records & Hrun & _ & Hlen).
  - done.
  - exists records. split; [exact Hrun|exact Hlen].
Defined.

(** ** A winner of every comparison *)

#[local] Typeclasses Opaque beats.

#[local] Instance beats_dec jr a b : Decision (beats jr a b).
Proof. unfold beats. apply _. Defined.

Lemma beats_swap jr a b : beats jr b a ↔ (head_to_head jr a b).1 < (head_to_head jr a b).2.
Proof. unfold beats. by rewrite !head_to_head_filter. Qed.

Lemma beats_asym jr a b : beats jr a b → ¬ beats jr b a.
Proof. rewrite beats_swap. unfold beats. lia. Qed.

Lemma beats_irrefl jr a : ¬ beats jr a a.
Proof. intros H. by apply (beats_asym jr a a). Qed.

Lemma NoDup_singleton_elem {A} (l : list A) a :
  NoDup l → (∀ x, x ∈ l ↔ x = a) → l = [a].
Proof.
  intros Hnd Hl. destruct l as [|x l].
  { assert (a ∈ @nil A) as H by (by apply Hl). by apply elem_of_nil in H. }
  assert (x = a) as -> by (apply Hl; left).
  destruct l as [|y l]; [done|].
  assert (y = a) as -> by (apply Hl; right; left).
  apply NoDup_cons in Hnd as [Hnot _]. destruct Hnot. left.
Qed.

Lemma pairwise_compare_scores X jr a b card :
  a ∈ X → b ∈ X → a ≠ b → covers X card →
  ∃ card', pairwise_compare jr a card b = Ok card' ∧ covers X card' ∧
    ∀ x s, pairwise_scores card !! x = Some s →
      pairwise_scores card' !! x =
        Some (s + if decide ((x = a ∧ beats jr a b) ∨ (x = b ∧ beats jr b a))
                  then 1 else 0).
Proof.
  intros Ha Hb Hab [Hs Hn]. unfold pairwise_compare. cbn zeta.
  assert (∃ scores',
            (if decide ((head_to_head jr a b).2 < (head_to_head jr a b).1) then
               s ← dict_get (pairwise_scores card) a;
               Ok (<[a := s + 1]> (pairwise_scores card))
             else if decide ((head_to_head jr a b).1 < (head_to_head jr a b).2) then
               s ← dict_get (pairwise_scores card) b;
               Ok (<[b := s + 1]> (pairwise_scores card))
             else Ok (pairwise_scores card)) = Ok scores' ∧
            dom scores' = X ∧
            ∀ x s, pairwise_scores card !! x = Some s →
              scores' !! x =
                Some (s + if decide ((x = a ∧ beats jr a b) ∨ (x = b ∧ beats jr b a))
                          then 1 else 0)) as (scores' & -> & Hdom & Hscores).
  { destruct (decide ((head_to_head jr a b).2 < (head_to_head jr a b).1)) as [Hwin|Hno].
    - destruct (dict_get_dom _ a X Hs Ha) as (sa & Hsa & ->). cbn [mbind outcome_bind].
      eexists. split; [done|]. split; [by apply dom_insert_covered|].
      intros x s Hx. destruct (decide (x = a)) as [->|Hne].
      + rewrite lookup_insert_eq. rewrite Hsa in Hx. injection Hx as ->.
        rewrite decide_True; [done|]. by left.
      + rewrite lookup_insert_ne by done. rewrite Hx, decide_False; [f_equal; lia|].
        intros [[-> _]|[-> Hba]]; [done|]. apply beats_swap in Hba. lia.
    - destruct (decide ((head_to_head jr a b).1 < (head_to_head jr a b).2)) as [Hlose|Hno'].
      + destruct (dict_get_dom _ b X Hs Hb) as (sb & Hsb & ->). cbn [mbind outcome_bind].
        eexists. split; [done|]. split; [by apply dom_insert_covered|].
        intros x s Hx. destruct (decide (x = b)) as [->|Hne].
        * rewrite lookup_insert_eq. rewrite Hsb in Hx. injection Hx as ->.
          rewrite decide_True; [done|]. right. split; [done|]. by apply beats_swap.
        * rewrite lookup_insert_ne by done. rewrite Hx, decide_False; [f_equal; lia|].
          intros [[-> Hba]|[-> _]]; [|done]. by apply Hno.
      + eexists. split; [done|]. split; [done|].
        intros x s Hx. rewrite Hx, decide_False; [f_equal; lia|].
        intros [[_ H]|[_ H]]; [by apply Hno|]. apply beats_swap in H. by apply Hno'. }
  cbn [mbind outcome_bind].
  destruct (dict_get_dom _ a X Hn Ha) as (na & _ & ->). cbn [mbind outcome_bind].
  assert (dom (<[a := na ++ [(b, (head_to_head jr a b).1, (head_to_head jr a b).2)]]>
                 (pairwise_notes card)) = X) as Hn' by (by apply dom_insert_covered).
  destruct (dict_get_dom _ b X Hn' Hb) as (nb & _ & ->).
  cbn [mbind outcome_bind]. eexists. split; [done|]. split; [|done].
  split; [done|]. cbn. by apply dom_insert_covered.
Qed.

Lemma pairwise_inner_scores X jr a rest card :
  a ∈ X → (∀ b, b ∈ rest → b ∈ X) → a ∉ rest → NoDup rest → covers X card →
  ∃ card', foldlM (pairwise_compare jr a) card rest = Ok card' ∧ covers X card' ∧
    ∀ x s, pairwise_scores card !! x = Some s →
      pairwise_scores card' !! x =
        Some (s + if decide (x = a) then length (filter (beats jr a) rest)
                  else if decide (x ∈ rest ∧ beats jr x a) then 1 else 0).
Proof.
  intros Ha. revert card.
  induction rest as [|b rest IH]; intros card Hsub Hnot Hnd Hcov; cbn [foldlM].
  - exists card. split; [done|]. split; [done|]. intros x s Hx. rewrite Hx. f_equal.
    case_decide; [simpl; lia|]. rewrite decide_False; [lia|].
    by intros [?%elem_of_nil _].
  - apply not_elem_of_cons in Hnot as [Hab Hnot]. apply NoDup_cons in Hnd as [Hb Hnd].
    destruct (pairwise_compare_scores X jr a b card Ha) as (card1 & -> & Hcov1 & Hs1);
      [apply Hsub; left|done|done|].
    cbn [mbind outcome_bind].
    destruct (IH card1) as (card' & -> & Hcov' & Hs'); [|done|done|done|].
    { intros ? ?. apply Hsub. by right. }
    exists card'. split; [done|]. split; [done|].
    intros x s Hx. rewrite (Hs' x _ (Hs1 x s Hx)). f_equal.
    rewrite filter_cons.
    destruct (decide (x = a)) as [->|Hxa].
    + destruct (decide (beats jr a b)) as [Hbeat|Hno].
      * rewrite decide_True by (by left). simpl. lia.
      * rewrite decide_False; [lia|]. intros [[_ ?]|[? _]]; done.
    + destruct (decide (x = b)) as [->|Hxb].
      * rewrite (decide_False (P := b ∈ rest ∧ _)) by (by intros [? _]).
        destruct (decide (beats jr b a)) as [Hbeat|Hno].
        -- rewrite decide_True by (by right). rewrite decide_True; [lia|].
           split; [left|done].
        -- rewrite decide_False by (intros [[? _]|[_ ?]]; done).
           rewrite decide_False; [lia|]. by intros [_ ?].
      * rewrite decide_False by (intros [[? _]|[? _]]; done).
        destruct (decide (x ∈ rest ∧ beats jr x a)) as [[Hin Hbeat]|Hno].
        -- rewrite decide_True; [lia|]. split; [by right|done].
        -- rewrite decide_False; [lia|].
           intros [[?|?]%elem_of_cons ?]; [done|]. by apply Hno.
Qed.

Lemma pairwise_loop_scores X jr candidates card :
  (∀ c, c ∈ candidates → c ∈ X) → NoDup candidates → covers X card →
  ∃ card', pairwise_loop jr candidates card = Ok card' ∧ covers X card' ∧
    ∀ x s, pairwise_scores card !! x = Some s →
      pairwise_scores card' !! x =
        Some (s + if decide (x ∈ candidates)
                  then length (filter (beats jr x) candidates) else 0).
Proof.
  revert card. induction candidates as [|a rest IH]; intros card Hsub Hnd Hcov;
    cbn [pairwise_loop].
  - exists card. split; [done|]. split; [done|]. intros x s Hx. rewrite Hx. f_equal.
    rewrite decide_False; [lia|]. by intros ?%elem_of_nil.
  - apply NoDup_cons in Hnd as [Ha Hnd].
    destruct (pairwise_inner_scores X jr a rest card) as (card1 & -> & Hcov1 & Hs1);
      [apply Hsub; left|intros; apply Hsub; by right|done|done|done|].
    cbn [mbind outcome_bind].
    destruct (IH card1) as (card' & -> & Hcov' & Hs'); [|done|done|].
    { intros ? ?. apply Hsub. by right. }
    exists card'. split; [done|]. split; [done|].
    intros x s Hx. rewrite (Hs' x _ (Hs1 x s Hx)). f_equal.
    rewrite filter_cons.
    destruct (decide (x = a)) as [->|Hxa].
    + rewrite (decide_False (P := a ∈ rest)) by done.
      rewrite decide_True by left.
      rewrite decide_False by apply beats_irrefl. lia.
    + destruct (decide (x ∈ rest)) as [Hin|Hnot].
      * rewrite (decide_True (P := x ∈ a :: rest)) by (by right).
        destruct (decide (beats jr x a)) as [Hbeat|Hno].
        -- rewrite decide_True by done. simpl. lia.
        -- rewrite decide_False by (by intros [_ ?]). lia.
      * rewrite decide_False by (by intros [? _]).
        rewrite decide_False; [lia|]. by intros [?|?]%elem_of_cons.
Qed.

(** The scorecard of distinct candidates: the score of a candidate is the
    number of candidates that it beats. *)
Lemma pairwise_scorecard jr candidates :
  NoDup candidates →
  ∃ card, pairwise_loop jr candidates (init_scorecard candidates) = Ok card ∧
    covers (list_to_set candidates) card ∧
    ∀ x, x ∈ candidates →
      pairwise_scores card !! x = Some (length (filter (beats jr x) candidates)).
Proof.
  intros Hnd. pose proof (init_scorecard_covers candidates) as Hcov0.
  destruct (pairwise_loop_scores (list_to_set candidates) jr candidates
              (init_scorecard candidates)) as (card & Hrun & Hcov & Hs);
    [by intros; apply elem_of_list_to_set|done|done|].
  exists card. split; [done|]. split; [done|]. intros x Hx.
  destruct (dict_get_dom _ x _ (proj1 Hcov0)) as (s & Hs0 & _);
    [by apply elem_of_list_to_set|].
  rewrite (Hs x s Hs0), decide_True by done.
  apply init_scorecard_zero in Hs0 as ->. done.
Qed.

Lemma condorcet_counts jr candidates c :
  NoDup candidates → c ∈ candidates →
  (∀ d, d ∈ candidates → d ≠ c → beats jr c d) →
  length (filter (beats jr c) candidates) = length candidates - 1 ∧
  ∀ d, d ∈ candidates → d ≠ c →
    length (filter (beats jr d) candidates) < length candidates - 1.
Proof.
  intros Hnd Hc Hbeats.
  apply elem_of_Permutation in Hc as [k Hk].
  rewrite Hk in Hnd. apply NoDup_cons in Hnd as [Hck Hndk].
  assert (∀ d, d ∈ k → beats jr c d) as Hbk.
  { intros d Hd. apply Hbeats; [rewrite Hk; by right|]. by intros ->. }
  split.
  - rewrite Hk, filter_cons, decide_False by apply beats_irrefl.
    rewrite filter_all by (by apply Forall_forall). simpl. lia.
  - intros d Hd Hdc. rewrite Hk in Hd. apply elem_of_cons in Hd as [?|Hd]; [done|].
    apply elem_of_Permutation in Hd as [k' Hk'].
    rewrite Hk, Hk', !filter_cons.
    rewrite decide_False.
    2:{ apply beats_asym, Hbk. rewrite Hk'. left. }
    rewrite decide_False by apply beats_irrefl.
    pose proof (length_filter (beats jr d) k'). simpl. lia.
Qed.

Lemma resolve_many_condorcet rec candidates jr c :
  NoDup candidates → 2 ≤ length candidates → c ∈ candidates →
  (∀ d, d ∈ candidates → d ≠ c → beats jr c d) →
  (∀ top, top ≠ [] → length top < length candidates → partitions top (rec top)) →
  ∃ rest info, resolve_many rec candidates jr = Ok ([c] :: rest, info).
Proof.
  intros Hnd Hlen Hc Hbeats Hrec. unfold resolve_many.
  destruct (pairwise_scorecard jr candidates Hnd) as (card & -> & Hcov & Hscores).
  destruct (condorcet_counts jr candidates c Hnd Hc Hbeats) as [Hcount Hless].
  cbn [mbind outcome_bind].
  set (n := length candidates) in *.
  assert (∀ x, x ∈ candidates ↔ x ∈ (list_to_set candidates : gset string)) as Hset.
  { intros x. by rewrite elem_of_list_to_set. }
  assert (∀ x s, pairwise_scores card !! x = Some s →
            (x = c ∧ s = n - 1) ∨ (x ≠ c ∧ s < n - 1)) as Hcases.
  { intros x s Hx.
    assert (x ∈ candidates) as Hin.
    { apply Hset. rewrite <-(proj1 Hcov). apply elem_of_dom. eauto. }
    rewrite (Hscores x Hin) in Hx. injection Hx as <-.
    destruct (decide (x = c)) as [->|Hne]; [by left|right].
    split; [done|]. by apply Hless. }
  assert (pairwise_scores card !! c = Some (n - 1)) as Hsc.
  { by rewrite (Hscores c Hc), Hcount. }
  assert (pairwise_scores card ≠ ∅) as Hm0.
  { intros Hempty. by rewrite Hempty, lookup_empty in Hsc. }
  destruct (py_max_values _ Hm0) as (mx & -> & [c0 Hc0] & Hle). cbn [mbind outcome_bind].
  assert (mx = n - 1) as ->.
  { pose proof (Hle c _ Hsc). destruct (Hcases c0 mx Hc0) as [[_ ?]|[_ ?]]; lia. }
  assert (filter (λ item : string * nat, item.2 = n - 1)
            (map_to_list (pairwise_scores card)) = [(c, n - 1)]) as ->.
  { apply NoDup_singleton_elem.
    - apply NoDup_filter, NoDup_map_to_list.
    - intros [x s]. rewrite list_elem_of_filter, elem_of_map_to_list. cbn [snd]. split.
      + intros [-> Hx]. destruct (Hcases x _ Hx) as [[-> _]|[_ ?]]; [done|lia].
      + by intros [= -> ->]. }
  rewrite decide_False by (simpl; lia).
  (* the first pass of the loop takes the winner out *)
  assert (∀ x, x ∈ candidates → x ∈ (list_to_set candidates : gset string)) as Hsub
    by (by intros; apply Hset).
  destruct n as [|n'] eqn:Hn; [lia|].
  cbn [resolve_loop]. rewrite decide_False by (intros ->; by apply elem_of_nil in Hc).
  destruct (resolve_loop_head _ card Hcov candidates) as
    (m & mx & Hm & Hmx & Htopeq & Htop & Hin & Hmle);
    [by intros ->; apply elem_of_nil in Hc|done|].
  rewrite Hm. cbn [mbind outcome_bind]. rewrite Hmx. cbn [mbind outcome_bind].
  rewrite Htopeq. cbn [mbind outcome_bind]. clear Hm Hmx Htopeq.
  assert (mx = S n' - 1) as ->.
  { destruct (filter (λ x, m !! x = Some mx) candidates) as [|x l] eqn:Hf; [done|].
    assert (x ∈ filter (λ x, m !! x = Some mx) candidates) as Hx by (rewrite Hf; left).
    apply list_elem_of_filter in Hx as [Hmx Hx]. rewrite (Hin x Hx) in Hmx.
    assert (m !! c = Some (S n' - 1)) as Hmc by (by rewrite (Hin c Hc)).
    pose proof (Hmle c _ Hmc). destruct (Hcases x mx Hmx) as [[_ ?]|[_ ?]]; lia. }
  assert (filter (λ x, m !! x = Some (S n' - 1)) candidates = [c]) as ->.
  { apply NoDup_singleton_elem; [by apply NoDup_filter|].
    intros x. rewrite list_elem_of_filter. split.
    - intros [Hmx Hx]. rewrite (Hin x Hx) in Hmx.
      destruct (Hcases x _ Hmx) as [[-> _]|[_ ?]]; [done|lia].
    - intros ->. split; [by rewrite (Hin c Hc)|done]. }
  rewrite decide_False by (simpl; lia). rewrite decide_True by done.
  cbn [py_index lookup list_lookup of_option mbind outcome_bind].
  destruct (dict_get_dom _ c _ (proj2 Hcov) (Hsub c Hc)) as (notes & _ & ->).
  cbn [mbind outcome_bind].
  destruct (remove_first_elem_of c candidates Hc) as [remaining Hrem].
  rewrite Hrem. cbn [of_option mbind outcome_bind].
  apply remove_first_Some in Hrem.
  assert (length candidates = S (length remaining)) as Hlenr by (by rewrite Hrem).
  destruct (resolve_loop_ok _ rec card (S n') Hcov Hrec n' remaining ([] ++ [[c]])
              (<[c := Pairwise notes]> ∅))
    as (groups & info & -> & _ & _); [|lia|lia|].
  { intros x Hx. apply Hsub. rewrite Hrem. by right. }
  cbn [mbind outcome_bind app].
  destruct (default_notes_ok _ card candidates info Hcov Hsub) as (info' & ->).
  cbn [mbind outcome_bind]. eauto.
Qed.

(** X24. A candidate that wins its head-to-head comparison with every
    other tied candidate comes first, alone in its group. *)
Theorem head_to_head_winner_first candidates judge_rankings judge_names c :
  NoDup candidates → c ∈ candidates →
  (∀ d, d ∈ candidates → d ≠ c →
     (head_to_head judge_rankings c d).2 < (head_to_head judge_rankings c d).1) →
  ∃ rest info,
    resolve_ties candidates judge_rankings judge_names = Ok ([c] :: rest, info) ∧
    c :: concat rest ≡ₚ candidates.
Proof.
  intros Hnd Hc Hbeats.
  assert (∃ rest info,
            resolve_ties candidates judge_rankings judge_names = Ok ([c] :: rest, info))
    as (rest & info & Hrun).
  { unfold resolve_ties.
    destruct (decide (2 < length candidates)) as [Hmany|Hfew].
    - rewrite resolve_ties_rec_many by done. apply resolve_many_condorcet; try done; [lia|].
      intros top _ Htop. by apply resolve_ties_rec_ok.
    - destruct candidates as [|a [|b [|x rest]]]; [..|simpl in Hfew; lia].
      + by apply elem_of_nil in Hc.
      + apply list_elem_of_singleton in Hc as ->. by eexists _, _.
      + cbn [resolve_ties_rec length]. rewrite decide_False by lia.
        apply NoDup_cons in Hnd as [Hab%not_elem_of_cons _]. destruct Hab as [Hab _].
        apply elem_of_cons in Hc as [->|Hc%list_elem_of_singleton].
        * rewrite decide_True by (apply Hbeats; [right; left|done]). by eexists _, _.
        * subst c.
          assert (beats judge_rankings b a) as Hba by (apply Hbeats; [left|done]).
          apply beats_swap in Hba.
          rewrite decide_False by lia. rewrite decide_True by done. by eexists _, _. }
  exists rest, info. split; [done|].
  destruct (resolve_ties_ok candidates judge_rankings judge_names)
    as (groups & info' & Hrun' & Hperm & _).
  rewrite Hrun in Hrun'. by injection Hrun' as <- <-.
Qed.

Lemma head_to_head_winner_first_witness :
  ∃ rest info,
    resolve_ties ["A"; "B"; "C"]
      [ {[ "A" := 2; "B" := 1; "C" := 3 ]}; {[ "A" := 3; "B" := 1; "C" := 2 ]};
        {[ "A" := 1; "B" := 2; "C" := 3 ]} ]
      ["Judge 1"; "Judge 2"; "Judge 3"] = Ok (["B"] :: rest, info).
Proof.
  destruct (head_to_head_winner_first ["A"; "B"; "C"]
              [ {[ "A" := 2; "B" := 1; "C" := 3 ]}; {[ "A" := 3; "B" := 1; "C" := 2 ]};
                {[ "A" := 1; "B" := 2; "C" := 3 ]} ]
              ["Judge 1"; "Judge 2"; "Judge 3"] "B") as (rest & info & Hrun & _).
  - by_compute.
  - by_compute.
  - intros d [->|[->|[->|[]%elem_of_nil]%elem_of_cons]%elem_of_cons]%elem_of_cons Hd;
      [by_compute|done|by_compute].
  - exists rest, info. exact Hrun.
Defined.

(** ** The rationales of a tie *)

Lemma record_notes_covers card cs info info' :
  record_notes card cs info = Ok info' →
  ∀ c, c ∈ cs ∨ is_Some (info !! c) → is_Some (info' !! c).
Proof.
  unfold record_notes. revert info.
  induction cs as [|x cs IH]; intros info; cbn [foldlM].
  - intros [= <-] c [?%elem_of_nil|?]; done.
  - destruct (dict_get (pairwise_notes card) x) as [notes| |]; [|done..].
    cbn [mbind outcome_bind]. intros Hrun c Hc. apply (IH _ Hrun).
    destruct (decide (c = x)) as [->|Hne].
    + right. rewrite lookup_insert_eq. eauto.
    + destruct Hc as [[?|?]%elem_of_cons|?]; [done|by left|].
      right. by rewrite lookup_insert_ne.
Qed.

Lemma default_notes_covers card cs info info' :
  default_notes card cs info = Ok info' →
  ∀ c, c ∈ cs ∨ is_Some (info !! c) → is_Some (info' !! c).
Proof.
  unfold default_notes. revert info.
  induction cs as [|x cs IH]; intros info; cbn [foldlM].
  - intros [= <-] c [?%elem_of_nil|?]; done.
  - destruct (dict_get (pairwise_notes card) x) as [notes| |]; [|done..].
    cbn [mbind outcome_bind]. intros Hrun c Hc. apply (IH _ Hrun).
    destruct (decide (c = x)) as [->|Hne].
    + right. destruct (info !! x) eqn:Hx; [by rewrite Hx|].
      rewrite lookup_insert_eq. eauto.
    + destruct Hc as [[?|?]%elem_of_cons|?]; [done|by left|].
      right. destruct (info !! x); [done|]. by rewrite lookup_insert_ne.
Qed.

(** X25. The resolver records a rationale for every candidate of a tie of
    two or more, whether the tie is broken or not; for fewer candidates it
    records none. *)
Theorem resolve_ties_rationales candidates judge_rankings judge_names :
  ∃ groups info,
    resolve_ties candidates judge_rankings judge_names = Ok (groups, info) ∧
    (2 ≤ length candidates → ∀ c, c ∈ candidates → is_Some (info !! c)) ∧
    (length candidates ≤ 1 → info = ∅).
Proof.
  destruct (resolve_ties_ok candidates judge_rankings judge_names)
    as (groups & info & Hrun & _).
  exists groups, info. split; [done|].
  unfold resolve_ties in Hrun. cbn [resolve_ties_rec] in Hrun. split.
  - intros Hlen. rewrite decide_False in Hrun by lia.
    destruct candidates as [|a [|b [|x rest]]]; [simpl in Hlen; lia..| |].
    + intros c Hc.
      assert (c = a ∨ c = b) as Hab.
      { apply elem_of_cons in Hc as [?|Hc]; [by left|].
        apply list_elem_of_singleton in Hc. by right. }
      repeat case_decide; injection Hrun as <- <-.
      * destruct (decide (c = b)) as [->|?]; [by rewrite lookup_insert_eq|].
        rewrite lookup_insert_ne by done. destruct Hab as [->|?]; [|done].
        by rewrite lookup_insert_eq.
      * destruct (decide (c = b)) as [->|?]; [by rewrite lookup_insert_eq|].
        rewrite lookup_insert_ne by done. destruct Hab as [->|?]; [|done].
        by rewrite lookup_insert_eq.
      * destruct (decide (c = a)) as [->|?]; [by rewrite lookup_insert_eq|].
        rewrite lookup_insert_ne by done. destruct Hab as [? | ->]; [done|].
        by rewrite lookup_insert_eq.
    + unfold resolve_many in Hrun.
      apply bind_Ok in Hrun as (card & _ & Hrun).
      apply bind_Ok in Hrun as (max_score & _ & Hrun).
      case_decide.
      * apply bind_Ok in Hrun as (info1 & Hnotes & [= <- <-]).
        intros c Hc. apply (record_notes_covers _ _ _ _ Hnotes). by left.
      * apply bind_Ok in Hrun as ([result_groups info1] & _ & Hrun).
        apply bind_Ok in Hrun as (info2 & Hnotes & [= <- <-]).
        intros c Hc. apply (default_notes_covers _ _ _ _ Hnotes). by left.
  - intros Hlen. rewrite decide_True in Hrun by done. by injection Hrun as <- <-.
Qed.

(** ** The two number parsers *)

Import Numbers.

(** X26. The number parser of the dashboard and the score normalizer agree
    on a string that holds no space or no-break space and no whitespace at
    its ends; on a number they differ: the dashboard takes strings only and
    returns nothing for a number, which the normalizer returns as it is. *)
Theorem parsers_agree_on_plain_strings py_float :
  (∀ s, strip s = s → SPACE ∉ s → NBSP ∉ s →
     _parse_score py_float (PyStr s) = Ok (parse_european_number py_float (PyStr s))) ∧
  (∀ x, parse_european_number py_float (PyFloat x) = None ∧
        _parse_score py_float (PyFloat x) = Ok (Some x)) ∧
  (∀ n, parse_european_number py_float (PyInt n) = None ∧
        ((Z.abs n < 2 ^ 53)%Z → _parse_score py_float (PyInt n) = Ok (Some (Qc_of_Z n)))).
Proof.
  split_and!.
  - intros s Hstrip Hspace Hnbsp. cbn [_parse_score parse_european_number].
    unfold parse_text. rewrite Hstrip. case_decide; [done|].
    assert (∀ c, c ∉ s → remove_char c s = s) as Hremove.
    { intros c Hc. unfold remove_char. apply filter_all, Forall_forall.
      intros x Hx ->. done. }
    rewrite (Hremove SPACE), (Hremove NBSP) by done.
    by destruct (py_float _).
  - done.
  - intros n. split; [done|]. apply parse_score_small_int.
Qed.

Lemma parsers_agree_on_plain_strings_witness :
  _parse_score (λ _, Some 1%Qc) (PyStr [51; 44; 55; 53]%N) =
    Ok (parse_european_number (λ _, Some 1%Qc) (PyStr [51; 44; 55; 53]%N)).
Proof.
  apply (proj1 (parsers_agree_on_plain_strings (λ _, Some 1%Qc))).
  - done.
  - by_compute.
  - by_compute.
Defined.

(** ** Thresholds *)

Lemma count_within_mono jr c t t' :
  t ≤ t' → count_within jr c t ≤ count_within jr c t'.
Proof.
  intros Ht. unfold count_within.
  induction jr as [|ranking jr IH]; [done|].
  rewrite !filter_cons.
  destruct (ranking !! c) as [r|]; simpl.
  - destruct (decide (r ≤ t)).
    + rewrite !bool_decide_eq_true_2 by lia. simpl. lia.
    + rewrite (bool_decide_eq_false_2 (r ≤ t)) by done.
      destruct (decide (r ≤ t')).
      * rewrite bool_decide_eq_true_2 by done. simpl. lia.
      * rewrite bool_decide_eq_false_2 by done. simpl. lia.
  - simpl. lia.
Qed.

(** X27. Qualification is monotone in the threshold: a competitor with a
    majority of ranks within a threshold has one within every larger
    threshold, with at least as many judges. *)
Theorem qualification_monotone judge_rankings num_judges unplaced t t' c k :
  t ≤ t' →
  candidate_counts_at judge_rankings num_judges unplaced t !! c = Some k →
  ∃ k', candidate_counts_at judge_rankings num_judges unplaced t' !! c = Some k' ∧ k ≤ k'.
Proof.
  intros Ht (Hc & -> & Hmaj)%candidate_counts_Some.
  exists (count_within judge_rankings c t'). split.
  - apply candidate_counts_Some. split; [done|]. split; [done|].
    apply is_majority_iff. apply is_majority_iff in Hmaj.
    pose proof (count_within_mono judge_rankings c t t' Ht). lia.
  - by apply count_within_mono.
Qed.

Lemma qualification_monotone_witness :
  ∃ k', candidate_counts_at (judge_ranking tied_frame <$> seq 0 3) 3
          ["10"; "2"; "3"; "4"] 3 !! "10" = Some k' ∧ 2 ≤ k'.
Proof.
  apply (qualification_monotone (judge_ranking tied_frame <$> seq 0 3) 3
           ["10"; "2"; "3"; "4"] 1 3 "10" 2).
  - lia.
  - by_compute.
Defined.
